(** * A shallow embedding of vcardtools' [vcardlib.py]

    Python [str] values are modelled as Rocq [string]s (ASCII characters);
    Python dicts keyed by strings as stdpp [gmap]s when their order does not
    matter and as association lists when the code iterates them in insertion
    order; Python exceptions as the [Err] branch of [result]. *)

From Stdlib Require Import Ascii String List Bool Arith Lia Relations Sorting.Permutation.
From stdpp Require Import base gmap strings list pretty.

Import ListNotations.
Open Scope string_scope.

(** ** Exceptions and the error monad *)

Inductive exn : Type :=
  | TypeError (msg : string)
  | ValueError (msg : string)
  | RuntimeError (msg : string)
  | KeyError (key : string)
  | IndexError (msg : string)
  | AttributeError (attr : string).

Inductive result (A : Type) : Type :=
  | Ok (a : A)
  | Err (e : exn).
Arguments Ok {A} a.
Arguments Err {A} e.

Definition bind {A B} (m : result A) (k : A -> result B) : result B :=
  match m with Ok a => k a | Err e => Err e end.

Notation "'let*' x ':=' m 'in' k" := (bind m (fun x => k))
  (at level 200, x name, m at level 100, k at level 200).
Notation "'let*' ' p ':=' m 'in' k" := (bind m (fun x => match x with p => k end))
  (at level 200, p pattern, m at level 100, k at level 200).

(** A loop over [l] threading an accumulator, stopping at the first error. *)
Fixpoint fold_result {A B} (f : A -> B -> result A) (l : list B) (a : A) : result A :=
  match l with
  | [] => Ok a
  | b :: l' => let* a' := f a b in fold_result f l' a'
  end.

(** ** Python string primitives (ASCII) *)

Module Py.

(** [str.isspace] on an ASCII character: \t \n \v \f \r, the separators
    \x1c-\x1f, and the space. *)
Definition is_space (c : ascii) : bool :=
  let n := nat_of_ascii c in
  (((9 <=? n) && (n <=? 13)) || ((28 <=? n) && (n <=? 32)))%nat.

Definition is_upper (c : ascii) : bool :=
  let n := nat_of_ascii c in ((65 <=? n) && (n <=? 90))%nat.
Definition is_lower (c : ascii) : bool :=
  let n := nat_of_ascii c in ((97 <=? n) && (n <=? 122))%nat.
Definition is_digit (c : ascii) : bool :=
  let n := nat_of_ascii c in ((48 <=? n) && (n <=? 57))%nat.
Definition is_alpha (c : ascii) : bool := is_upper c || is_lower c.
(** A character of the regex class [\w]. *)
Definition is_word (c : ascii) : bool :=
  is_alpha c || is_digit c || (c =? "_")%char.

Definition to_lower (c : ascii) : ascii :=
  if is_upper c then ascii_of_nat (nat_of_ascii c + 32)%nat else c.
Definition to_upper (c : ascii) : ascii :=
  if is_lower c then ascii_of_nat (nat_of_ascii c - 32)%nat else c.

Fixpoint map_chars (f : ascii -> ascii) (s : string) : string :=
  match s with
  | EmptyString => EmptyString
  | String c s' => String (f c) (map_chars f s')
  end.

(** [str.lower] and [str.upper]. *)
Definition lower (s : string) : string := map_chars to_lower s.
Definition upper (s : string) : string := map_chars to_upper s.

(** [str.lstrip()], [str.rstrip()] and [str.strip()]. *)
Fixpoint lstrip (s : string) : string :=
  match s with
  | EmptyString => EmptyString
  | String c s' => if is_space c then lstrip s' else s
  end.

Fixpoint rstrip (s : string) : string :=
  match s with
  | EmptyString => EmptyString
  | String c s' =>
      match rstrip s' with
      | EmptyString => if is_space c then EmptyString else String c EmptyString
      | r => String c r
      end
  end.

Definition strip (s : string) : string := rstrip (lstrip s).

(** [s.startswith(p)]. *)
Fixpoint startswith (s p : string) : bool :=
  match p, s with
  | EmptyString, _ => true
  | String c p', String d s' => (c =? d)%char && startswith s' p'
  | String _ _, EmptyString => false
  end.

(** [s.endswith(p)]. *)
Definition endswith (s p : string) : bool :=
  (String.length p <=? String.length s)%nat
  && String.eqb (substring (String.length s - String.length p) (String.length p) s) p.

(** [p in s] for strings. *)
Fixpoint contains (s p : string) : bool :=
  startswith s p ||
  match s with
  | EmptyString => false
  | String _ s' => contains s' p
  end.

(** [c in s] for a character. *)
Fixpoint has_char (c : ascii) (s : string) : bool :=
  match s with
  | EmptyString => false
  | String d s' => (c =? d)%char || has_char c s'
  end.

(** [s.replace(old, new)] for a non-empty [old]: non-overlapping occurrences,
    left to right.  The fuel is the length of [s]. *)
Fixpoint replace_go (fuel : nat) (old new s : string) : string :=
  match fuel with
  | O => s
  | S fuel' =>
      match s with
      | EmptyString => EmptyString
      | String c s' =>
          if startswith s old
          then new ++ replace_go fuel' old new
                        (substring (String.length old) (String.length s) s)
          else String c (replace_go fuel' old new s')
      end
  end.

Definition replace (old new s : string) : string :=
  replace_go (String.length s) old new s.

(** [sep.join(l)]. *)
Fixpoint join (sep : string) (l : list string) : string :=
  match l with
  | [] => EmptyString
  | [x] => x
  | x :: l' => x ++ sep ++ join sep l'
  end.

(** [s.split(c)] for a one-character separator [c]. *)
Fixpoint split_char (c : ascii) (s : string) : list string :=
  match s with
  | EmptyString => [EmptyString]
  | String d s' =>
      if (c =? d)%char then EmptyString :: split_char c s'
      else match split_char c s' with
           | [] => [String d EmptyString]
           | w :: ws => String d w :: ws
           end
  end.

(** [s.split()] (on runs of whitespace, no empty fields). *)
Fixpoint split_ws_go (cur : string) (s : string) : list string :=
  match s with
  | EmptyString => if String.eqb cur "" then [] else [cur]
  | String c s' =>
      if is_space c
      then (if String.eqb cur "" then [] else [cur]) ++ split_ws_go "" s'
      else split_ws_go (cur ++ String c EmptyString) s'
  end.
Definition split_ws (s : string) : list string := split_ws_go "" s.

(** [str.title()]: a cased character following a cased character is
    lowered, any other is uppered. *)
Fixpoint title_go (prev_cased : bool) (s : string) : string :=
  match s with
  | EmptyString => EmptyString
  | String c s' =>
      let c' := if prev_cased then to_lower c else to_upper c in
      String c' (title_go (is_alpha c') s')
  end.
Definition title (s : string) : string := title_go false s.

End Py.

Import Py.

(** [s.split(sep)] for a non-empty separator string [sep]. *)
Fixpoint split_str_go (fuel : nat) (sep cur s : string) : list string :=
  match fuel with
  | O => [cur ++ s]
  | S fuel' =>
      match s with
      | EmptyString => [cur]
      | String c s' =>
          if startswith s sep
          then cur :: split_str_go fuel' sep ""
                        (substring (String.length sep) (String.length s) s)
          else split_str_go fuel' sep (cur ++ String c EmptyString) s'
      end
  end.
Definition split_str (sep s : string) : list string :=
  split_str_go (String.length s) sep "" s.

(** [s[:1]] *)
Definition first_char (s : string) : string := substring 0 1 s.

(** ** Hand-written matchers for the compiled regular expressions *)

(** The maximal prefix of spaces is dropped ([' *'], greedy). *)
Fixpoint drop_spaces (s : string) : string :=
  match s with
  | String " " s' => drop_spaces s'
  | _ => s
  end.

(** [Some (before, after)] where [before] runs up to the first [c] and
    [after] follows it. *)
Fixpoint break_at (c : ascii) (s : string) : option (string * string) :=
  match s with
  | EmptyString => None
  | String d s' =>
      if (c =? d)%char then Some (EmptyString, s')
      else match break_at c s' with
           | Some (b, a) => Some (String d b, a)
           | None => None
           end
  end.

(** [REGEX_ANYTHING_BETWEEN_PARENTH_OR_BRACES = ' *(\([^)]*\)|\[[^]]*\]) *']
    matched at the start of [s]: group 1 and the text after the match. *)
Definition paren_match_at (s : string) : option (string * string) :=
  match drop_spaces s with
  | String "(" t =>
      match break_at ")" t with
      | Some (inner, t') => Some ("(" ++ inner ++ ")", drop_spaces t')
      | None => None
      end
  | String "[" t =>
      match break_at "]" t with
      | Some (inner, t') => Some ("[" ++ inner ++ "]", drop_spaces t')
      | None => None
      end
  | _ => None
  end.

(** [REGEX_ANYTHING_BETWEEN_PARENTH_OR_BRACES.search(s).groups()]: group 1
    of the leftmost match. *)
Fixpoint paren_search (s : string) : option string :=
  match paren_match_at s with
  | Some (g, _) => Some g
  | None =>
      match s with
      | EmptyString => None
      | String _ s' => paren_search s'
      end
  end.

(** [REGEX_ANYTHING_BETWEEN_PARENTH_OR_BRACES.sub('', s)]. *)
Fixpoint paren_sub_go (fuel : nat) (s : string) : string :=
  match fuel with
  | O => s
  | S fuel' =>
      match paren_match_at s with
      | Some (_, rest) => paren_sub_go fuel' rest
      | None =>
          match s with
          | EmptyString => EmptyString
          | String c s' => String c (paren_sub_go fuel' s')
          end
      end
  end.
Definition paren_sub (s : string) : string := paren_sub_go (String.length s) s.

(** [re.sub(r'[\(\)\[\]]', '', s)] *)
Fixpoint remove_brackets (s : string) : string :=
  match s with
  | EmptyString => EmptyString
  | String c s' =>
      if (c =? "(")%char || (c =? ")")%char || (c =? "[")%char || (c =? "]")%char
      then remove_brackets s' else String c (remove_brackets s')
  end.

(** [REGEX_EMAIL_WITH_NAME] and [REGEX_NAME_IN_EMAIL] (spaces, a display
    name of one or more characters between double quotes, spaces, an address
    of one or more characters between angle brackets, spaces, end) matched on
    [s]: the display name and the address.  The final [$] also matches before
    a trailing newline. *)
Definition name_in_email_match (s : string) : option (string * string) :=
  match drop_spaces s with
  | String "034" t =>
      match break_at "034" t with
      | Some ((String _ _) as nm, t2) =>
          match drop_spaces t2 with
          | String "<" t3 =>
              match break_at ">" t3 with
              | Some ((String _ _) as em, t4) =>
                  match drop_spaces t4 with
                  | EmptyString => Some (nm, em)
                  | String "010" EmptyString => Some (nm, em)
                  | _ => None
                  end
              | _ => None
              end
          | _ => None
          end
      | _ => None
      end
  | _ => None
  end.

(** ** [select_most_relevant_name] *)

(** The loop of [select_most_relevant_name].  An empty name is skipped by
    [continue] (so [pos] is not incremented); any other name reaches the
    [else: raise TypeError(...)] branch.  The comparison code that follows the
    [if]/[else] in the loop body is unreachable. *)
Fixpoint select_loop (names : list string) (selected_name : option string)
    (pos : nat) : result (option string) :=
  match names with
  | [] => Ok selected_name
  | name :: rest =>
      if String.eqb name ""
      then select_loop rest selected_name pos
      else Err (TypeError ("parameter 'names[" ++ pretty pos ++ "]' is undefined"))
  end.

Definition select_most_relevant_name (names : list string) : result string :=
  match names with
  | [] => Err (ValueError "Trying to select a name from an empty list of names")
  | _ =>
      let* selected_name := select_loop names None 0 in
      match selected_name with
      | None | Some EmptyString => Err (RuntimeError "Failed to select a name")
      | Some s =>
          if has_char "=" s
          then Err (RuntimeError ("Invalid selected name '" ++ s ++ "' "
                       ++ "(contains an equals sign: maybe an undecoded string)"))
          else Ok s
      end
  end.

(** ** Structured names ([vobject.vcard.Name]) *)

Record name := mkName {
  family : string; given : string; additional : string;
  prefix : string; suffix : string }.

(** [Name(family=..., given=..., suffix=...)], other fields default to ''. *)
Definition Name (f g sfx : string) : name := mkName f g "" "" sfx.

(** [str(Name)]: [' '.join] of prefix, given, additional, family, suffix. *)
Definition name_str (n : name) : string :=
  join " " [prefix n; given n; additional n; family n; suffix n].

Section FrenchTweaks.
Variable OPTION_FRENCH_TWEAKS : bool.

Definition build_formatted_name (name0 : string) : name :=
  let '(name_suffix, name1) :=
    match paren_search name0 with
    | Some g => (strip g, paren_sub name0)
    | None => (EmptyString, name0)
    end in
  let '(name_family, name_splitted) :=
    if contains name1 " - " then
      match split_str " - " name1 with
      | f :: rest => (f, rest)
      | [] => (EmptyString, [])
      end
    else if OPTION_FRENCH_TWEAKS && contains (lower name1) " de " then
      match split_str " de " (lower name1) with
      | f :: rest => ("De " ++ f, rest)
      | [] => (EmptyString, [])
      end
    else
      let parts := split_char " " name1 in
      (List.last parts EmptyString, List.removelast parts) in
  Name name_family (join " " name_splitted) name_suffix.

End FrenchTweaks.

(** [close_parentheses_or_braces] *)
Definition close_parentheses_or_braces (s : string) : string :=
  if has_char "(" s && negb (has_char ")" s) then
    match drop_spaces s with
    | String "(" rest => rest
    | _ => s ++ ")"
    end
  else if has_char "[" s && negb (has_char "]" s) then
    match drop_spaces s with
    | String "[" rest => rest
    | _ => s ++ "]"
    end
  else s.

(** ** The vCard data model ([vobject.base.Component]) *)

(** A property value: a string, a structured name ([N]) or a list of strings
    ([ORG]). *)
Inductive pval : Type :=
  | VStr (s : string)
  | VName (n : name)
  | VList (l : list string).

(** A [ContentLine]: its value and its parameters (name to list of values). *)
Record prop := mkProp {
  value : pval;
  params : list (string * list string) }.

(** [Component.contents]: lower-case property name to the list of its
    instances, in insertion order. *)
Definition vcard := list (string * list prop).

Fixpoint get_list (v : vcard) (k : string) : option (list prop) :=
  match v with
  | [] => None
  | (k', l) :: v' => if String.eqb k k' then Some l else get_list v' k
  end.

(** [hasattr(vcard, k)]: [Component.__getattr__] returns
    [self.contents[k][0]]; a missing key is an [AttributeError] (so [False]),
    an empty list an [IndexError] that [hasattr] lets through. *)
Definition hasattr (v : vcard) (k : string) : result bool :=
  match get_list v k with
  | None => Ok false
  | Some [] => Err (IndexError "list index out of range")
  | Some (_ :: _) => Ok true
  end.

(** [del vcard.k] / [del vcard.k_list]: [del self.contents[k]]. *)
Fixpoint del_key (v : vcard) (k : string) : vcard :=
  match v with
  | [] => []
  | (k', l) :: v' => if String.eqb k k' then v' else (k', l) :: del_key v' k
  end.

(** Replacing the list [self.contents[k]] in place (the key keeps its
    position). *)
Fixpoint set_list (v : vcard) (k : string) (l : list prop) : vcard :=
  match v with
  | [] => []
  | (k', l') :: v' => if String.eqb k k' then (k', l) :: v' else (k', l') :: set_list v' k l
  end.

(** [vcard.add(k)] followed by setting the value and parameters of the new
    line: [self.contents.setdefault(k, []).append(obj)]. *)
Fixpoint add (v : vcard) (k : string) (p : prop) : vcard :=
  match v with
  | [] => [(k, [p])]
  | (k', l) :: v' => if String.eqb k k' then (k', (l ++ [p])%list) :: v' else (k', l) :: add v' k p
  end.

(** [repr] of an ASCII [str]. *)
Definition hex_digit (n : nat) : ascii :=
  if (n <? 10)%nat then ascii_of_nat (48 + n) else ascii_of_nat (87 + n).

Definition repr_char (quote : ascii) (c : ascii) : string :=
  let n := nat_of_ascii c in
  if (c =? quote)%char || (c =? "\")%char then String "\" (String c EmptyString)
  else if (c =? "009")%char then "\t"
  else if (c =? "010")%char then "\n"
  else if (c =? "013")%char then "\r"
  else if (n <? 32)%nat || (n =? 127)%nat
  then String "\" (String "x" (String (hex_digit (n / 16)) (String (hex_digit (n mod 16)) EmptyString)))
  else String c EmptyString.

Fixpoint repr_chars (quote : ascii) (s : string) : string :=
  match s with
  | EmptyString => EmptyString
  | String c s' => repr_char quote c ++ repr_chars quote s'
  end.

Definition repr_str (s : string) : string :=
  let quote := if has_char "'" s && negb (has_char "034" s) then "034"%char else "'"%char in
  String quote (repr_chars quote s ++ String quote EmptyString).

(** [str(attr.value)] *)
Definition py_str (v : pval) : string :=
  match v with
  | VStr s => s
  | VName n => name_str n
  | VList l => "[" ++ join ", " (map repr_str l) ++ "]"
  end.

(** ** [normalize] *)

Section Normalize.
Variable OPTION_FRENCH_TWEAKS : bool.

(** One iteration of the loop that moves the bracketed part of a name to
    [NOTE]: the new name line and the vCard with its note updated. *)
Definition move_name_parenth (name_key : string) (attr_n : prop) (vc : vcard)
    : result (prop * vcard) :=
  let v := close_parentheses_or_braces (strip (replace "  " " " (py_str (value attr_n)))) in
  match paren_search v with
  | None => Ok (attr_n, vc)
  | Some g =>
      let inner := remove_brackets (strip g) in
      let outer := strip (paren_sub v) in
      let attr_n' :=
        if String.eqb name_key "n"
        then mkProp (VName (build_formatted_name OPTION_FRENCH_TWEAKS outer)) (params attr_n)
        else mkProp (VStr outer) (params attr_n) in
      let* has_note := hasattr vc "note" in
      if has_note then
        match get_list vc "note" with
        | Some (nt :: nts) =>
            match value nt with
            | VStr s => Ok (attr_n', set_list vc "note" (mkProp (VStr (s ++ "010" ++ inner)) (params nt) :: nts))
            | _ => Err (TypeError "can only concatenate str")
            end
        | _ => Err (IndexError "list index out of range")
        end
      else Ok (attr_n', add vc "note" (mkProp (VStr inner) []))
  end.

Fixpoint move_names_loop (name_key : string) (l : list prop) (vc : vcard)
    : result (list prop * vcard) :=
  match l with
  | [] => Ok ([], vc)
  | a :: l' =>
      let* '(a', vc1) := move_name_parenth name_key a vc in
      let* '(l'', vc2) := move_names_loop name_key l' vc1 in
      Ok (a' :: l'', vc2)
  end.

(** [for attr_n in getattr(vcard, name_key + '_list'): ...] *)
Definition move_names_of (name_key : string) (vc : vcard) : result vcard :=
  match get_list vc name_key with
  | None => Err (AttributeError (name_key ++ "_list"))
  | Some l =>
      let* '(l', vc') := move_names_loop name_key l vc in
      Ok (set_list vc' name_key l')
  end.

(** The [while] loop over [vcard.email_list]: every value is stripped and
    lowered, a Thunderbird placeholder is deleted, a wrapped display name is
    removed from the others. *)
Fixpoint normalize_email_list (do_not_remove_name_in_email : bool) (l : list prop)
    : result (list prop) :=
  match l with
  | [] => Ok []
  | email :: l' =>
      match value email with
      | VStr s =>
          let v := lower (strip s) in
          if endswith v "@nowhere.invalid"
          then normalize_email_list do_not_remove_name_in_email l'
          else
            let v' := match name_in_email_match v with
                      | Some (_, em) => if negb do_not_remove_name_in_email then em else v
                      | None => v
                      end in
            let* l'' := normalize_email_list do_not_remove_name_in_email l' in
            Ok (mkProp (VStr v') (params email) :: l'')
      | _ => Err (AttributeError "strip")
      end
  end.

(** The [for tel in vcard.tel_list] loop. *)
Definition normalize_tel_value (s : string) : string :=
  let v := replace " " "" (strip s) in
  if OPTION_FRENCH_TWEAKS && startswith v "+33" then replace "+33" "0" v else v.

Fixpoint normalize_tel_list (l : list prop) : result (list prop) :=
  match l with
  | [] => Ok []
  | tel :: l' =>
      match value tel with
      | VStr s =>
          let* l'' := normalize_tel_list l' in
          Ok (mkProp (VStr (normalize_tel_value s)) (params tel) :: l'')
      | _ => Err (AttributeError "strip")
      end
  end.

(** [# remove vCard version] *)
Definition remove_version (vc : vcard) : result vcard :=
  let* has_version := hasattr vc "version" in
  Ok (if has_version then del_key vc "version" else vc).

(** [# overwrite names with the selected one] *)
Definition overwrite_names (do_not_overwrite_names : bool) (vc : vcard) : result vcard :=
  if negb do_not_overwrite_names then
    let* has_fn := hasattr vc "fn" in
    let vc := if has_fn then del_key vc "fn" else vc in
    let* has_n := hasattr vc "n" in
    Ok (if has_n then del_key vc "n" else vc)
  else Ok vc.

(** [# add missing required name fields 'fn' and 'n'] *)
Definition add_missing_names (selected_name : string) (vc : vcard) : result vcard :=
  let* has_fn := hasattr vc "fn" in
  let vc := if has_fn then vc else add vc "fn" (mkProp (VStr selected_name) []) in
  let* has_n := hasattr vc "n" in
  Ok (if has_n then vc
      else add vc "n" (mkProp (VName (build_formatted_name OPTION_FRENCH_TWEAKS selected_name)) [])).

(** [# move name's content inside parentheses (or braces) into the note attribute] *)
Definition move_names (mv_name_parenth_braces_to_note : bool) (vc : vcard) : result vcard :=
  if mv_name_parenth_braces_to_note then
    let* vc := move_names_of "fn" vc in move_names_of "n" vc
  else Ok vc.

(** [# normalize email] *)
Definition normalize_emails (do_not_remove_name_in_email : bool) (vc : vcard) : result vcard :=
  let* has_email := hasattr vc "email" in
  match has_email, get_list vc "email" with
  | true, Some ((_ :: _) as l) =>
      let* l' := normalize_email_list do_not_remove_name_in_email l in
      match l' with
      | [] => Ok (del_key vc "email")
      | _ => Ok (set_list vc "email" l')
      end
  | _, _ => Ok vc
  end.

(** [# normalize tel] *)
Definition normalize_tels (vc : vcard) : result vcard :=
  let* has_tel := hasattr vc "tel" in
  match has_tel, get_list vc "tel" with
  | true, Some ((_ :: _) as l) =>
      let* l' := normalize_tel_list l in
      Ok (set_list vc "tel" l')
  | _, _ => Ok vc
  end.

Definition normalize (vc : vcard) (selected_name : string)
    (do_not_overwrite_names mv_name_parenth_braces_to_note
     do_not_remove_name_in_email : bool) : result vcard :=
  let* vc := remove_version vc in
  let* vc := overwrite_names do_not_overwrite_names vc in
  let* vc := add_missing_names selected_name vc in
  let* vc := move_names mv_name_parenth_braces_to_note vc in
  let* vc := normalize_emails do_not_remove_name_in_email vc in
  normalize_tels vc.

End Normalize.

(** ** [merge] *)

(** [vcard.getChildren()]: every line, with the name of its list. *)
(** [Component.getChildren()]: every line, in order, with its name
    ([ContentLine.name] is the upper-cased name; [contents] is keyed by the
    lower-cased one). *)
Definition getChildren (v : vcard) : list (string * prop) :=
  flat_map (fun '(k, l) => map (fun p => (upper k, p)) l) v.

(** [getattr(vcard, name + '_list')]: [Component.__getattr__] strips the
    suffix, turns underscores into dashes and looks the name up in
    [contents] as it is; a missing key is an [AttributeError]. *)
Definition getattr_list (v : vcard) (nm : string) : result (list prop) :=
  match get_list v (replace "_" "-" nm) with
  | Some l => Ok l
  | None => Err (AttributeError (nm ++ "_list"))
  end.

(** [for vcard_to_merge in vcards_to_merge: for vcard_child in
    vcard_to_merge.getChildren(): for attr in getattr(vcard_to_merge,
    vcard_child.name + '_list'): ...]: every iteration adds a line with the
    value and the parameters of [attr]. *)
Definition merge (base : vcard) (vcards_to_merge : list vcard) : result vcard :=
  fold_result (fun acc vcard_to_merge =>
    fold_result (fun acc '(nm, _) =>
      let* attrs := getattr_list vcard_to_merge nm in
      Ok (fold_left (fun acc attr => add acc (lower nm) (mkProp (value attr) (params attr)))
            attrs acc))
      (getChildren vcard_to_merge) acc)
    vcards_to_merge base.

(** ** [fuzzywuzzy.fuzz.token_sort_ratio] over [difflib.SequenceMatcher]

    vcardlib silences fuzzywuzzy's warning that python-Levenshtein is missing,
    so the matcher is the pure-Python [difflib.SequenceMatcher] (no junk
    function, [autojunk=True]). *)

Module Fuzzy.

Fixpoint nth_char (s : list ascii) (i : nat) : ascii :=
  match s, i with
  | [], _ => "000"%char
  | c :: _, O => c
  | _ :: s', S i' => nth_char s' i'
  end.

Definition count_char (c : ascii) (b : list ascii) : nat :=
  length (List.filter (fun d => (c =? d)%char) b).

(** [b2j[c]]: the ascending positions of [c] in [b], none for a popular
    character ([len(b) >= 200] and more than [len(b) // 100 + 1]
    occurrences). *)
Definition b2j (b : list ascii) (c : ascii) : list nat :=
  let n := length b in
  if (200 <=? n)%nat && (n / 100 + 1 <? count_char c b)%nat then []
  else List.filter (fun j => (nth_char b j =? c)%char) (seq 0 n).

Fixpoint lookup_nat (l : list (nat * nat)) (j : nat) : nat :=
  match l with
  | [] => 0
  | (j', k) :: l' => if (j =? j')%nat then k else lookup_nat l' j
  end.

(** The inner [for j in b2j.get(a[i], nothing)] loop. *)
Fixpoint flm_inner (js : list nat) (i blo bhi : nat) (j2len newj2len : list (nat * nat))
    (best : nat * nat * nat) : list (nat * nat) * (nat * nat * nat) :=
  match js with
  | [] => (newj2len, best)
  | j :: js' =>
      if (j <? blo)%nat then flm_inner js' i blo bhi j2len newj2len best
      else if (bhi <=? j)%nat then (newj2len, best)
      else
        let k := (match j with O => 0 | S j' => lookup_nat j2len j' end) + 1 in
        let '(_, _, bestsize) := best in
        let best' := if (bestsize <? k)%nat then (i + 1 - k, j + 1 - k, k) else best in
        flm_inner js' i blo bhi j2len ((j, k) :: newj2len) best'
  end.

Fixpoint flm_outer (a b : list ascii) (is : list nat) (blo bhi : nat)
    (j2len : list (nat * nat)) (best : nat * nat * nat) : nat * nat * nat :=
  match is with
  | [] => best
  | i :: is' =>
      let '(newj2len, best') := flm_inner (b2j b (nth_char a i)) i blo bhi j2len [] best in
      flm_outer a b is' blo bhi newj2len best'
  end.

(** The two extension loops (the junk set is empty, so the two loops over
    junk elements do nothing). *)
Fixpoint extend_left (fuel : nat) (a b : list ascii) (alo blo : nat) (m : nat * nat * nat) :=
  match fuel with
  | O => m
  | S f =>
      let '(i, j, k) := m in
      if (alo <? i)%nat && (blo <? j)%nat && (nth_char a (i - 1) =? nth_char b (j - 1))%char
      then extend_left f a b alo blo (i - 1, j - 1, k + 1) else m
  end.

Fixpoint extend_right (fuel : nat) (a b : list ascii) (ahi bhi : nat) (m : nat * nat * nat) :=
  match fuel with
  | O => m
  | S f =>
      let '(i, j, k) := m in
      if (i + k <? ahi)%nat && (j + k <? bhi)%nat && (nth_char a (i + k) =? nth_char b (j + k))%char
      then extend_right f a b ahi bhi (i, j, k + 1) else m
  end.

Definition find_longest_match (a b : list ascii) (alo ahi blo bhi : nat) : nat * nat * nat :=
  let m := flm_outer a b (seq alo (ahi - alo)) blo bhi [] (alo, blo, 0) in
  let m := extend_left (length a) a b alo blo m in
  extend_right (length a) a b ahi bhi m.

(** [sum(triple[-1] for triple in get_matching_blocks())]: the blocks are
    found by the same divide and conquer; its queue order does not change
    the blocks. *)
Fixpoint matched (fuel : nat) (a b : list ascii) (alo ahi blo bhi : nat) : nat :=
  match fuel with
  | O => 0
  | S f =>
      let '(i, j, k) := find_longest_match a b alo ahi blo bhi in
      if (k =? 0)%nat then 0
      else k
        + (if (alo <? i)%nat && (blo <? j)%nat then matched f a b alo i blo j else 0)
        + (if (i + k <? ahi)%nat && (j + k <? bhi)%nat then matched f a b (i + k) ahi (j + k) bhi else 0)
  end.

(** [int(round(100 * m.ratio()))] with [m.ratio() = 2.0 * M / T]; the
    rounding (half to even) is computed on the exact rational. *)
Definition round_ratio (m t : nat) : nat :=
  if (t =? 0)%nat then 100 else
  let q := (200 * m) / t in
  let r := (200 * m) mod t in
  if (t <? 2 * r)%nat then q + 1
  else if (2 * r <? t)%nat then q
  else if Nat.even q then q else q + 1.

(** [fuzz.ratio] with its [check_for_equivalence] and [check_empty_string]
    decorators. *)
Definition ratio (s1 s2 : string) : nat :=
  if String.eqb s1 s2 then 100
  else if String.eqb s1 "" || String.eqb s2 "" then 0
  else
    let a := list_ascii_of_string s1 in
    let b := list_ascii_of_string s2 in
    round_ratio (matched (S (length a)) a b 0 (length a) 0 (length b)) (length a + length b).

(** [utils.full_process]: non-word characters to spaces, lower case, strip. *)
Definition full_process (s : string) : string :=
  strip (lower (map_chars (fun c => if is_word c then c else " "%char) s)).

Fixpoint insert_sorted (x : string) (l : list string) : list string :=
  match l with
  | [] => [x]
  | y :: l' => match String.compare x y with
               | Gt => y :: insert_sorted x l'
               | _ => x :: l
               end
  end.

Definition sorted_strings (l : list string) : list string := fold_right insert_sorted [] l.

Definition process_and_sort (s : string) : string :=
  strip (join " " (sorted_strings (split_ws (full_process s)))).

Definition token_sort_ratio (s1 s2 : string) : nat :=
  ratio (process_and_sort s1) (process_and_sort s2).

End Fuzzy.

(** ** [sanitize_name] *)

(** The tail of [REGEX_ICE] after [ICE]: digits ([0-9]*, greedy; a digit
    is a word character, so no backtracking can help) then a word boundary. *)
Fixpoint ice_after_digits (t : string) : option string :=
  match t with
  | EmptyString => Some EmptyString
  | String d t' =>
      if is_digit d then ice_after_digits t'
      else if is_word d then None else Some t
  end.

(** [REGEX_ICE] (a word boundary, [ICE] in any case, digits, a word
    boundary) matched at the start of [s], assuming a word boundary before:
    the text after the match. *)
Definition ice_match (s : string) : option string :=
  match s with
  | String i (String c (String e rest)) =>
      if (to_upper i =? "I")%char && (to_upper c =? "C")%char && (to_upper e =? "E")%char
      then ice_after_digits rest
      else None
  | _ => None
  end.

(** [REGEX_ICE.sub('', s)]: [prev_word] tells whether the character before
    the current position is a word character. *)
Fixpoint ice_sub_go (fuel : nat) (prev_word : bool) (s : string) : string :=
  match fuel with
  | O => s
  | S f =>
      match s with
      | EmptyString => EmptyString
      | String c s' =>
          match (if prev_word then None else ice_match s) with
          | Some rest => ice_sub_go f true rest
          | None => String c (ice_sub_go f (is_word c) s')
          end
      end
  end.
Definition ice_sub (s : string) : string := ice_sub_go (String.length s) false s.

Definition sanitize_name (name0 : string) : string :=
  let sanitized :=
    title (strip (replace "  " " " (replace "  " " " (replace "." " " (ice_sub name0))))) in
  match paren_search name0 with
  | Some g =>
      let inner := title (remove_brackets (strip g)) in
      let outer := title (strip (paren_sub name0)) in
      if String.eqb inner outer || (Fuzzy.token_sort_ratio inner outer =? 100)%nat
      then outer else sanitized
  | None => sanitized
  end.

(** ** [set_name] *)

Module SetName.

(** An entry of the aggregated [attributes] dict: the list of the lines
    collected for a property, or (once [set_name] ran) the selected [fn]
    string and the [n] structured name. *)
Inductive attr_entry : Type :=
  | Lines (l : list prop)
  | FnValue (s : string)
  | NValue (n : name).

Definition attributes := list (string * attr_entry).

Fixpoint alookup (attrs : attributes) (k : string) : option attr_entry :=
  match attrs with
  | [] => None
  | (k', e) :: attrs' => if String.eqb k k' then Some e else alookup attrs' k
  end.

(** [del attributes[k]]: a [KeyError] when [k] is absent. *)
Fixpoint adel (attrs : attributes) (k : string) : result attributes :=
  match attrs with
  | [] => Err (KeyError k)
  | (k', e) :: attrs' =>
      if String.eqb k k' then Ok attrs'
      else let* rest := adel attrs' k in Ok ((k', e) :: rest)
  end.

(** [attributes[k] = e] *)
Fixpoint aset (attrs : attributes) (k : string) (e : attr_entry) : attributes :=
  match attrs with
  | [] => [(k, e)]
  | (k', e') :: attrs' => if String.eqb k k' then (k', e) :: attrs' else (k', e') :: aset attrs' k e
  end.

(** [if not name in available_names: available_names.append(name)] *)
Definition add_name (available_names : list string) (nm : string) : list string :=
  if existsb (String.eqb nm) available_names then available_names else (available_names ++ [nm])%list.

(** The loops over the lines of [attributes[k]] ([k] absent: no loop). *)
Fixpoint collect_loop (f : prop -> result (option string)) (l : list prop)
    (available_names : list string) : result (list string) :=
  match l with
  | [] => Ok available_names
  | p :: l' =>
      let* o := f p in
      collect_loop f l' (match o with Some nm => add_name available_names nm | None => available_names end)
  end.

Definition collect_from (attrs : attributes) (k : string) (f : prop -> result (option string))
    (available_names : list string) : result (list string) :=
  match alookup attrs k with
  | None => Ok available_names
  | Some (Lines l) => collect_loop f l available_names
  | Some _ => Err (AttributeError "value")
  end.

(** [sanitize_name(attr_fn.value)] *)
Definition name_of_fn (p : prop) : result (option string) :=
  match value p with
  | VStr s => Ok (Some (sanitize_name s))
  | _ => Err (TypeError "parameter 'name' must be a string")
  end.

(** [sanitize_name(str(attr_n.value))] *)
Definition name_of_n (p : prop) : result (option string) :=
  Ok (Some (sanitize_name (py_str (value p)))).

(** [REGEX_NAME_IN_EMAIL.match(attr_m.value.strip())], then
    [sanitize_name] of the display name. *)
Definition name_of_email (p : prop) : result (option string) :=
  match value p with
  | VStr s =>
      match name_in_email_match (strip s) with
      | Some (nm, _) => Ok (Some (sanitize_name nm))
      | None => Ok None
      end
  | _ => Err (AttributeError "strip")
  end.

Definition set_name (OPTION_FRENCH_TWEAKS : bool) (attrs : attributes) : result attributes :=
  let* available_names := collect_from attrs "fn" name_of_fn [] in
  let* available_names := collect_from attrs "n" name_of_n available_names in
  let* available_names := collect_from attrs "email" name_of_email available_names in
  let* selected_name := select_most_relevant_name available_names in
  let* attrs := adel attrs "fn" in
  let* attrs := adel attrs "n" in
  let attrs := aset attrs "fn" (FnValue selected_name) in
  Ok (aset attrs "n" (NValue (build_formatted_name OPTION_FRENCH_TWEAKS selected_name))).

End SetName.

(** ** [fix_and_convert_to_v3] *)

Module Fixer.

(** Universal newlines ([open(..., 'rU')]): [\r\n] and [\r] read as [\n]. *)
Fixpoint translate_newlines (s : string) : string :=
  match s with
  | String "013" (String "010" t) => String "010" (translate_newlines t)
  | String "013" t => String "010" (translate_newlines t)
  | String c t => String c (translate_newlines t)
  | EmptyString => EmptyString
  end.

(** [for line in vfile]: the lines of the text, each without its newline;
    no line follows a final newline. *)
Definition read_lines (s : string) : list string :=
  match rev (split_char "010" (translate_newlines s)) with
  | EmptyString :: ls => rev ls
  | ls => rev ls
  end.

(** [re.sub('([^\\\\]|^),', '\\1\\,', s)]: a comma preceded by a character
    other than a backslash (the character is part of the match), or a comma
    at the very start, is preceded by a backslash; matching resumes after the
    comma. *)
Fixpoint escape_commas_go (at_start : bool) (s : string) : string :=
  match s with
  | EmptyString => EmptyString
  | String c s' =>
      match s' with
      | String "," s'' =>
          if negb (c =? "\")%char
          then String c (String "\" (String "," (escape_commas_go false s'')))
          else if at_start && (c =? ",")%char
          then String "\" (String "," (escape_commas_go false s'))
          else String c (escape_commas_go false s')
      | _ =>
          if at_start && (c =? ",")%char
          then String "\" (String "," (escape_commas_go false s'))
          else String c (escape_commas_go false s')
      end
  end.
Definition escape_commas (s : string) : string := escape_commas_go true s.

(** [re.match(r'^([^: ]+):.*', s)] *)
Fixpoint is_key_value_go (first : bool) (s : string) : bool :=
  match s with
  | EmptyString => false
  | String c s' =>
      if (c =? ":")%char then negb first
      else if (c =? " ")%char then false
      else is_key_value_go false s'
  end.
Definition is_key_value (s : string) : bool := is_key_value_go true s.

(** [re.match(r'^(BEGIN|END):VCARD$', s, re.IGNORECASE)] *)
Definition is_begin_end (s : string) : bool :=
  String.eqb (upper s) "BEGIN:VCARD" || String.eqb (upper s) "END:VCARD".

(** [s.rsplit(':')[0]] and [re.sub(r'^([^:]+):', '', s)]. *)
Definition before_colon (s : string) : string :=
  match break_at ":" s with Some (b, _) => b | None => s end.
Definition after_colon (s : string) : string :=
  match break_at ":" s with Some (String _ _, a) => a | _ => s end.

Definition type_tokens : list string :=
  ["PGP"; "PNG"; "JPEG"; "GIF"; "OGG"; "INTERNET"; "PREF"; "HOME"; "WORK";
   "MAIN"; "CELL"; "FAX"; "VOICE"].

(** [re.sub(r';(PGP|PNG|...|VOICE)', ';TYPE=\\1', s)] *)
Fixpoint prefix_types_go (fuel : nat) (s : string) : string :=
  match fuel with
  | O => s
  | S f =>
      match s with
      | EmptyString => EmptyString
      | String ";" s' =>
          match List.find (startswith s') type_tokens with
          | Some tok => ";TYPE=" ++ tok ++ prefix_types_go f (substring (String.length tok) (String.length s') s')
          | None => String ";" (prefix_types_go f s')
          end
      | String c s' => String c (prefix_types_go f s')
      end
  end.
Definition prefix_types (s : string) : string := prefix_types_go (String.length s) s.

(** [re.sub(r'^([^;]+);.*', '\\1', s)] and [re.sub(r'^([^;]+);', '', s)]. *)
Definition before_semicolon (s : string) : string :=
  match break_at ";" s with Some ((String _ _) as b, _) => b | _ => s end.
Definition after_semicolon (s : string) : string :=
  match break_at ";" s with Some (String _ _, a) => a | _ => s end.

Definition in_list (x : string) (l : list string) : bool :=
  existsb (String.eqb x) l.

(** The [for field in ...] loop: the [TYPE=] values and the other fields. *)
Fixpoint split_fields (fields : list string) : list string * list string :=
  match fields with
  | [] => ([], [])
  | field :: fs =>
      let '(type_list, rest_list) := split_fields fs in
      if startswith field "TYPE="
      then (substring 5 (String.length field) field :: type_list, rest_list)
      else
        let field' :=
          if String.eqb field "ENCODING=BASE64" || String.eqb field "ENCODING=B" then "ENCODING=b"
          else if String.eqb field "QUOTED-PRINTABLE" then "ENCODING=QUOTED-PRINTABLE"
          else field in
        (type_list, field' :: rest_list)
  end.

Section Options.
Variable OPTION_DOT_NOT_FORCE_ESCAPE_COMAS : bool.

(** A [key:value] line rewritten; the flag tells whether it starts a
    quoted-printable value. *)
Definition fix_key_value (new_line : string) : string * bool :=
  let key_part := upper (before_colon new_line) in
  let rest_part := after_colon new_line in
  let rest_part := if OPTION_DOT_NOT_FORCE_ESCAPE_COMAS then rest_part else escape_commas rest_part in
  let new_line := key_part ++ ":" ++ rest_part in
  if has_char ";" key_part then
    let key_part :=
      if contains key_part "QUOTED-PRINTABLE;QUOTED-PRINTABLE"
      then replace "QUOTED-PRINTABLE;QUOTED-PRINTABLE" "QUOTED-PRINTABLE" key_part
      else key_part in
    let new_key_part := prefix_types key_part in
    let new_line :=
      if contains new_key_part "TYPE=" then
        let key_value := before_semicolon key_part in
        let '(type_list, rest_list) := split_fields (split_char ";" (after_semicolon new_key_part)) in
        let rest_list :=
          if (in_list "JPEG" type_list || in_list "PNG" type_list || in_list "GIF" type_list)
             && negb (in_list "ENCODING=b" rest_list) && negb (in_list "VALUE=URI" rest_list)
          then (rest_list ++ ["VALUE=URI"])%list else rest_list in
        let rest_list :=
          if in_list "ENCODING=QUOTED-PRINTABLE" rest_list
             && negb (contains (join "," rest_list) "CHARSET=")
          then (rest_list ++ ["CHARSET=UTF-8"])%list else rest_list in
        key_value ++ ";TYPE=" ++ join "," type_list
          ++ (match rest_list with [] => "" | _ => ";" ++ join ";" rest_list end)
          ++ ":" ++ rest_part
      else
        let new_key_part :=
          if contains new_key_part "QUOTED-PRINTABLE" then
            let nk := replace ";QUOTED-PRINTABLE" ";ENCODING=QUOTED-PRINTABLE" new_key_part in
            if negb (contains nk "CHARSET=")
            then replace "=QUOTED-PRINTABLE" "=QUOTED-PRINTABLE;CHARSET=UTF-8" nk
            else nk
          else new_key_part in
        new_key_part ++ ":" ++ rest_part in
    (new_line, contains new_line "ENCODING=QUOTED-PRINTABLE")
  else (new_line, false).

(** The loop state: the saved lines, [last_line] and
    [started_quoted_printable]. *)
Record fix_state := mkFixState {
  saved : list string; last_line : option string; started_qp : bool }.

Definition fix_step (st : fix_state) (line0 : string) : fix_state :=
  let line_unix := replace (String "013" (String "010" EmptyString)) (String "010" EmptyString) line0 in
  let line_unix := replace (String "013" EmptyString) (String "010" EmptyString) line_unix in
  let line := replace (String "010" EmptyString) "" line_unix in
  let continuation :=
    match last_line st with
    | Some ll =>
        if started_qp st && negb (is_key_value line) then
          let ll1 := replace (String "010" EmptyString) "" ll in
          let ll := if endswith ll1 "=" then substring 0 (String.length ll1 - 1) ll1 ++ String "010" EmptyString
                    else ll in
          let line := if OPTION_DOT_NOT_FORCE_ESCAPE_COMAS then line else escape_commas line in
          Some (mkFixState (saved st) (Some (replace (String "010" EmptyString) "" ll ++ strip line ++ String "010" EmptyString)) true)
        else None
    | None => None
    end in
  match continuation with
  | Some st' => st'
  | None =>
      let saved' := match last_line st with Some ll => (saved st ++ [ll])%list | None => saved st end in
      let started := match last_line st with Some _ => false | None => started_qp st end in
      let '(new_line, qp) :=
        if is_begin_end line then (upper line, false)
        else if is_key_value line then fix_key_value line
        else (line, false) in
      mkFixState saved' (Some (new_line ++ String "010" EmptyString)) (started || qp)
  end.

Definition fix_and_convert_to_v3 (content : string) : string :=
  let st := fold_left fix_step (read_lines content) (mkFixState [] None false) in
  let lines := match last_line st with Some ll => (saved st ++ [ll])%list | None => saved st end in
  String.concat "" lines.

End Options.
End Fixer.

(** ** The grouper: [group_keys] and [get_vcards_groups] *)

Module Grouper.

(** The Python values a group argument or a [vcard_group] entry can hold:
    [None], a group key, or (from [mappings['groups'][key]]) a member list. *)
Inductive pyv : Type :=
  | PyNone
  | PyStr (s : string)
  | PyList (l : list string).

Definition truthy (v : pyv) : bool :=
  match v with
  | PyNone => false
  | PyStr s => negb (String.eqb s "")
  | PyList l => negb (Nat.eqb (length l) 0)
  end.

#[global] Instance pyv_eq_dec : EqDecision pyv.
Proof. solve_decision. Defined.

(** [mappings]: [groups] (group key to members), [vcard_group] (record key
    to its group) and [attributes] (attribute key to value to the record keys
    having it; both levels in insertion order). *)
Record mappings := mkMappings {
  groups : gmap string (list string);
  vcard_group : gmap string pyv;
  attributes : list (string * list (string * list string)) }.

Definition empty_mappings : mappings := mkMappings ∅ ∅ [].

Fixpoint alookup {A} (k : string) (l : list (string * A)) : option A :=
  match l with
  | [] => None
  | (k', v) :: l' => if String.eqb k k' then Some v else alookup k l'
  end.

(** [d[k] = v] on an insertion-ordered dict. *)
Fixpoint aset {A} (k : string) (v : A) (l : list (string * A)) : list (string * A) :=
  match l with
  | [] => [(k, v)]
  | (k', v') :: l' => if String.eqb k k' then (k, v) :: l' else (k', v') :: aset k v l'
  end.

(** [del d[k]] on an insertion-ordered dict. *)
Fixpoint adelete {A} (k : string) (l : list (string * A)) : list (string * A) :=
  match l with
  | [] => []
  | (k', v') :: l' => if String.eqb k k' then l' else (k', v') :: adelete k l'
  end.

Definition set_groups (m : mappings) (gs : gmap string (list string)) : mappings :=
  mkMappings gs (vcard_group m) (attributes m).
Definition set_vcard_group (m : mappings) (k : string) (v : pyv) : mappings :=
  mkMappings (groups m) (<[k := v]> (vcard_group m)) (attributes m).
Definition set_attributes (m : mappings) a : mappings :=
  mkMappings (groups m) (vcard_group m) a.

(** [mappings['vcard_group'].get(k)] *)
Definition current_group (m : mappings) (k : string) : pyv :=
  default PyNone (vcard_group m !! k).

Section GroupKeys.
(** The name selection ([select_most_relevant_name]) and the global
    [OPTION_UPDATE_GROUP_KEY]. *)
Variable select : list string -> result string.
Variable OPTION_UPDATE_GROUP_KEY : bool.

(** [for k in members: mappings['vcard_group'][k] = g] *)
Definition assign_group (m : mappings) (members : list string) (g : string) : mappings :=
  fold_left (fun m k => set_vcard_group m k (PyStr g)) members m.

(** The type checks on [group1] and [group2]: neither a string nor falsy is
    a [TypeError]. *)
Definition group_arg_ok (g : pyv) : bool :=
  match g with PyList (_ :: _) => false | _ => true end.

Definition group_keys (m : mappings) (key1 key2 : string) (group1 group2 : pyv)
    : result (mappings * pyv) :=
  if negb (group_arg_ok group1) then Err (TypeError "parameter 'group1' must be a string or None") else
  if negb (group_arg_ok group2) then Err (TypeError "parameter 'group2' must be a string or None") else
  let* '(m, selected_group) :=
    if negb (String.eqb key1 key2)
       && (bool_decide (group1 <> group2) || (negb (truthy group1) && negb (truthy group2)))
    then
      if negb (truthy group1) && negb (truthy group2) then
        (* create a group *)
        let* new_group_key := select [key1; key2] in
        if bool_decide (new_group_key ∈ dom (groups m))
        then Err (RuntimeError ("Failed to group keys: a group already exists with name '"
                                  ++ new_group_key ++ "'"))
        else Ok (set_groups m (<[new_group_key := [key1; key2]]> (groups m)), PyStr new_group_key)
      else if (truthy group1 && negb (truthy group2)) || (negb (truthy group1) && truthy group2) then
        (* one vcard joins the other one's group *)
        let exiting := if truthy group1 then group1 else group2 in
        let vcard_to_add := if truthy group1 then key2 else key1 in
        match exiting with
        | PyStr exiting_group =>
            match groups m !! exiting_group with
            | None => Err (KeyError exiting_group)
            | Some members =>
                let m := set_groups m (<[exiting_group := (members ++ [vcard_to_add])%list]> (groups m)) in
                let* new_group_key := select [exiting_group; vcard_to_add] in
                if negb (String.eqb new_group_key exiting_group) && OPTION_UPDATE_GROUP_KEY then
                  let members' := (members ++ [vcard_to_add])%list in
                  let m := set_groups m (delete exiting_group (<[new_group_key := members']> (groups m))) in
                  Ok (assign_group m members' new_group_key, PyStr new_group_key)
                else Ok (m, PyStr exiting_group)
            end
        | _ => Err (TypeError "unhashable type")
        end
      else
        (* merge the two groups *)
        match group1, group2 with
        | PyStr g1, PyStr g2 =>
            let* dest_group_key := select [g1; g2] in
            let other_group_key := if negb (String.eqb dest_group_key g1) then g1 else g2 in
            match groups m !! other_group_key with
            | None => Err (KeyError other_group_key)
            | Some others =>
                match groups m !! dest_group_key with
                | None => Err (KeyError dest_group_key)
                | Some dests =>
                    let m := assign_group m others dest_group_key in
                    let m := set_groups m (delete other_group_key
                               (<[dest_group_key := (dests ++ others)%list]> (groups m))) in
                    Ok (m, PyStr dest_group_key)
                end
            end
        | _, _ => Err (TypeError "unhashable type")
        end
    else Ok (m, group1) in
  let m := set_vcard_group m key1 selected_group in
  let m := set_vcard_group m key2 selected_group in
  Ok (m, selected_group).

End GroupKeys.

Section GetVcardsGroups.
Variable select : list string -> result string.
Variable OPTION_UPDATE_GROUP_KEY : bool.
(** The records, their [fn] (read by the debug line, an [AttributeError]
    when absent), [collect_values] (returns the set of values, in any order)
    and [match_approx]. *)
Variable V : Type.
Variable vcard_fn : V -> result string.
Variable collect_values : V -> string -> result (list string).
Variable match_approx : string -> string -> bool.
Variable OPTION_MATCH_ATTRIBUTES : list string.
Variable OPTION_NO_MATCH_APPROX : bool.

(** [attr.rsplit('_')[0] if '_' in attr else ('tel' if attr == 'mobiles' else attr)] *)
Definition a_key_of (attr : string) : string :=
  if has_char "_"%char attr then default "" (head (split_char "_"%char attr))
  else if String.eqb attr "mobiles" then "tel" else attr.

Definition attr_index (m : mappings) (a_key : string) : list (string * list string) :=
  default [] (alookup a_key (attributes m)).

(** The body of the loop over [a_values]. *)
Definition map_value (key a_key : string) (mv : mappings * pyv) (a_value : string)
    : result (mappings * pyv) :=
  let '(m, vcard_group) := mv in
  let idx := attr_index m a_key in
  match alookup a_value idx with
  | None => Ok (set_attributes m (aset a_key (aset a_value [key] idx) (attributes m)), vcard_group)
  | Some keys =>
      if Fixer.in_list key keys then Ok (m, vcard_group) else
      match keys with
      | [] => Err (RuntimeError ("Failed to map attribute '" ++ a_key ++ "' with value '" ++ a_value
                                 ++ "' for key '" ++ key ++ "' : empty mapped vcard list"))
      | matched_vcard_key :: _ =>
          let m := set_attributes m (aset a_key (aset a_value (keys ++ [key])%list idx) (attributes m)) in
          if String.eqb matched_vcard_key "" then
            Err (RuntimeError ("Failed to map attribute '" ++ a_key ++ "' with value '" ++ a_value
                               ++ "' for key '" ++ key ++ "' : no mapped vcard but value exists"))
          else group_keys select OPTION_UPDATE_GROUP_KEY m key matched_vcard_key vcard_group
                 (current_group m matched_vcard_key)
      end
  end.

(** The body of the loop over [OPTION_MATCH_ATTRIBUTES]. *)
Definition map_attribute (key : string) (vcard : V) (mv : mappings * pyv) (attr : string)
    : result (mappings * pyv) :=
  let '(m, vcard_group) := mv in
  let a_key := a_key_of attr in
  let* a_values := collect_values vcard attr in
  match a_values with
  | [] => Ok (m, vcard_group)
  | _ =>
      let m := match alookup a_key (attributes m) with
               | Some _ => m
               | None => set_attributes m (aset a_key [] (attributes m))
               end in
      fold_result (map_value key a_key) a_values (m, vcard_group)
  end.

(** The body of the loop over [vcards.items()]. *)
Definition map_vcard (m : mappings) (kv : string * V) : result mappings :=
  let '(key, vcard) := kv in
  let* _ := vcard_fn vcard in
  let vcard_group := match groups m !! key with Some l => PyList l | None => PyNone end in
  let* '(m, _) := fold_result (map_attribute key vcard) OPTION_MATCH_ATTRIBUTES (m, vcard_group) in
  Ok m.

Definition phase1 (vcards : list (string * V)) : result mappings :=
  fold_result map_vcard vcards empty_mappings.

(** One comparison of the fuzzy search: [name1] (with [keys1]) against
    [name2] (with [keys2]). *)
Definition compare_names (name1 : string) (keys1 : list string) (m : mappings)
    (nk2 : string * list string) : result mappings :=
  let '(name2, keys2) := nk2 in
  if match_approx name1 name2 then
    match keys1 with
    | [] => Err (IndexError "list index out of range")
    | key1 :: _ =>
        let* key2 := if Fixer.in_list key1 keys2 then Ok key1 else
                     match keys2 with
                     | [] => Err (IndexError "list index out of range")
                     | k :: _ => Ok k
                     end in
        let* '(m, _) := group_keys select OPTION_UPDATE_GROUP_KEY m key1 key2
                          (current_group m key1) (current_group m key2) in
        Ok m
    end
  else Ok m.

(** [for name1, keys1 in names.items(): del to_compare[name1];
    for name2, keys2 in to_compare.items(): ...]: each name against the
    names after it. *)
Fixpoint compare_all (names : list (string * list string)) (m : mappings) : result mappings :=
  match names with
  | [] => Ok m
  | (name1, keys1) :: rest =>
      let* m := fold_result (compare_names name1 keys1) rest m in
      compare_all rest m
  end.

Definition phase2 (m : mappings) : result mappings :=
  if negb OPTION_NO_MATCH_APPROX && Fixer.in_list "names" OPTION_MATCH_ATTRIBUTES then
    match alookup "names" (attributes m) with
    | None => Err (KeyError "names")
    | Some names => compare_all names m
    end
  else Ok m.

(** The mappings once both phases are done. *)
Definition grouper_run (vcards : list (string * V)) : result mappings :=
  let* m := phase1 vcards in phase2 m.

Definition get_vcards_groups (vcards : list (string * V))
    : result (gmap string (list string) * list string) :=
  let* m := grouper_run vcards in
  Ok (groups m, filter (fun k => negb (bool_decide (k ∈ dom (vcard_group m)))) (map fst vcards)).

End GetVcardsGroups.
End Grouper.

(** ** A concrete instance of the grouper

    [select_first] picks the first non-empty candidate.  A record is an
    association list from attribute names to their values, and [match_exact]
    compares two names exactly. *)

Module GrouperExample.
Import Grouper.

Fixpoint select_first (names : list string) : result string :=
  match names with
  | [] => Err (ValueError "no name")
  | n :: names' => if String.eqb n "" then select_first names' else Ok n
  end.

Definition record : Type := list (string * list string).
Definition record_fn (r : record) : result string := Ok (String.concat " " (default [] (alookup "fn" r))).
Definition record_values (r : record) (attr : string) : result (list string) :=
  Ok (default [] (alookup attr r)).
Definition match_exact (a b : string) : bool := String.eqb a b.

Definition run (no_approx : bool) (vcards : list (string * record)) : result mappings :=
  grouper_run select_first true record record_fn record_values match_exact
    ["email"; "tel"; "mobiles"; "names"] no_approx vcards.

Definition sample : list (string * record) :=
  [("alice", [("email", ["a@x.org"]); ("names", ["Alice"])]);
   ("al", [("email", ["a@x.org"]); ("tel", ["0612"])]);
   ("bob", [("names", ["Bob"]); ("mobiles", ["0612"])]);
   ("carol", [("names", ["Carol"])]);
   ("alice2", [("names", ["Alice"])])].

End GrouperExample.

(** ** Auxiliary definitions for the proofs *)

(** The first and the last character of a string. *)
Definition first_opt (s : string) : option ascii :=
  match s with EmptyString => None | String c _ => Some c end.

Fixpoint last_opt (s : string) : option ascii :=
  match s with
  | EmptyString => None
  | String c EmptyString => Some c
  | String _ s' => last_opt s'
  end.

(** Neither end of [s] is a whitespace character. *)
Definition ends_ok (s : string) : Prop :=
  forall c, first_opt s = Some c \/ last_opt s = Some c -> is_space c = false.

(** [s] with every [c] removed. *)
Fixpoint remove_char (c : ascii) (s : string) : string :=
  match s with
  | EmptyString => EmptyString
  | String d s' => if (c =? d)%char then remove_char c s' else String d (remove_char c s')
  end.

(** [s.replace('  ', ' ')] without fuel: each pair of spaces, read left to
    right, becomes one space. *)
Fixpoint halve (s : string) : string :=
  match s with
  | EmptyString => EmptyString
  | String c s' =>
      if (c =? " ")%char then
        match s' with
        | String d s'' => if (d =? " ")%char then String " " (halve s'') else String c (halve s')
        | EmptyString => String c EmptyString
        end
      else String c (halve s')
  end.

(** [REGEX_ICE.search(s)] finds nothing: at no position after a non-word
    character (or the start when [prev_word] is false) does [ice_match]
    match. *)
Fixpoint no_ice (prev_word : bool) (s : string) : bool :=
  match s with
  | EmptyString => true
  | String c s' =>
      (prev_word || match ice_match s with None => true | Some _ => false end)
      && no_ice (is_word c) s'
  end.

(** [n] spaces. *)
Fixpoint spaces (n : nat) : string :=
  match n with O => EmptyString | S n' => String " " (spaces n') end.

(** [c] with a dot replaced by a space. *)
Definition dot_to_space (c : ascii) : ascii := if (c =? ".")%char then " "%char else c.

(** [o is None]. *)
Definition none_b {A} (o : option A) : bool := match o with None => true | Some _ => false end.

(** The [sanitized] value of [sanitize_name], with [replace('  ', ' ')]
    as [halve] and [replace('.', ' ')] as a map over the characters. *)
Definition sanitize_core (s : string) : string :=
  title (strip (halve (halve (map_chars dot_to_space (ice_sub s))))).

(** The group of record key [k] in [mappings['vcard_group']], when it is
    a group key. *)
Definition group_of (m : Grouper.mappings) (k : string) : option string :=
  match Grouper.vcard_group m !! k with
  | Some (Grouper.PyStr g) => Some g
  | _ => None
  end.

(** Two record keys are in the same group (or equal). *)
Definition same_group (m : Grouper.mappings) (a b : string) : Prop :=
  a = b \/ exists g, group_of m a = Some g /\ group_of m b = Some g.

(** The invariant of the grouper's mappings, [P] being the record keys
    met so far. *)
Record grouper_inv (P : list string) (m : Grouper.mappings) : Prop := {
  gi_members : forall k g, group_of m k = Some g <->
                 exists ms, Grouper.groups m !! g = Some ms /\ k ∈ ms;
  gi_self : forall g ms, Grouper.groups m !! g = Some ms -> g ∈ ms;
  gi_nonempty : forall g ms, Grouper.groups m !! g = Some ms -> g <> "";
  gi_vals : forall k v, Grouper.vcard_group m !! k = Some v ->
              v = Grouper.PyNone \/ exists g, v = Grouper.PyStr g;
  gi_dom : forall k v, Grouper.vcard_group m !! k = Some v -> k ∈ P;
  gi_attrs : forall a vals v ks k, (a, vals) ∈ Grouper.attributes m ->
               (v, ks) ∈ vals -> k ∈ ks -> k ∈ P }.

(** [mappings['attributes'][a][v]] lists the record key [k]. *)
Definition index_has (m : Grouper.mappings) (k a v : string) : Prop :=
  exists vals ks, Grouper.alookup a (Grouper.attributes m) = Some vals /\
                  Grouper.alookup v vals = Some ks /\ k ∈ ks.

(** Two record keys listed under the same attribute value. *)
Definition share_index (m : Grouper.mappings) (x y : string) : Prop :=
  exists a v, index_has m x a v /\ index_has m y a v.

(** The record [vc] has the value [v] for one of the matched attributes
    whose attribute key is [a]. *)
Definition record_has {V : Type} (collect_values : V -> string -> result (list string))
    (attrs : list string) (vc : V) (a v : string) : Prop :=
  exists attr vs, attr ∈ attrs /\ Grouper.a_key_of attr = a /\
                  collect_values vc attr = Ok vs /\ v ∈ vs.

(** Two record keys whose records share a value for matched attributes with
    the same attribute key. *)
Definition share_records {V : Type} (collect_values : V -> string -> result (list string))
    (attrs : list string) (vcards : list (string * V)) (x y : string) : Prop :=
  exists a v vx vy, (x, vx) ∈ vcards /\ (y, vy) ∈ vcards /\
    record_has collect_values attrs vx a v /\ record_has collect_values attrs vy a v.

(** ** [vcardtools.sanitise_name] and [vcardtools.mk_vcard_fnm] *)

Module Tools.

Definition NEW_REPLACEMENT_CHAR : string := "_".

(** The characters [. \ /], the double quote, and [' ! @ # ? $ % ^ & * | ( ) [ ] { } ; : < >]. *)
Definition FROM_CHARACTERS : string :=
  ".\/" ++ String "034" "'!@#?$%^&*|()[]{};:<>".

(** [for old_char in FROM_CHARACTERS:
       a_name = a_name.replace(old_char, NEW_REPLACEMENT_CHAR)] *)
Definition sanitise_name (a_name : string) : string :=
  fold_left (fun a_name old_char => replace (String old_char EmptyString) NEW_REPLACEMENT_CHAR a_name)
    (list_ascii_of_string FROM_CHARACTERS) a_name.

Definition mk_vcard_fnm (a_name ext : string) : string := sanitise_name a_name ++ ext.

End Tools.

(** ** [build_name_from_email] *)

(** [REGEX_ANY_NUMBER.sub('', s)] *)
Fixpoint remove_digits (s : string) : string :=
  match s with
  | EmptyString => EmptyString
  | String c s' => if is_digit c then remove_digits s' else String c (remove_digits s')
  end.

(** [REGEX_ANY_DASH_OR_UNDERSCORE.sub(' ', s)], character by character. *)
Definition dash_to_space (c : ascii) : ascii :=
  if (c =? "_")%char || (c =? "-")%char then " "%char else c.

Definition EMAIL_USERS_ADD_DOMAIN : list string :=
  ["contact"; "info"; "admin"; "hello"; "job"; "question"; "support"; "service";
   "sales"; "deal"; "unsubscribe"; "return";
   "credit"; "recrute"; "desinscription"; "sav"; "servicecommercial"; "relationclient"].

(** The text before and after the last dot of [s]. *)
Fixpoint rsplit_dot (s : string) : option (string * string) :=
  match s with
  | EmptyString => None
  | String c s' =>
      match rsplit_dot s' with
      | Some (p, e) => Some (String c p, e)
      | None => if (c =? ".")%char then Some (EmptyString, s') else None
      end
  end.

(** [s] split before a final newline (the position [$] also matches). *)
Definition split_final_newline (s : string) : string * string :=
  match last_opt s with
  | Some "010"%char => (substring 0 (String.length s - 1) s, String "010" EmptyString)
  | _ => (s, EmptyString)
  end.

(** [[a-zA-Z]+] on the whole of [s]. *)
Definition is_letters (s : string) : bool :=
  negb (String.eqb s "") && forallb is_alpha (list_ascii_of_string s).

(** [REGEX_WITHOUT_EXTENSION.sub('\\1', s)] with
    [REGEX_WITHOUT_EXTENSION = '(.+)\.[a-zA-Z]+$'].  The letters reach the
    end of [s] (or a final newline), so the dot is the last one of [s]; the
    search starts after the last newline before it ([.] does not match a
    newline) and [(.+)] needs one character there.  The match, when there is
    one, is replaced by group 1: the extension and its dot are removed.  No
    second match can follow it. *)
Definition without_extension (s : string) : string :=
  let '(body, nl) := split_final_newline s in
  match rsplit_dot body with
  | Some (p, e) =>
      if negb (String.eqb p "")
         && negb (match last_opt p with Some "010"%char => true | _ => false end)
         && is_letters e
      then p ++ nl else s
  | None => s
  end.

Definition build_name_from_email (email : string) : result string :=
  if endswith (strip (lower email)) "nowhere.invalid"
  then Err (ValueError ("Trying to extract a name from a Thunderbird invalid email ("
                        ++ email ++ ")"))
  else
    (* [email_user, email_domain = email.strip().rsplit("@")] *)
    match split_char "@" (strip email) with
    | [email_user; email_domain] =>
        let name := map_chars dash_to_space (remove_digits email_user) in
        let name :=
          if existsb (startswith (lower name)) EMAIL_USERS_ADD_DOMAIN
          then without_extension (map_chars dash_to_space email_domain) ++ " - " ++ name
          else name in
        let name := replace "." " " name in
        Ok (sanitize_name name)
    | [_] => Err (ValueError "not enough values to unpack (expected 2, got 1)")
    | _ => Err (ValueError "too many values to unpack (expected 2)")
    end.

(** ** [collect_vcard_names] *)

(** [REGEX_ONY_NON_ALPHANUM.match(s)] with the pattern
    ['^[ \t]*[^\w]*[ \t]*$']: every character of [s] is a non-word
    character (spaces, tabs and a final newline included). *)
Definition only_non_alphanum (s : string) : bool :=
  forallb (fun c => negb (is_word c)) (list_ascii_of_string s).

(** [s.count(c)] for a character. *)
Definition count_char (c : ascii) (s : string) : nat :=
  length (List.filter (fun d => (c =? d)%char) (list_ascii_of_string s)).

(** The truth value of a line's value: an empty string or list is false; a
    [Name] object defines no [__bool__] and is true. *)
Definition pval_truthy (v : pval) : bool :=
  match v with
  | VStr s => negb (String.eqb s "")
  | VName _ => true
  | VList l => negb (Nat.eqb (length l) 0)
  end.

(** The loop over the [fn] (then [n]) lines. *)
Definition collect_name_line (names : list string) (attr_n : prop) : result (list string) :=
  let value := close_parentheses_or_braces (strip (py_str (value attr_n))) in
  if only_non_alphanum value then Ok names
  else if Nat.eqb (count_char "@" value) 1 then
    let* name := build_name_from_email value in Ok (SetName.add_name names name)
  else Ok (SetName.add_name names (sanitize_name value)).

Definition collect_name_key (vc : vcard) (names : list string) (name_key : string)
    : result (list string) :=
  let* h := hasattr vc name_key in
  if h then fold_result collect_name_line (default [] (get_list vc name_key)) names
  else Ok names.

(** The first loop over the [email] lines: the display name of a wrapped
    address that is not a Thunderbird invalid one. *)
Definition collect_email_line (names : list string) (email : prop) : result (list string) :=
  match value email with
  | VStr v =>
      if endswith (strip (lower v)) "nowhere.invalid" then Ok names
      else match name_in_email_match v with
           | Some (nm, _) => Ok (SetName.add_name names (sanitize_name nm))
           | None => Ok names
           end
  | _ => Err (AttributeError "lower")
  end.

(** The fallback loop over the [email] lines. *)
Definition build_email_line (names : list string) (email : prop) : result (list string) :=
  match value email with
  | VStr v => let* name := build_name_from_email v in Ok (SetName.add_name names name)
  | _ => Err (TypeError "parameter 'email' must be a string")
  end.

(** One [org] value item (or the value itself when it is a string). *)
Definition collect_org_item (names : list string) (item : string) : list string :=
  if only_non_alphanum (strip item) then names
  else SetName.add_name names (sanitize_name item).

Definition collect_org_line (names : list string) (org : prop) : result (list string) :=
  if pval_truthy (value org) then
    match value org with
    | VList items => Ok (fold_left collect_org_item items names)
    | VStr s => Ok (collect_org_item names s)
    | VName _ => Err (AttributeError "strip")
    end
  else Ok names.

Definition collect_vcard_names (vc : vcard) : result (list string) :=
  (* the debug line reads [vcard.fn.value] (a [str] concatenation) *)
  let* has_fn := hasattr vc "fn" in
  let* _ :=
    if has_fn then
      match get_list vc "fn" with
      | Some (p :: _) =>
          match value p with
          | VStr _ => Ok tt
          | _ => Err (TypeError "can only concatenate str to str")
          end
      | _ => Ok tt
      end
    else Ok tt in
  let* names := fold_result (collect_name_key vc) ["fn"; "n"] [] in
  let* has_email := hasattr vc "email" in
  let emails := if has_email then default [] (get_list vc "email") else [] in
  let* names := fold_result collect_email_line emails names in
  let* names :=
    if Nat.eqb (length names) 0 && has_email
    then fold_result build_email_line emails names else Ok names in
  let* has_org := if Nat.eqb (length names) 0 then hasattr vc "org" else Ok false in
  let* names :=
    if has_org then fold_result collect_org_line (default [] (get_list vc "org")) names
    else Ok names in
  let* has_tel := if Nat.eqb (length names) 0 then hasattr vc "tel" else Ok false in
  if has_tel then
    match get_list vc "tel" with
    | Some (t :: _) => Ok (SetName.add_name names ("tel_" ++ strip (py_str (value t))))
    | _ => Ok names
    end
  else Ok names.

(** ** [is_a_mobile_phone], [filter_values_by_param] and [collect_values] *)

Definition is_a_mobile_phone (number : string) : bool :=
  startswith number "06" || startswith number "07".

(** [re.sub(' +', ' ', s)] *)
Fixpoint squeeze_spaces_go (prev_space : bool) (s : string) : string :=
  match s with
  | EmptyString => EmptyString
  | String c s' =>
      if (c =? " ")%char then
        if prev_space then squeeze_spaces_go true s' else String c (squeeze_spaces_go true s')
      else String c (squeeze_spaces_go false s')
  end.
Definition squeeze_spaces (s : string) : string := squeeze_spaces_go false s.

(** [attr.params.get(k)] *)
Fixpoint param_get (ps : list (string * list string)) (k : string) : option (list string) :=
  match ps with
  | [] => None
  | (k', v) :: ps' => if String.eqb k k' then Some v else param_get ps' k
  end.

(** [str(attr.params.get(k))]: [None] or the [repr] of a list of strings. *)
Definition param_str (o : option (list string)) : string :=
  match o with
  | None => "None"
  | Some l => py_str (VList l)
  end.

(** The values appended for one line [attr] of the property [key]. *)
Definition line_values (key : string) (attr : prop) : list string :=
  if String.eqb key "n" then [strip (squeeze_spaces (py_str (value attr)))]
  else if String.eqb key "org" then
    match value attr with
    | VList items => map strip items
    | v => [strip (py_str v)]
    end
  else [strip (py_str (value attr))].

(** [hasattr(vcard, k)] as [Component.__getattr__] reads it: underscores
    become dashes. *)
Definition vc_hasattr (vc : vcard) (k : string) : result bool :=
  hasattr vc (replace "_" "-" k).

Definition filter_values_by_param (vc : vcard) (key param_key param_value : string)
    : result (list string) :=
  let '(param_value, exclude) :=
    if startswith param_value "!"
    then (substring 1 (String.length param_value - 1) param_value, true)
    else (param_value, false) in
  let param_value := upper param_value in
  let* h := vc_hasattr vc key in
  if h then
    let* attrs := getattr_list vc key in
    Ok (flat_map (fun attr =>
          let matched :=
            String.eqb (upper (param_str (param_get (params attr) param_key)))
                       ("['" ++ param_value ++ "']") in
          if (if matched then negb exclude else exclude) then line_values key attr else [])
        attrs)
  else Ok [].

(** The ['names'] alias adds ['fn'] and ['n'] to the keys. *)
Definition expand_keys (keys : list string) : list string :=
  if Fixer.in_list "names" keys then
    let keys := if Fixer.in_list "fn" keys then keys else (keys ++ ["fn"])%list in
    if Fixer.in_list "n" keys then keys else (keys ++ ["n"])%list
  else keys.

(** One key of [collect_values]. *)
Definition collect_key (vc : vcard) (values : list string) (key : string) : result (list string) :=
  if has_char "_" key then
    (* [k_name, k_type = key.rsplit("_")] *)
    match split_char "_" key with
    | [k_name; k_type] =>
        let* h := vc_hasattr vc k_name in
        if h then
          let* fv := filter_values_by_param vc k_name "TYPE" k_type in
          Ok (values ++ fv)%list
        else Ok values
    | _ => Err (ValueError "too many values to unpack (expected 2)")
    end
  else if String.eqb key "mobiles" then
    let* h := vc_hasattr vc "tel" in
    if h then
      let* tels := getattr_list vc "tel" in
      Ok (values ++ flat_map (fun tel =>
                      let s := strip (py_str (value tel)) in
                      if is_a_mobile_phone s then [s] else []) tels)%list
    else Ok values
  else if negb (String.eqb key "names") then
    let* h := vc_hasattr vc key in
    if h then
      let* attrs := getattr_list vc key in
      Ok (values ++ flat_map (fun attr =>
                      if pval_truthy (value attr) then line_values key attr else []) attrs)%list
    else Ok values
  else Ok values.

(** [collect_values(vcard, *keys)] returns [set(values)]: the list below
    holds the same elements, in the order they were collected. *)
Definition collect_values (vc : vcard) (keys : list string) : result (list string) :=
  fold_result (collect_key vc) (expand_keys keys) [].

(** ** [reverse_words] and [match_approx] *)

Section MatchApprox.
Variable OPTION_FRENCH_TWEAKS : bool.
Variable OPTION_MATCH_APPROX_SAME_FIRST_LETTER : bool.
Variable OPTION_MATCH_APPROX_STARTSWITH : bool.
Variable OPTION_MATCH_APPROX_MIN_LENGTH : Z.
(** [OPTION_MATCH_APPROX_MAX_DISTANCE = range(lo, hi)] *)
Variable MAX_DISTANCE_lo MAX_DISTANCE_hi : Z.
Variable OPTION_MATCH_APPROX_RATIO : Z.

Definition reverse_words (s : string) : string :=
  let reverse_name := build_formatted_name OPTION_FRENCH_TWEAKS s in
  family reverse_name ++ " " ++ given reverse_name.

Definition match_approx (reference compared : string) : bool :=
  if (OPTION_MATCH_APPROX_RATIO =? 100)%Z
     && Nat.eqb (Fuzzy.token_sort_ratio reference compared) 100 then true
  else if (OPTION_MATCH_APPROX_MIN_LENGTH <? Z.of_nat (String.length reference))%Z
          && (OPTION_MATCH_APPROX_MIN_LENGTH <? Z.of_nat (String.length compared))%Z then
    let reference_reversed := reverse_words reference in
    let compared_reversed := reverse_words compared in
    if negb OPTION_MATCH_APPROX_SAME_FIRST_LETTER
       || String.eqb (lower (first_char reference)) (lower (first_char compared))
       || String.eqb (lower (first_char reference)) (lower (first_char compared_reversed))
       || String.eqb (lower (first_char reference_reversed)) (lower (first_char compared))
    then
      let d := (Z.of_nat (String.length reference) - Z.of_nat (String.length compared))%Z in
      if OPTION_MATCH_APPROX_STARTSWITH && (MAX_DISTANCE_lo <=? d)%Z && (d <? MAX_DISTANCE_hi)%Z
         && (startswith reference compared || startswith compared reference
             || startswith reference_reversed compared || startswith compared_reversed reference)
      then true
      else (OPTION_MATCH_APPROX_RATIO <=? Z.of_nat (Fuzzy.token_sort_ratio reference compared))%Z
    else false
  else false.

End MatchApprox.

(** ** [deduplicate] *)

Section Deduplicate.
(** [collect_attributes] and [build_vcard] over the vobject data model. *)
Variable collect_attributes : list vcard -> result SetName.attributes.
Variable build_vcard : SetName.attributes -> result vcard.
Variable OPTION_FRENCH_TWEAKS : bool.

Definition deduplicate (vc : vcard) : result vcard :=
  let* attributes := collect_attributes [vc] in
  let* _ := SetName.set_name OPTION_FRENCH_TWEAKS attributes in
  build_vcard attributes.

End Deduplicate.


(** Every group of [gs] has at least two members. *)
Definition sizes_ok (gs : gmap string (list string)) : Prop :=
  forall g ms, gs !! g = Some ms -> 2 <= length ms.
(** * Properties *)

(** ** Name selection *)

Lemma select_loop_selected (names : list string) (sel o : option string) (pos : nat) :
  select_loop names sel pos = Ok o -> o = sel.
Proof.
  induction names as [|nm names IH]; simpl; intros H.
  - congruence.
  - destruct (String.eqb nm ""); [exact (IH H) | discriminate].
Qed.

Lemma select_loop_first_named (names : list string) (sel : option string) (pos : nat) :
  (exists nm, In nm names /\ nm <> "") ->
  select_loop names sel pos
  = Err (TypeError ("parameter 'names[" ++ pretty pos ++ "]' is undefined")).
Proof.
  induction names as [|nm names IH]; simpl; intros [n [Hin Hn]].
  - contradiction.
  - destruct (String.eqb nm "") eqn:E.
    + apply String.eqb_eq in E; subst nm.
      destruct Hin as [<- | Hin]; [contradiction|].
      apply IH; eauto.
    + reflexivity.
Qed.

(** [select_most_relevant_name] never returns a name: it only ever ends in
    one of its exceptions. *)
Lemma select_most_relevant_name_no_result (names : list string) (s : string) :
  select_most_relevant_name names <> Ok s.
Proof.
  intros H. unfold select_most_relevant_name in H.
  destruct names as [|nm names]; [discriminate|].
  destruct (select_loop (nm :: names) None 0) as [o|e] eqn:E; cbn [bind] in H; [|discriminate].
  apply select_loop_selected in E; subst o; discriminate.
Qed.

(** C3: the selection of a name among candidates.  Refuted: for every list
    of candidates, [select_most_relevant_name] returns no candidate at all
    (on ["Alice"] it raises a [TypeError], see the failing input). *)
Theorem select_most_relevant_name_never_selects :
  forall (names : list string) (s : string), select_most_relevant_name names <> Ok s.
Proof.
  exact select_most_relevant_name_no_result.
Qed.

(** C4: the errors of [select_most_relevant_name].  Refuted: as soon as a
    non-empty candidate is present (for instance on a list of non-empty
    names) it raises the [TypeError] "parameter 'names[0]' is undefined",
    the empty candidates before it being skipped. *)
Theorem select_most_relevant_name_fails_on_named :
  forall names : list string,
  (exists nm, In nm names /\ nm <> "") ->
  select_most_relevant_name names = Err (TypeError "parameter 'names[0]' is undefined").
Proof.
  intros names Hn.
  destruct names as [|nm names]; [destruct Hn as [? [[] _]]|].
  unfold select_most_relevant_name.
  rewrite (select_loop_first_named (nm :: names) None 0 Hn).
  reflexivity.
Qed.

Lemma select_most_relevant_name_fails_on_named_witness :
  (exists nm, In nm ["Alice"] /\ nm <> "") /\
  select_most_relevant_name ["Alice"] = Err (TypeError "parameter 'names[0]' is undefined").
Proof.
  assert (Hn : exists nm, In nm ["Alice"] /\ nm <> "")
    by (exists "Alice"; split; [left; reflexivity | discriminate]).
  split; [exact Hn | apply (select_most_relevant_name_fails_on_named ["Alice"] Hn)].
Defined.

(** ** [set_name] *)

Lemma collect_loop_no_key_error (f : prop -> result (option string)) l names e :
  (forall p e', f p = Err e' -> forall k, e' <> KeyError k) ->
  SetName.collect_loop f l names = Err e -> forall k, e <> KeyError k.
Proof.
  intros Hf; revert names.
  induction l as [|p l IH]; simpl; intros names H; [discriminate|].
  destruct (f p) as [o|e'] eqn:E; simpl in H.
  - exact (IH _ H).
  - injection H as <-; exact (Hf p e' E).
Qed.

Lemma collect_from_no_key_error attrs k0 f names e :
  (forall p e', f p = Err e' -> forall k, e' <> KeyError k) ->
  SetName.collect_from attrs k0 f names = Err e -> forall k, e <> KeyError k.
Proof.
  intros Hf H. unfold SetName.collect_from in H.
  destruct (SetName.alookup attrs k0) as [[l| |]|]; try discriminate;
    try (injection H as <-; discriminate).
  exact (collect_loop_no_key_error f l names e Hf H).
Qed.

Lemma name_of_no_key_error :
  (forall p e, SetName.name_of_fn p = Err e -> forall k, e <> KeyError k) /\
  (forall p e, SetName.name_of_n p = Err e -> forall k, e <> KeyError k) /\
  (forall p e, SetName.name_of_email p = Err e -> forall k, e <> KeyError k).
Proof.
  unfold SetName.name_of_fn, SetName.name_of_n, SetName.name_of_email.
  repeat split; intros p e H k;
    repeat (match type of H with context [match ?x with _ => _ end] => destruct x end);
    try discriminate; injection H as <-; discriminate.
Qed.

Lemma select_most_relevant_name_errors (names : list string) :
  exists e, select_most_relevant_name names = Err e /\ forall k, e <> KeyError k.
Proof.
  destruct (select_most_relevant_name names) as [s|e] eqn:E.
  - exfalso; exact (select_most_relevant_name_no_result names s E).
  - exists e; split; [reflexivity|].
    unfold select_most_relevant_name in E.
    destruct names as [|nm names]; [injection E as <-; discriminate|].
    destruct (select_loop (nm :: names) None 0) as [o|e'] eqn:L; cbn [bind] in E.
    + apply select_loop_selected in L; subst o. injection E as <-; discriminate.
    + injection E as <-. revert L. generalize 0%nat. generalize (nm :: names) as l.
      induction l as [|nm' l IH]; simpl; intros pos L; [discriminate|].
      destruct (String.eqb nm' ""); [exact (IH pos L)|injection L as <-; discriminate].
Qed.

(** C10: [set_name] on a mapping without [fn] or [n].  Refuted: whatever
    the mapping, [set_name] fails before its [del] statements are reached,
    and never with a [KeyError]: the failure comes from the name collection
    or from [select_most_relevant_name]. *)
Theorem set_name_never_reaches_deletion :
  forall (OPTION_FRENCH_TWEAKS : bool) (attrs : SetName.attributes),
  exists e, SetName.set_name OPTION_FRENCH_TWEAKS attrs = Err e /\ forall k, e <> KeyError k.
Proof.
  intros ft attrs. unfold SetName.set_name.
  destruct name_of_no_key_error as (Hfn & Hn & Hem).
  destruct (SetName.collect_from attrs "fn" SetName.name_of_fn []) as [n1|e] eqn:E1; simpl;
    [|exists e; split; [reflexivity|exact (collect_from_no_key_error _ _ _ _ _ Hfn E1)]].
  destruct (SetName.collect_from attrs "n" SetName.name_of_n n1) as [n2|e] eqn:E2; simpl;
    [|exists e; split; [reflexivity|exact (collect_from_no_key_error _ _ _ _ _ Hn E2)]].
  destruct (SetName.collect_from attrs "email" SetName.name_of_email n2) as [n3|e] eqn:E3; simpl;
    [|exists e; split; [reflexivity|exact (collect_from_no_key_error _ _ _ _ _ Hem E3)]].
  destruct (select_most_relevant_name_errors n3) as [e [He Hk]].
  rewrite He. exists e; split; [reflexivity|exact Hk].
Qed.

(** ** The fixer *)

(** C6: idempotence of [fix_and_convert_to_v3].  Refuted: on the one-line
    file [NOTE:a,,b] the comma-escaping substitution escapes only the first
    of two adjacent commas (the second one's preceding character was
    consumed by the first match), so a second pass changes the output
    again. *)
Theorem fix_and_convert_to_v3_not_idempotent :
  let x := ("NOTE:a,,b" ++ String "010" EmptyString) in
  Fixer.fix_and_convert_to_v3 false x = "NOTE:a\,,b" ++ String "010" EmptyString /\
  Fixer.fix_and_convert_to_v3 false (Fixer.fix_and_convert_to_v3 false x)
    = "NOTE:a\,\,b" ++ String "010" EmptyString.
Proof.
  split; vm_compute; reflexivity.
Qed.

(** ** [merge] *)

(** C7: [merge] appends every line of the other records once.  Refuted:
    [merge] looks each child up with [getattr(vcard_to_merge,
    vcard_child.name + '_list')] where [vcard_child.name] is upper-cased
    while [contents] is keyed by lower-cased names, so a record to merge
    holding an [EMAIL] line makes it raise [AttributeError('EMAIL_list')]
    instead of appending the line. *)
Theorem merge_fails_on_email_line :
  forall (base : vcard) (v : string),
  merge base [[("email", [mkProp (VStr v) []])]] = Err (AttributeError "EMAIL_list").
Proof.
  intros base v. reflexivity.
Qed.

(** ** Facts on the string primitives *)

Module StrFacts.

Lemma last_opt_cons (c : ascii) (s : string) :
  s <> EmptyString -> last_opt (String c s) = last_opt s.
Proof. destruct s; [congruence|reflexivity]. Qed.

Lemma last_opt_app (s t : string) :
  t <> EmptyString -> last_opt (s ++ t) = last_opt t.
Proof.
  intros Ht. induction s as [|c s IH]; [reflexivity|].
  change (String c s ++ t) with (String c (s ++ t)).
  rewrite last_opt_cons; [exact IH|]. destruct s; simpl; [exact Ht|discriminate].
Qed.

Lemma lstrip_id (s : string) :
  (forall c, first_opt s = Some c -> is_space c = false) -> lstrip s = s.
Proof.
  destruct s as [|c s]; simpl; intros H; [reflexivity|].
  rewrite (H c eq_refl). reflexivity.
Qed.

Lemma rstrip_id (s : string) :
  (forall c, last_opt s = Some c -> is_space c = false) -> rstrip s = s.
Proof.
  induction s as [|c s IH]; simpl; intros H; [reflexivity|].
  destruct s as [|d s].
  - simpl. rewrite (H c eq_refl). reflexivity.
  - rewrite IH by exact H. reflexivity.
Qed.

Lemma strip_id (s : string) : ends_ok s -> strip s = s.
Proof.
  intros H. unfold strip.
  rewrite lstrip_id by (intros c Hc; apply H; auto).
  apply rstrip_id. intros c Hc; apply H; auto.
Qed.

Lemma lstrip_first (s : string) c : first_opt (lstrip s) = Some c -> is_space c = false.
Proof.
  induction s as [|d s IH]; simpl; [discriminate|].
  destruct (is_space d) eqn:E; [exact IH|]. simpl. congruence.
Qed.

Lemma rstrip_last (s : string) c : last_opt (rstrip s) = Some c -> is_space c = false.
Proof.
  induction s as [|d s IH]; simpl; [discriminate|].
  destruct (rstrip s) as [|e r] eqn:E.
  - destruct (is_space d) eqn:Ed; simpl; [discriminate|congruence].
  - intros H. apply IH. rewrite last_opt_cons in H by discriminate. exact H.
Qed.

Lemma rstrip_first (s : string) c :
  (forall d, first_opt s = Some d -> is_space d = false) ->
  first_opt (rstrip s) = Some c -> first_opt s = Some c.
Proof.
  destruct s as [|d s]; simpl; [discriminate|].
  intros H. destruct (rstrip s) as [|e r]; simpl.
  - rewrite (H d eq_refl). simpl. tauto.
  - tauto.
Qed.

Lemma strip_ends_ok (s : string) : ends_ok (strip s).
Proof.
  intros c [Hc|Hc]; unfold strip in Hc.
  - apply (lstrip_first s). apply (rstrip_first (lstrip s)); [|exact Hc].
    intros d Hd. exact (lstrip_first s d Hd).
  - exact (rstrip_last _ c Hc).
Qed.

Lemma strip_strip (s : string) : strip (strip s) = strip s.
Proof. apply strip_id, strip_ends_ok. Qed.

(** [startswith] and [contains]. *)
Lemma startswith_app (s p : string) : startswith s p = true -> exists r, s = p ++ r.
Proof.
  revert s. induction p as [|c p IH]; intros s H; [exists s; reflexivity|].
  destruct s as [|d s]; simpl in H; [discriminate|].
  apply andb_prop in H as [Hc Hs]. apply Ascii.eqb_eq in Hc; subst d.
  destruct (IH s Hs) as [r ->]. exists r; reflexivity.
Qed.

Lemma startswith_app_r (p r : string) : startswith (p ++ r) p = true.
Proof.
  induction p as [|c p IH]; simpl; [destruct r; reflexivity|].
  rewrite Ascii.eqb_refl. exact IH.
Qed.

Lemma substring_0_full (s : string) n : String.length s <= n -> substring 0 n s = s.
Proof.
  revert n. induction s as [|c s IH]; intros n H; destruct n; simpl in *; try reflexivity; try lia.
  rewrite IH by lia. reflexivity.
Qed.

Lemma substring_app_l (p r : string) n :
  String.length (p ++ r) <= n + String.length p ->
  substring (String.length p) n (p ++ r) = r.
Proof.
  induction p as [|c p IH]; simpl; intros H.
  - apply substring_0_full. change ("" ++ r) with r in H. lia.
  - apply IH. change (String c p ++ r) with (String c (p ++ r)) in H. simpl in H. lia.
Qed.

Lemma app_length_str (s t : string) : String.length (s ++ t) = String.length s + String.length t.
Proof. induction s; simpl; auto. Qed.

Lemma replace_go_no_occurrence (f : nat) (old new s : string) :
  contains s old = false -> replace_go f old new s = s.
Proof.
  revert s. induction f as [|f IH]; intros s H; [reflexivity|].
  destruct s as [|c s]; [reflexivity|].
  simpl in H. apply orb_false_elim in H as [H1 H2]. simpl.
  change (startswith (String c s) old) with (startswith (String c s) old).
  rewrite H1. rewrite IH by exact H2. reflexivity.
Qed.

Lemma replace_no_occurrence (old new s : string) :
  contains s old = false -> replace old new s = s.
Proof. apply replace_go_no_occurrence. Qed.

(** [replace old new (old ++ r)] when [r] holds no [old]. *)
Lemma replace_leading (old new r : string) :
  old <> EmptyString -> contains r old = false ->
  replace old new (old ++ r) = new ++ r.
Proof.
  intros Hold Hr. unfold replace.
  destruct old as [|c o]; [congruence|].
  simpl (String.length (String c o ++ r)).
  cbn [replace_go]. simpl (String c o ++ r).
  rewrite (startswith_app_r (String c o) r).
  f_equal. rewrite replace_go_no_occurrence; [|].
  - change (String c (o ++ r)) with (String c o ++ r).
    apply substring_app_l. rewrite app_length_str; simpl; lia.
  - change (String c (o ++ r)) with (String c o ++ r).
    rewrite substring_app_l by (rewrite app_length_str; simpl; lia). exact Hr.
Qed.

End StrFacts.

(** Every occurrence of the character [c] removed from [s]. *)
Module StrFacts2.
Import StrFacts.

Lemma replace_char_empty (c : ascii) (s : string) :
  replace (String c EmptyString) EmptyString s = remove_char c s.
Proof.
  unfold replace. remember (String.length s) as f eqn:Hf.
  assert (Hle : String.length s <= f) by lia. clear Hf. revert s Hle.
  induction f as [|f IH]; intros s Hle.
  - destruct s; [reflexivity|simpl in Hle; lia].
  - destruct s as [|d s]; [reflexivity|]. simpl in Hle. cbn [replace_go].
    simpl (startswith (String d s) (String c EmptyString)).
    replace (startswith s "") with true by (destruct s; reflexivity).
    rewrite andb_true_r. simpl (remove_char c (String d s)).
    destruct (c =? d)%char.
    + change ("" ++ ?x) with x.
      change (substring (String.length (String c "")) (String.length (String d s)) (String d s))
        with (substring 0 (String.length (String d s)) s).
      rewrite substring_0_full by (simpl; lia). apply IH. lia.
    + f_equal. apply IH. lia.
Qed.

Lemma has_char_remove_char (c : ascii) (s : string) : has_char c (remove_char c s) = false.
Proof.
  induction s as [|d s IH]; simpl; [reflexivity|].
  destruct (c =? d)%char eqn:E; [exact IH|]. simpl. rewrite E, IH. reflexivity.
Qed.

Lemma remove_char_first (c x : ascii) (s : string) :
  first_opt s = Some x -> x <> c -> first_opt (remove_char c s) = Some x.
Proof.
  destruct s as [|d s]; simpl; [discriminate|]. intros [= ->] Hx.
  destruct (c =? x)%char eqn:E; [apply Ascii.eqb_eq in E; congruence|reflexivity].
Qed.

Lemma remove_char_last (c x : ascii) (s : string) :
  last_opt s = Some x -> x <> c -> last_opt (remove_char c s) = Some x.
Proof.
  induction s as [|d s IH]; [discriminate|]. intros H Hx.
  destruct s as [|e s].
  - simpl in H. injection H as ->. simpl.
    destruct (c =? x)%char eqn:E; [apply Ascii.eqb_eq in E; congruence|reflexivity].
  - rewrite last_opt_cons in H by discriminate.
    specialize (IH H Hx).
    change (remove_char c (String d (String e s)))
      with (if (c =? d)%char then remove_char c (String e s) else String d (remove_char c (String e s))).
    destruct (c =? d)%char; [exact IH|].
    rewrite last_opt_cons; [exact IH|]. intros E; rewrite E in IH; discriminate.
Qed.

Lemma last_opt_some (s : string) : s <> EmptyString -> exists x, last_opt s = Some x.
Proof.
  induction s as [|c s IH]; intros H; [congruence|].
  destruct s as [|d s]; [exists c; reflexivity|].
  rewrite last_opt_cons by discriminate. apply IH; discriminate.
Qed.

Lemma remove_char_ends_ok (c : ascii) (s : string) :
  is_space c = true -> ends_ok s -> ends_ok (remove_char c s).
Proof.
  intros Hc Hs x [Hx|Hx].
  - destruct (first_opt s) as [y|] eqn:Ey.
    + assert (Hy : is_space y = false) by (apply Hs; auto).
      assert (y <> c) by (intros ->; congruence).
      rewrite (remove_char_first c y s Ey) in Hx by assumption. congruence.
    + destruct s; simpl in *; congruence.
  - destruct (last_opt s) as [y|] eqn:Ey.
    + assert (Hy : is_space y = false) by (apply Hs; auto).
      assert (y <> c) by (intros ->; congruence).
      rewrite (remove_char_last c y s Ey) in Hx by assumption. congruence.
    + destruct s as [|d s]; [simpl in Hx; congruence|].
      destruct (last_opt_some (String d s)) as [z Hz]; [discriminate|congruence].
Qed.

Lemma has_char_app (c : ascii) (s t : string) :
  has_char c (s ++ t) = has_char c s || has_char c t.
Proof. induction s as [|d s IH]; simpl; [reflexivity|]. rewrite IH, orb_assoc. reflexivity. Qed.

End StrFacts2.

(** ** Facts on the vCard operations *)

Module VcardFacts.

Lemma get_list_del_key_other (v : vcard) (k k' : string) :
  k' <> k -> get_list (del_key v k) k' = get_list v k'.
Proof.
  intros Hk. induction v as [|[k0 l] v IH]; simpl; [reflexivity|].
  destruct (String.eqb k k0) eqn:E.
  - apply String.eqb_eq in E; subst k0.
    apply String.eqb_neq in Hk. rewrite Hk. reflexivity.
  - simpl. rewrite IH. reflexivity.
Qed.

Lemma get_list_add_other (v : vcard) (k k' : string) (p : prop) :
  k' <> k -> get_list (add v k p) k' = get_list v k'.
Proof.
  intros Hk. induction v as [|[k0 l] v IH]; simpl.
  - apply String.eqb_neq in Hk. rewrite Hk. reflexivity.
  - destruct (String.eqb k k0) eqn:E.
    + apply String.eqb_eq in E; subst k0. simpl.
      apply String.eqb_neq in Hk. rewrite Hk. reflexivity.
    + simpl. rewrite IH. reflexivity.
Qed.

Lemma get_list_set_list_other (v : vcard) (k k' : string) (l : list prop) :
  k' <> k -> get_list (set_list v k l) k' = get_list v k'.
Proof.
  intros Hk. induction v as [|[k0 l0] v IH]; simpl; [reflexivity|].
  destruct (String.eqb k k0) eqn:E; simpl.
  - apply String.eqb_eq in E; subst k0.
    apply String.eqb_neq in Hk. rewrite Hk. reflexivity.
  - rewrite IH. reflexivity.
Qed.

Lemma get_list_set_list_same (v : vcard) (k : string) (l l0 : list prop) :
  get_list v k = Some l0 -> get_list (set_list v k l) k = Some l.
Proof.
  induction v as [|[k0 l1] v IH]; simpl; [discriminate|].
  destruct (String.eqb k k0) eqn:E; simpl.
  - apply String.eqb_eq in E; subst k0. rewrite String.eqb_refl. reflexivity.
  - rewrite E. exact IH.
Qed.

Lemma move_names_loop_other ft nk l vc l' vc' k :
  k <> "note" -> move_names_loop ft nk l vc = Ok (l', vc') -> get_list vc' k = get_list vc k.
Proof.
  intros Hk. revert vc l'. induction l as [|a l IH]; simpl; intros vc l' H.
  - congruence.
  - unfold move_name_parenth in H.
    destruct (paren_search _) as [g|].
    + destruct (hasattr vc "note") as [[|]|e] eqn:Ehas; cbn [bind] in H; [| |discriminate].
      * destruct (get_list vc "note") as [[|nt nts]|] eqn:En; try discriminate.
        destruct (value nt); try discriminate. cbn [bind] in H.
        destruct (move_names_loop ft nk l _) as [[l2 vc2]|e] eqn:E2; cbn [bind] in H; [|discriminate].
        injection H as _ <-. rewrite (IH _ _ E2). apply get_list_set_list_other. exact Hk.
      * destruct (move_names_loop ft nk l _) as [[l2 vc2]|e] eqn:E2; cbn [bind] in H; [|discriminate].
        injection H as _ <-. rewrite (IH _ _ E2). apply get_list_add_other. exact Hk.
    + cbn [bind] in H.
      destruct (move_names_loop ft nk l vc) as [[l2 vc2]|e] eqn:E2; cbn [bind] in H; [|discriminate].
      injection H as _ <-. exact (IH _ _ E2).
Qed.

Lemma move_names_of_other ft nk vc vc' k :
  k <> nk -> k <> "note" -> move_names_of ft nk vc = Ok vc' -> get_list vc' k = get_list vc k.
Proof.
  intros Hk Hn H. unfold move_names_of in H.
  destruct (get_list vc nk) as [l|]; [|discriminate].
  destruct (move_names_loop ft nk l vc) as [[l' vc1]|e] eqn:E; cbn [bind] in H; [|discriminate].
  injection H as <-. rewrite get_list_set_list_other by exact Hk.
  exact (move_names_loop_other ft nk l vc l' vc1 k Hn E).
Qed.

End VcardFacts.

Module NormalizeFacts.
Import VcardFacts.

Ltac bind_step H x E :=
  match type of H with
  | bind ?m _ = _ => destruct m as [x|?] eqn:E; cbn [bind] in H; [|discriminate H]
  end.

Lemma remove_version_other vc vc' k :
  k <> "version" -> remove_version vc = Ok vc' -> get_list vc' k = get_list vc k.
Proof.
  intros Hk H. unfold remove_version in H. bind_step H b E. injection H as <-.
  destruct b; [apply get_list_del_key_other; exact Hk|reflexivity].
Qed.

Lemma overwrite_names_other d vc vc' k :
  k <> "fn" -> k <> "n" -> overwrite_names d vc = Ok vc' -> get_list vc' k = get_list vc k.
Proof.
  intros Hfn Hn H. unfold overwrite_names in H. destruct (negb d); [|congruence].
  bind_step H b E. bind_step H b0 E0. injection H as <-.
  destruct b0; [rewrite get_list_del_key_other by exact Hn|];
    (destruct b; [apply get_list_del_key_other; exact Hfn|reflexivity]).
Qed.

Lemma add_missing_names_other ft sel vc vc' k :
  k <> "fn" -> k <> "n" -> add_missing_names ft sel vc = Ok vc' -> get_list vc' k = get_list vc k.
Proof.
  intros Hfn Hn H. unfold add_missing_names in H.
  bind_step H b E. bind_step H b0 E0. injection H as <-.
  destruct b0; [|rewrite get_list_add_other by exact Hn];
    (destruct b; [reflexivity|apply get_list_add_other; exact Hfn]).
Qed.

Lemma move_names_other ft mv vc vc' k :
  k <> "fn" -> k <> "n" -> k <> "note" -> move_names ft mv vc = Ok vc' ->
  get_list vc' k = get_list vc k.
Proof.
  intros Hfn Hn Hnote H. unfold move_names in H. destruct mv; [|congruence].
  bind_step H v E.
  rewrite (move_names_of_other ft "n" v vc' k Hn Hnote H).
  exact (move_names_of_other ft "fn" vc v k Hfn Hnote E).
Qed.

Lemma normalize_emails_other d vc vc' k :
  k <> "email" -> normalize_emails d vc = Ok vc' -> get_list vc' k = get_list vc k.
Proof.
  intros Hk H. unfold normalize_emails in H. bind_step H b E.
  destruct b; [|congruence].
  destruct (get_list vc "email") as [[|p l]|]; try congruence.
  bind_step H l0 E0. destruct l0; injection H as <-;
    [apply get_list_del_key_other|apply get_list_set_list_other]; exact Hk.
Qed.

(** The [tel] lines of the result of [normalize] are those of its input,
    normalized by [normalize_tel_list]. *)
Lemma normalize_tel ft vc sel d1 d2 d3 vc' tels :
  get_list vc "tel" = Some tels -> normalize ft vc sel d1 d2 d3 = Ok vc' ->
  exists tels', normalize_tel_list ft tels = Ok tels' /\ get_list vc' "tel" = Some tels'.
Proof.
  intros Htel H. unfold normalize in H.
  bind_step H v E. bind_step H v0 E0. bind_step H v1 E1. bind_step H v2 E2.
  bind_step H v3 E3.
  assert (Hv : get_list v3 "tel" = Some tels).
  { rewrite (normalize_emails_other d3 v2 v3 "tel") by (assumption || discriminate).
    rewrite (move_names_other ft d2 v1 v2 "tel") by (assumption || discriminate).
    rewrite (add_missing_names_other ft sel v0 v1 "tel") by (assumption || discriminate).
    rewrite (overwrite_names_other d1 v v0 "tel") by (assumption || discriminate).
    rewrite (remove_version_other vc v "tel") by (assumption || discriminate).
    exact Htel. }
  unfold normalize_tels in H. bind_step H b E4. rewrite Hv in H.
  destruct b; destruct tels as [|t ts]; try (unfold hasattr in E4; rewrite Hv in E4; discriminate).
  bind_step H l E5. injection H as <-. exists l; split; [first [exact E5 | reflexivity]|].
  exact (get_list_set_list_same _ _ _ _ Hv).
Qed.

Lemma normalize_tel_list_spec ft tels tels' :
  normalize_tel_list ft tels = Ok tels' ->
  Forall2 (fun t t' => exists s, value t = VStr s /\
             t' = mkProp (VStr (normalize_tel_value ft s)) (params t)) tels tels'.
Proof.
  revert tels'. induction tels as [|t ts IH]; simpl; intros tels' H.
  - injection H as <-. constructor.
  - destruct (value t) as [s| |] eqn:Ev; try discriminate.
    bind_step H l E. injection H as <-. constructor; [exists s; auto|exact (IH _ eq_refl)].
Qed.

End NormalizeFacts.

Module StrFacts3.
Import StrFacts StrFacts2.

Lemma app_nil_str (s : string) : s ++ "" = s.
Proof. induction s as [|c s IH]; [reflexivity|]. change (String c (s ++ "") = String c s). now rewrite IH. Qed.

(** The output of [replace_go] is empty exactly when its input is, and
    otherwise ends with the last character of the input or of [new]. *)
Lemma replace_go_last (f : nat) (old new s : string) :
  old <> EmptyString -> new <> EmptyString ->
  (s = EmptyString -> replace_go f old new s = EmptyString) /\
  (s <> EmptyString -> replace_go f old new s <> EmptyString /\
     (last_opt (replace_go f old new s) = last_opt s \/
      last_opt (replace_go f old new s) = last_opt new)).
Proof.
  intros Hold Hnew. revert s. induction f as [|f IH]; intros s.
  - simpl. split; [auto|]. intros Hs; split; [exact Hs|left; reflexivity].
  - destruct s as [|c s']; [split; [reflexivity|congruence]|].
    split; [discriminate|intros _].
    cbn [replace_go].
    destruct (startswith (String c s') old) eqn:Hst.
    + apply startswith_app in Hst as [r Hr]. rewrite Hr.
      rewrite substring_app_l by (rewrite app_length_str; lia).
      destruct (string_dec r EmptyString) as [->|Hr0].
      * rewrite (proj1 (IH EmptyString) eq_refl), app_nil_str.
        split; [exact Hnew|right; reflexivity].
      * destruct (proj2 (IH r) Hr0) as [Hne Hl]. split.
        -- destruct new; [congruence|discriminate].
        -- rewrite !last_opt_app by assumption. exact Hl.
    + destruct (string_dec s' EmptyString) as [->|Hs0].
      * rewrite (proj1 (IH EmptyString) eq_refl). split; [discriminate|left; reflexivity].
      * destruct (proj2 (IH s') Hs0) as [Hne Hl]. split; [discriminate|].
        rewrite !last_opt_cons by assumption. exact Hl.
Qed.

Lemma replace_go_has_char (f : nat) (old new s : string) (d : ascii) :
  has_char d s = false -> has_char d new = false ->
  has_char d (replace_go f old new s) = false.
Proof.
  intros Hs Hn. revert s Hs. induction f as [|f IH]; intros s Hs; [exact Hs|].
  destruct s as [|c s']; [reflexivity|]. cbn [replace_go].
  destruct (startswith (String c s') old) eqn:Hst.
  - apply startswith_app in Hst as [r Hr]. rewrite Hr in *.
    rewrite substring_app_l by (rewrite app_length_str; lia).
    rewrite has_char_app, Hn. apply IH.
    rewrite has_char_app in Hs. apply orb_false_elim in Hs as [_ Hs]. exact Hs.
  - simpl in *. apply orb_false_elim in Hs as [H1 H2]. rewrite H1. apply IH. exact H2.
Qed.

Lemma replace_first (old new s : string) :
  old <> EmptyString -> new <> EmptyString -> startswith s old = true ->
  first_opt (replace old new s) = first_opt new.
Proof.
  intros Hold Hnew Hst. unfold replace.
  destruct s as [|c s']; [destruct old; [congruence|discriminate]|].
  simpl (String.length (String c s')). cbn [replace_go]. rewrite Hst.
  destruct new; [congruence|reflexivity].
Qed.

(** A normalized telephone number has no space and no whitespace at either
    end, with or without the french tweaks. *)
Lemma normalize_tel_value_clean (ft : bool) (s : string) :
  strip (normalize_tel_value ft s) = normalize_tel_value ft s /\
  has_char " " (normalize_tel_value ft s) = false.
Proof.
  unfold normalize_tel_value. rewrite replace_char_empty.
  assert (Hv : ends_ok (remove_char " " (strip s)))
    by (apply remove_char_ends_ok; [reflexivity|apply strip_ends_ok]).
  assert (Hsp := has_char_remove_char " " (strip s)).
  destruct (ft && startswith (remove_char " " (strip s)) "+33") eqn:E;
    [|split; [apply strip_id; exact Hv|exact Hsp]].
  apply andb_prop in E as [_ E].
  assert (Hne : remove_char " " (strip s) <> EmptyString)
    by (intros H0; rewrite H0 in E; discriminate).
  split.
  - apply strip_id. intros c [Hc|Hc].
    + rewrite replace_first in Hc by (discriminate || exact E).
      injection Hc as <-. reflexivity.
    + unfold replace in Hc.
      destruct (proj2 (replace_go_last (String.length (remove_char " " (strip s))) "+33" "0"
                         (remove_char " " (strip s)) ltac:(discriminate) ltac:(discriminate)) Hne)
        as [_ [Hl|Hl]]; rewrite Hl in Hc.
      * apply Hv. right. exact Hc.
      * injection Hc as <-. reflexivity.
  - apply replace_go_has_char; [exact Hsp|reflexivity].
Qed.

End StrFacts3.

Module EmailFacts.
Import StrFacts.

Lemma drop_spaces_cons (a : ascii) (s : string) :
  drop_spaces (String a s) = if (a =? " ")%char then drop_spaces s else String a s.
Proof. destruct a as [[] [] [] [] [] [] [] []]; reflexivity. Qed.

Lemma has_char_drop_spaces (c : ascii) (s : string) :
  has_char c (drop_spaces s) = true -> has_char c s = true.
Proof.
  induction s as [|a s IH]; [auto|]. rewrite drop_spaces_cons.
  destruct (a =? " ")%char; simpl; [intros H; rewrite (IH H); apply orb_true_r|auto].
Qed.

Lemma has_char_break_at (d c : ascii) (s a b : string) :
  break_at d s = Some (a, b) ->
  (has_char c a = true -> has_char c s = true) /\ (has_char c b = true -> has_char c s = true).
Proof.
  revert a b. induction s as [|x s IH]; simpl; intros a b H; [discriminate|].
  destruct (d =? x)%char.
  - injection H as <- <-. split; [discriminate|intros H; rewrite H; apply orb_true_r].
  - destruct (break_at d s) as [[a' b']|]; [|discriminate]. injection H as <- <-.
    destruct (IH a' b' eq_refl) as [H1 H2]. simpl. split.
    + intros H. apply orb_true_iff in H as [H|H]; [rewrite H; reflexivity|rewrite (H1 H); apply orb_true_r].
    + intros H. rewrite (H2 H). apply orb_true_r.
Qed.

Lemma break_at_fst (d : ascii) (s a b : string) :
  break_at d s = Some (a, b) -> has_char d a = false.
Proof.
  revert a b. induction s as [|x s IH]; simpl; intros a b H; [discriminate|].
  destruct (d =? x)%char eqn:E.
  - injection H as <- <-. reflexivity.
  - destruct (break_at d s) as [[a' b']|]; [|discriminate]. injection H as <- <-.
    simpl. rewrite E. exact (IH a' b' eq_refl).
Qed.

Lemma break_at_has (d : ascii) (s a b : string) :
  break_at d s = Some (a, b) -> has_char d s = true.
Proof.
  revert a b. induction s as [|x s IH]; simpl; intros a b H; [discriminate|].
  destruct (d =? x)%char; [reflexivity|].
  destruct (break_at d s) as [[a' b']|]; [|discriminate]. rewrite (IH a' b' eq_refl). apply orb_true_r.
Qed.

Lemma name_in_email_match_inv (s nm em : string) :
  name_in_email_match s = Some (nm, em) ->
  exists t t2 t3 t4, drop_spaces s = String "034" t /\ break_at "034" t = Some (nm, t2) /\
    drop_spaces t2 = String "<" t3 /\ break_at ">" t3 = Some (em, t4).
Proof.
  unfold name_in_email_match. intros H.
  destruct (drop_spaces s) as [|a t]; [discriminate|].
  destruct a as [[] [] [] [] [] [] [] []]; try discriminate H.
  destruct (break_at "034" t) as [[nm0 t2]|] eqn:E1; [|discriminate].
  destruct nm0 as [|x y]; [discriminate|].
  destruct (drop_spaces t2) as [|b t3] eqn:E2; [discriminate|].
  destruct b as [[] [] [] [] [] [] [] []]; try discriminate H.
  destruct (break_at ">" t3) as [[em0 t4]|] eqn:E3; [|discriminate].
  destruct em0 as [|e0 e1]; [discriminate|].
  assert (Heq : Some (String x y, String e0 e1) = Some (nm, em)).
  { destruct (drop_spaces t4) as [|z w]; [exact H|].
    destruct z as [[] [] [] [] [] [] [] []]; try discriminate H; destruct w; try discriminate H; exact H. }
  injection Heq as <- <-. exists t, t2, t3, t4. auto.
Qed.

(** The address taken out of a wrapped display name is made of characters
    of the value and holds no [>]. *)
Lemma name_in_email_match_sub (s nm em : string) :
  name_in_email_match s = Some (nm, em) ->
  (forall c, has_char c em = true -> has_char c s = true) /\ has_char ">" em = false.
Proof.
  intros H. destruct (name_in_email_match_inv s nm em H) as (t & t2 & t3 & t4 & H1 & H2 & H3 & H4).
  split; [|exact (break_at_fst _ _ _ _ H4)].
  intros c Hc. apply has_char_drop_spaces. rewrite H1. simpl. apply orb_true_iff; right.
  apply (proj2 (has_char_break_at _ c _ _ _ H2)). apply has_char_drop_spaces. rewrite H3.
  simpl. apply orb_true_iff; right. exact (proj1 (has_char_break_at _ c _ _ _ H4) Hc).
Qed.

Lemma name_in_email_match_gt (s nm em : string) :
  name_in_email_match s = Some (nm, em) -> has_char ">" s = true.
Proof.
  intros H. destruct (name_in_email_match_inv s nm em H) as (t & t2 & t3 & t4 & H1 & H2 & H3 & H4).
  apply has_char_drop_spaces. rewrite H1. simpl.
  apply (proj2 (has_char_break_at _ ">" _ _ _ H2)). apply has_char_drop_spaces. rewrite H3.
  simpl. exact (break_at_has _ _ _ _ H4).
Qed.

Lemma to_lower_idem (c : ascii) : to_lower (to_lower c) = to_lower c.
Proof. destruct c as [[] [] [] [] [] [] [] []]; reflexivity. Qed.

Lemma is_space_to_lower (c : ascii) : is_space (to_lower c) = is_space c.
Proof. destruct c as [[] [] [] [] [] [] [] []]; reflexivity. Qed.

Lemma lower_idem (s : string) : lower (lower s) = lower s.
Proof.
  induction s as [|c s IH]; [reflexivity|].
  change (String (to_lower (to_lower c)) (lower (lower s)) = String (to_lower c) (lower s)).
  now rewrite to_lower_idem, IH.
Qed.

Lemma lower_fixed (s : string) :
  lower s = s <-> forall c, has_char c s = true -> to_lower c = c.
Proof.
  induction s as [|a s IH]; simpl; [split; [discriminate|reflexivity]|].
  change (String (to_lower a) (lower s) = String a s <->
          forall c, (c =? a)%char || has_char c s = true -> to_lower c = c).
  split.
  - intros H. injection H as Ha Hs. intros c Hc. apply orb_true_iff in Hc as [Hc|Hc].
    + apply Ascii.eqb_eq in Hc. subst. exact Ha.
    + exact (proj1 IH Hs c Hc).
  - intros H. f_equal.
    + apply H. rewrite Ascii.eqb_refl. reflexivity.
    + apply IH. intros c Hc. apply H. rewrite Hc. apply orb_true_r.
Qed.

Lemma first_opt_lower (s : string) : first_opt (lower s) = option_map to_lower (first_opt s).
Proof. destruct s; reflexivity. Qed.

Lemma last_opt_lower (s : string) : last_opt (lower s) = option_map to_lower (last_opt s).
Proof.
  induction s as [|c s IH]; [reflexivity|].
  destruct s as [|d s]; [reflexivity|].
  change (last_opt (String (to_lower c) (lower (String d s))) = option_map to_lower (last_opt (String d s))).
  rewrite <- IH. reflexivity.
Qed.

Lemma ends_ok_lower (s : string) : ends_ok s -> ends_ok (lower s).
Proof.
  intros H c [Hc|Hc].
  - rewrite first_opt_lower in Hc. destruct (first_opt s) as [x|] eqn:E; [|discriminate].
    injection Hc as <-. rewrite is_space_to_lower. apply H. left. exact E.
  - rewrite last_opt_lower in Hc. destruct (last_opt s) as [x|] eqn:E; [|discriminate].
    injection Hc as <-. rewrite is_space_to_lower. apply H. right. exact E.
Qed.

(** One email value that is kept by [normalize]: lowercase, without a
    wrapped display name, and either stripped and not a Thunderbird
    placeholder, or the address taken out of a wrapped display name. *)
Lemma email_value_ok (s : string) :
  endswith (lower (strip s)) "@nowhere.invalid" = false ->
  let v := lower (strip s) in
  let v' := match name_in_email_match v with Some (_, em) => em | None => v end in
  lower v' = v' /\ name_in_email_match v' = None /\
  ((strip v' = v' /\ endswith v' "@nowhere.invalid" = false) \/
   exists nm, name_in_email_match v = Some (nm, v')).
Proof.
  intros Hinv. cbv zeta.
  destruct (name_in_email_match (lower (strip s))) as [[nm em]|] eqn:E.
  - destruct (name_in_email_match_sub _ _ _ E) as [Hsub Hgt].
    split; [|split; [|right; exists nm; reflexivity]].
    + apply lower_fixed. intros c Hc. apply (proj1 (lower_fixed (lower (strip s)))).
      * apply lower_idem.
      * exact (Hsub c Hc).
    + destruct (name_in_email_match em) as [[nm' em']|] eqn:E'; [|reflexivity].
      rewrite (name_in_email_match_gt _ _ _ E') in Hgt. discriminate.
  - split; [apply lower_idem|]. split; [exact E|]. left. split; [|exact Hinv].
    apply strip_id, ends_ok_lower, strip_ends_ok.
Qed.

Lemma normalize_email_list_spec (es es' : list prop) :
  normalize_email_list false es = Ok es' ->
  Forall (fun e => exists x, value e = VStr x /\ lower x = x /\ name_in_email_match x = None /\
    ((strip x = x /\ endswith x "@nowhere.invalid" = false) \/
     exists p s nm, In p es /\ value p = VStr s /\ name_in_email_match (lower (strip s)) = Some (nm, x)))
    es'.
Proof.
  revert es'. induction es as [|e es IH]; simpl; intros es' H.
  - injection H as <-. constructor.
  - destruct (value e) as [s| |] eqn:Ev; try discriminate.
    assert (Hw : forall l, Forall (fun e0 => exists x, value e0 = VStr x /\ lower x = x /\
                   name_in_email_match x = None /\
                   ((strip x = x /\ endswith x "@nowhere.invalid" = false) \/
                    exists p s0 nm, In p es /\ value p = VStr s0 /\
                      name_in_email_match (lower (strip s0)) = Some (nm, x))) l ->
                 Forall (fun e0 => exists x, value e0 = VStr x /\ lower x = x /\
                   name_in_email_match x = None /\
                   ((strip x = x /\ endswith x "@nowhere.invalid" = false) \/
                    exists p s0 nm, In p (e :: es) /\ value p = VStr s0 /\
                      name_in_email_match (lower (strip s0)) = Some (nm, x))) l).
    { intros l Hl. induction Hl as [|e0 l0 (x & H1 & H2 & H3 & H4) _ IHl]; constructor; [|exact IHl].
      exists x.
      split; [exact H1|]. split; [exact H2|]. split; [exact H3|].
      destruct H4 as [H4|(p & s0 & nm & Hp & H5 & H6)]; [left; exact H4|].
      right. exists p, s0, nm. split; [right; exact Hp|]. split; assumption. }
    destruct (endswith (lower (strip s)) "@nowhere.invalid") eqn:Einv.
    + apply Hw. exact (IH _ H).
    + destruct (normalize_email_list false es) as [l|err] eqn:El; cbn [bind] in H; [|discriminate].
      injection H as <-. constructor; [|apply Hw; exact (IH _ eq_refl)].
      destruct (email_value_ok s Einv) as (H1 & H2 & H3). cbv zeta in *.
      simpl value.
      destruct (name_in_email_match (lower (strip s))) as [[nm em]|] eqn:E.
      * exists em. split; [reflexivity|]. split; [exact H1|]. split; [exact H2|].
        right. exists e, s, nm. split; [left; reflexivity|]. split; [exact Ev|exact E].
      * exists (lower (strip s)). split; [reflexivity|]. split; [exact H1|]. split; [exact H2|].
        destruct H3 as [H3|[nm H3]]; [left; exact H3|discriminate].
Qed.

End EmailFacts.

Module VcardKeys.
Import VcardFacts NormalizeFacts.

Lemma get_list_none (v : vcard) (k : string) : get_list v k = None <-> ~ In k (map fst v).
Proof.
  induction v as [|[k' l] v IH]; simpl; [tauto|].
  destruct (String.eqb k k') eqn:E.
  - apply String.eqb_eq in E. subst. split; [discriminate|]. intros H; exfalso; apply H; left; reflexivity.
  - apply String.eqb_neq in E. rewrite IH. split; [|tauto]. intros H [H'|H']; [congruence|tauto].
Qed.

Lemma keys_set_list (v : vcard) (k : string) (l : list prop) :
  map fst (set_list v k l) = map fst v.
Proof.
  induction v as [|[k' l'] v IH]; simpl; [reflexivity|].
  destruct (String.eqb k k'); simpl; [reflexivity|now rewrite IH].
Qed.

Lemma keys_add (v : vcard) (k x : string) (p : prop) :
  In x (map fst (add v k p)) -> x = k \/ In x (map fst v).
Proof.
  induction v as [|[k' l'] v IH]; simpl; [intros [H|[]]; left; congruence|].
  destruct (String.eqb k k'); simpl; [tauto|].
  intros [H|H]; [right; left; exact H|]. destruct (IH H); tauto.
Qed.

Lemma nodup_add (v : vcard) (k : string) (p : prop) :
  NoDup (map fst v) -> NoDup (map fst (add v k p)).
Proof.
  induction v as [|[k' l'] v IH]; simpl; intros H.
  - constructor; [rewrite list_elem_of_In; intros []|constructor].
  - inversion H as [|? ? Hn Hd]; subst.
    destruct (String.eqb k k') eqn:E; simpl; [constructor; assumption|].
    constructor; [|apply IH; exact Hd].
    rewrite list_elem_of_In in Hn |- *. intros Hin. destruct (keys_add v k k' p Hin) as [->|Hin']; [|tauto].
    rewrite String.eqb_refl in E. discriminate.
Qed.

Lemma keys_del_key (v : vcard) (k x : string) :
  In x (map fst (del_key v k)) -> In x (map fst v).
Proof.
  induction v as [|[k' l'] v IH]; simpl; [tauto|].
  destruct (String.eqb k k'); simpl; [tauto|]. intros [H|H]; [tauto|right; exact (IH H)].
Qed.

Lemma nodup_del_key (v : vcard) (k : string) :
  NoDup (map fst v) -> NoDup (map fst (del_key v k)).
Proof.
  induction v as [|[k' l'] v IH]; simpl; intros H; [constructor|].
  inversion H as [|? ? Hn Hd]; subst. rewrite list_elem_of_In in Hn.
  destruct (String.eqb k k'); simpl; [exact Hd|].
  constructor; [rewrite list_elem_of_In; intros Hin; exact (Hn (keys_del_key v k k' Hin))|exact (IH Hd)].
Qed.

Lemma get_list_del_key_same (v : vcard) (k : string) :
  NoDup (map fst v) -> get_list (del_key v k) k = None.
Proof.
  induction v as [|[k' l'] v IH]; simpl; intros H; [reflexivity|].
  inversion H as [|? ? Hn Hd]; subst. rewrite list_elem_of_In in Hn.
  destruct (String.eqb k k') eqn:E.
  - apply String.eqb_eq in E. subst. apply get_list_none. exact Hn.
  - simpl. rewrite E. exact (IH Hd).
Qed.

Lemma get_list_add_new (v : vcard) (k : string) (p : prop) :
  get_list v k = None -> get_list (add v k p) k = Some [p].
Proof.
  induction v as [|[k' l'] v IH]; simpl; intros H.
  - rewrite String.eqb_refl. reflexivity.
  - destruct (String.eqb k k') eqn:E; [discriminate|]. simpl. rewrite E. exact (IH H).
Qed.

Lemma remove_version_spec (vc v : vcard) :
  NoDup (map fst vc) -> remove_version vc = Ok v ->
  NoDup (map fst v) /\ get_list v "version" = None.
Proof.
  intros Hd H. unfold remove_version, hasattr in H.
  destruct (get_list vc "version") as [[|p l]|] eqn:E; cbn [bind] in H; try discriminate;
    injection H as <-.
  - split; [apply nodup_del_key; exact Hd|apply get_list_del_key_same; exact Hd].
  - split; [exact Hd|exact E].
Qed.

Lemma overwrite_names_spec (v v0 : vcard) :
  NoDup (map fst v) -> overwrite_names false v = Ok v0 ->
  NoDup (map fst v0) /\ get_list v0 "fn" = None /\ get_list v0 "n" = None.
Proof.
  intros Hd H. unfold overwrite_names in H. cbn [negb] in H.
  bind_step H b E. bind_step H b0 E0. injection H as <-.
  assert (Hd1 : NoDup (map fst (if b then del_key v "fn" else v)))
    by (destruct b; [apply nodup_del_key|]; exact Hd).
  assert (Hfn : get_list (if b then del_key v "fn" else v) "fn" = None).
  { destruct b; [apply get_list_del_key_same; exact Hd|].
    unfold hasattr in E. destruct (get_list v "fn") as [[|]|]; congruence. }
  destruct b0.
  - split; [apply nodup_del_key; exact Hd1|].
    split; [rewrite get_list_del_key_other by discriminate; exact Hfn|].
    apply get_list_del_key_same; exact Hd1.
  - split; [exact Hd1|]. split; [exact Hfn|].
    unfold hasattr in E0. destruct (get_list _ "n") as [[|]|]; congruence.
Qed.

Lemma add_missing_names_spec (ft : bool) (sel : string) (v0 v1 : vcard) :
  NoDup (map fst v0) -> get_list v0 "fn" = None -> get_list v0 "n" = None ->
  add_missing_names ft sel v0 = Ok v1 ->
  NoDup (map fst v1) /\ get_list v1 "fn" = Some [mkProp (VStr sel) []] /\
  get_list v1 "n" = Some [mkProp (VName (build_formatted_name ft sel)) []].
Proof.
  intros Hd Hfn Hn H. unfold add_missing_names, hasattr in H.
  rewrite Hfn in H. cbn [bind] in H.
  rewrite get_list_add_other in H by discriminate. rewrite Hn in H. cbn [bind] in H.
  injection H as <-. split; [apply nodup_add, nodup_add; exact Hd|]. split.
  - rewrite get_list_add_other by discriminate. apply get_list_add_new. exact Hfn.
  - apply get_list_add_new. rewrite get_list_add_other by discriminate. exact Hn.
Qed.

Lemma normalize_emails_spec (v2 v3 : vcard) :
  NoDup (map fst v2) -> normalize_emails false v2 = Ok v3 ->
  NoDup (map fst v3) /\
  forall es', get_list v3 "email" = Some es' ->
    exists es, get_list v2 "email" = Some es /\ normalize_email_list false es = Ok es'.
Proof.
  intros Hd H. unfold normalize_emails, hasattr in H.
  destruct (get_list v2 "email") as [[|p l]|] eqn:E; cbn [bind] in H; try discriminate.
  - bind_step H l0 E0. destruct l0 as [|q l0]; injection H as <-.
    + split; [apply nodup_del_key; exact Hd|]. intros es' Hes.
      rewrite get_list_del_key_same in Hes by exact Hd. discriminate.
    + split; [rewrite keys_set_list; exact Hd|]. intros es' Hes.
      rewrite (get_list_set_list_same _ _ _ _ E) in Hes. injection Hes as <-.
      exists (p :: l). split; [reflexivity|exact E0].
  - injection H as <-. split; [exact Hd|]. intros es' Hes. rewrite E in Hes. discriminate.
Qed.

Lemma normalize_tels_spec (ft : bool) (v3 vc' : vcard) :
  NoDup (map fst v3) -> normalize_tels ft v3 = Ok vc' ->
  NoDup (map fst vc') /\ (forall k, k <> "tel" -> get_list vc' k = get_list v3 k) /\
  forall ts', get_list vc' "tel" = Some ts' ->
    exists ts, get_list v3 "tel" = Some ts /\ normalize_tel_list ft ts = Ok ts'.
Proof.
  intros Hd H. unfold normalize_tels, hasattr in H.
  destruct (get_list v3 "tel") as [[|p l]|] eqn:E; cbn [bind] in H; try discriminate.
  - bind_step H l0 E0. injection H as <-.
    split; [rewrite keys_set_list; exact Hd|].
    split; [intros k Hk; apply get_list_set_list_other; exact Hk|].
    intros ts' Hts. rewrite (get_list_set_list_same _ _ _ _ E) in Hts. injection Hts as <-.
    exists (p :: l). split; [reflexivity|exact E0].
  - injection H as <-. split; [exact Hd|]. split; [reflexivity|].
    intros ts' Hts. rewrite E in Hts. discriminate.
Qed.

End VcardKeys.

(** ** Normalization with the default options *)

(** Counterexample to C2: with the default options, the email
    ["x" < a@b >] becomes [ a@b ] (the address is taken out of the wrapped
    display name after the strip, so its spaces stay), the email
    ["x" <foo@nowhere.invalid>] becomes [foo@nowhere.invalid] (the
    placeholder test runs before the display name is removed), and the
    telephone number [01<TAB>23] keeps its tab (only spaces are removed). *)
Lemma normalize_default_counterexample :
  exists vc', normalize false
    [("email", [mkProp (VStr (String "034" ("x" ++ String "034" " < a@b >"))) [];
                mkProp (VStr (String "034" ("x" ++ String "034" " <foo@nowhere.invalid>"))) []]);
     ("tel", [mkProp (VStr ("01" ++ String "009" "23")) []])]
    "Jean Dupont" false false false = Ok vc' /\
  get_list vc' "email" = Some [mkProp (VStr " a@b ") []; mkProp (VStr "foo@nowhere.invalid") []] /\
  get_list vc' "tel" = Some [mkProp (VStr ("01" ++ String "009" "23")) []].
Proof. eexists; split; [|split]; vm_compute; reflexivity. Qed.

(** C2 (amended): on a record whose property names are distinct, a
    successful [normalize] with the default options (names overwritten,
    bracketed parts of names left in place, display names removed from
    emails) gives a record whose property names are distinct, with exactly
    one FN instance (the selected name) and exactly one N instance (built
    from it), and no VERSION.  Every EMAIL value is lowercase and holds no
    wrapped display name; it is stripped and does not end in
    [@nowhere.invalid] unless it is the address taken out of a wrapped
    display name of an input email.  Every TEL value holds no space and no
    whitespace at either end (a tab or newline inside it is kept). *)
Theorem normalize_default_invariants :
  forall (ft : bool) (vc : vcard) (selected_name : string) (vc' : vcard),
  NoDup (map fst vc) ->
  normalize ft vc selected_name false false false = Ok vc' ->
  NoDup (map fst vc') /\
  get_list vc' "fn" = Some [mkProp (VStr selected_name) []] /\
  get_list vc' "n" = Some [mkProp (VName (build_formatted_name ft selected_name)) []] /\
  get_list vc' "version" = None /\
  (forall es', get_list vc' "email" = Some es' ->
     exists es, get_list vc "email" = Some es /\
     Forall (fun e => exists x, value e = VStr x /\ lower x = x /\ name_in_email_match x = None /\
       ((strip x = x /\ endswith x "@nowhere.invalid" = false) \/
        exists p s nm, In p es /\ value p = VStr s /\ name_in_email_match (lower (strip s)) = Some (nm, x)))
       es') /\
  (forall ts', get_list vc' "tel" = Some ts' ->
     Forall (fun t => exists x, value t = VStr x /\ strip x = x /\ has_char " " x = false) ts').
Proof.
  intros ft vc sel vc' Hd H. unfold normalize in H.
  NormalizeFacts.bind_step H v E. NormalizeFacts.bind_step H v0 E0.
  NormalizeFacts.bind_step H v1 E1. NormalizeFacts.bind_step H v2 E2.
  NormalizeFacts.bind_step H v3 E3.
  unfold move_names in E2. injection E2 as <-.
  destruct (VcardKeys.remove_version_spec vc v Hd E) as [Hd1 Hver].
  destruct (VcardKeys.overwrite_names_spec v v0 Hd1 E0) as [Hd2 [Hfn Hn]].
  destruct (VcardKeys.add_missing_names_spec ft sel v0 v1 Hd2 Hfn Hn E1) as [Hd3 [Hfn1 Hn1]].
  destruct (VcardKeys.normalize_emails_spec v1 v3 Hd3 E3) as [Hd4 Hem].
  destruct (VcardKeys.normalize_tels_spec ft v3 vc' Hd4 H) as [Hd5 [Hoth Htel]].
  split; [exact Hd5|].
  split; [rewrite Hoth by discriminate;
          rewrite (NormalizeFacts.normalize_emails_other false v1 v3 "fn" ltac:(discriminate) E3);
          exact Hfn1|].
  split; [rewrite Hoth by discriminate;
          rewrite (NormalizeFacts.normalize_emails_other false v1 v3 "n" ltac:(discriminate) E3);
          exact Hn1|].
  split.
  { rewrite Hoth by discriminate.
    rewrite (NormalizeFacts.normalize_emails_other false v1 v3 "version" ltac:(discriminate) E3).
    rewrite (NormalizeFacts.add_missing_names_other ft sel v0 v1 "version" ltac:(discriminate) ltac:(discriminate) E1).
    rewrite (NormalizeFacts.overwrite_names_other false v v0 "version" ltac:(discriminate) ltac:(discriminate) E0).
    exact Hver. }
  split.
  - intros es' Hes. rewrite Hoth in Hes by discriminate.
    destruct (Hem es' Hes) as [es [Hes1 Hl]]. exists es. split.
    + rewrite (NormalizeFacts.add_missing_names_other ft sel v0 v1 "email" ltac:(discriminate) ltac:(discriminate) E1) in Hes1.
      rewrite (NormalizeFacts.overwrite_names_other false v v0 "email" ltac:(discriminate) ltac:(discriminate) E0) in Hes1.
      rewrite (NormalizeFacts.remove_version_other vc v "email" ltac:(discriminate) E) in Hes1.
      exact Hes1.
    + exact (EmailFacts.normalize_email_list_spec es es' Hl).
  - intros ts' Hts. destruct (Htel ts' Hts) as [ts [_ Hl]].
    apply NormalizeFacts.normalize_tel_list_spec in Hl. clear -Hl.
    induction Hl as [|t t' l l' [s [Hs ->]] _ IH]; [constructor|]. constructor; [|exact IH].
    exists (normalize_tel_value ft s). split; [reflexivity|].
    exact (StrFacts3.normalize_tel_value_clean ft s).
Qed.

Lemma normalize_default_invariants_witness :
  let vc' := [("email", [mkProp (VStr "foo@bar.com") []]);
              ("tel", [mkProp (VStr "0123") []]);
              ("fn", [mkProp (VStr "Jean Dupont") []]);
              ("n", [mkProp (VName (mkName "Dupont" "Jean" "" "" "")) []])] in
  NoDup (map fst vc') /\
  get_list vc' "fn" = Some [mkProp (VStr "Jean Dupont") []] /\
  get_list vc' "n" = Some [mkProp (VName (build_formatted_name false "Jean Dupont")) []] /\
  get_list vc' "version" = None /\
  (forall es', get_list vc' "email" = Some es' ->
     exists es, get_list [("version", [mkProp (VStr "3.0") []]);
                          ("email", [mkProp (VStr " Foo@Bar.com ") []]);
                          ("tel", [mkProp (VStr " 01 23 ") []])] "email" = Some es /\
     Forall (fun e => exists x, value e = VStr x /\ lower x = x /\ name_in_email_match x = None /\
       ((strip x = x /\ endswith x "@nowhere.invalid" = false) \/
        exists p s nm, In p es /\ value p = VStr s /\ name_in_email_match (lower (strip s)) = Some (nm, x)))
       es') /\
  (forall ts', get_list vc' "tel" = Some ts' ->
     Forall (fun t => exists x, value t = VStr x /\ strip x = x /\ has_char " " x = false) ts').
Proof.
  apply (normalize_default_invariants false
           [("version", [mkProp (VStr "3.0") []]);
            ("email", [mkProp (VStr " Foo@Bar.com ") []]);
            ("tel", [mkProp (VStr " 01 23 ") []])] "Jean Dupont").
  - apply (bool_decide_unpack _). vm_compute. reflexivity.
  - vm_compute. reflexivity.
Defined.

(** ** Telephone numbers *)

Lemma normalize_tel_value_french (s : string) :
  let v := remove_char " " (strip s) in
  has_char " " v = false /\ strip v = v /\
  (startswith v "+33" = false -> normalize_tel_value true s = v) /\
  (forall r, v = "+33" ++ r -> contains r "+33" = false -> normalize_tel_value true s = "0" ++ r).
Proof.
  cbv zeta. unfold normalize_tel_value.
  rewrite (StrFacts2.replace_char_empty " " (strip s)).
  repeat split.
  - apply StrFacts2.has_char_remove_char.
  - apply StrFacts.strip_id, StrFacts2.remove_char_ends_ok; [reflexivity|apply StrFacts.strip_ends_ok].
  - intros H. rewrite H. reflexivity.
  - intros r Hv Hr. rewrite Hv, StrFacts.startswith_app_r. simpl andb.
    apply StrFacts.replace_leading; [discriminate|exact Hr].
Qed.

(** Counterexample to C9: with the french tweaks, the value
    [+33 1<TAB>+33] becomes [01<TAB>0]: the tab inside the value is kept
    (only spaces are removed), and the second, non-leading [+33] is
    replaced by [0] too. *)
Lemma normalize_french_tel_counterexample :
  exists vc', normalize true [("tel", [mkProp (VStr ("+33 1" ++ String "009" "+33")) []])]
                "Jean Dupont" false false false = Ok vc' /\
    get_list vc' "tel" = Some [mkProp (VStr ("01" ++ String "009" "0")) []].
Proof. eexists; split; vm_compute; reflexivity. Qed.

(** C9 (amended): with the french tweaks, every [tel] value [s] of the
    record becomes a value whose spaces (U+0020) are all removed and whose
    two ends are stripped of whitespace; writing [v] for [s] stripped and
    without spaces, the new value is [v] when [v] does not start with
    [+33], and ["0" ++ r] when [v] is [+33] followed by a rest [r] that
    holds no other [+33].  The parameters of the line are kept. *)
Theorem normalize_french_tel :
  forall (vc : vcard) (selected_name : string) (d1 d2 d3 : bool) (vc' : vcard)
         (tels : list prop),
  get_list vc "tel" = Some tels ->
  normalize true vc selected_name d1 d2 d3 = Ok vc' ->
  exists tels', get_list vc' "tel" = Some tels' /\
  Forall2 (fun t t' =>
    params t' = params t /\
    exists s s', value t = VStr s /\ value t' = VStr s' /\
      let v := remove_char " " (strip s) in
      has_char " " v = false /\ strip v = v /\
      (startswith v "+33" = false -> s' = v) /\
      (forall r, v = "+33" ++ r -> contains r "+33" = false -> s' = "0" ++ r))
    tels tels'.
Proof.
  intros vc sel d1 d2 d3 vc' tels Htel H.
  destruct (NormalizeFacts.normalize_tel true vc sel d1 d2 d3 vc' tels Htel H) as [tels' [Hl Hg]].
  exists tels'; split; [exact Hg|].
  apply NormalizeFacts.normalize_tel_list_spec in Hl.
  clear Htel Hg H. induction Hl as [|t t' l l' [s [Hs ->]] _ IH]; [constructor|].
  constructor; [|exact IH]. simpl. split; [reflexivity|].
  exists s, (normalize_tel_value true s). split; [exact Hs|]. split; [reflexivity|].
  exact (normalize_tel_value_french s).
Qed.

Lemma normalize_french_tel_witness :
  exists tels', get_list [("tel", [mkProp (VStr "0612345678") []]); ("fn", [mkProp (VStr "Jean Dupont") []]);
                          ("n", [mkProp (VName (mkName "Dupont" "Jean" "" "" "")) []])] "tel" = Some tels' /\
  Forall2 (fun t t' =>
    params t' = params t /\
    exists s s', value t = VStr s /\ value t' = VStr s' /\
      let v := remove_char " " (strip s) in
      has_char " " v = false /\ strip v = v /\
      (startswith v "+33" = false -> s' = v) /\
      (forall r, v = "+33" ++ r -> contains r "+33" = false -> s' = "0" ++ r))
    [mkProp (VStr "+33 6 12 34 56 78") []] tels'.
Proof.
  apply (normalize_french_tel [("tel", [mkProp (VStr "+33 6 12 34 56 78") []])] "Jean Dupont" false false false);
    vm_compute; reflexivity.
Defined.

(** ** [sanitize_name] *)

Module SanitizeFacts.
Import StrFacts StrFacts2.

(** *** Characters *)

Lemma to_upper_idem (c : ascii) : to_upper (to_upper c) = to_upper c.
Proof. destruct c as [[] [] [] [] [] [] [] []]; reflexivity. Qed.
Lemma to_upper_to_lower (c : ascii) : to_upper (to_lower c) = to_upper c.
Proof. destruct c as [[] [] [] [] [] [] [] []]; reflexivity. Qed.
Lemma is_alpha_to_lower (c : ascii) : is_alpha (to_lower c) = is_alpha c.
Proof. destruct c as [[] [] [] [] [] [] [] []]; reflexivity. Qed.
Lemma is_alpha_to_upper (c : ascii) : is_alpha (to_upper c) = is_alpha c.
Proof. destruct c as [[] [] [] [] [] [] [] []]; reflexivity. Qed.
Lemma to_upper_nonalpha (c : ascii) : is_alpha c = false -> to_upper c = c.
Proof. destruct c as [[] [] [] [] [] [] [] []]; first [reflexivity | discriminate]. Qed.
Lemma to_lower_to_lower (c : ascii) : to_lower (to_lower c) = to_lower c.
Proof. destruct c as [[] [] [] [] [] [] [] []]; reflexivity. Qed.
Lemma is_space_to_upper (c : ascii) : is_space (to_upper c) = is_space c.
Proof. destruct c as [[] [] [] [] [] [] [] []]; reflexivity. Qed.
Lemma is_word_to_upper (c : ascii) : is_word (to_upper c) = is_word c.
Proof. destruct c as [[] [] [] [] [] [] [] []]; reflexivity. Qed.
Lemma is_digit_to_upper (c : ascii) : is_digit (to_upper c) = is_digit c.
Proof. destruct c as [[] [] [] [] [] [] [] []]; reflexivity. Qed.
Lemma is_digit_word (c : ascii) : is_digit c = true -> is_word c = true.
Proof. destruct c as [[] [] [] [] [] [] [] []]; first [reflexivity | discriminate]. Qed.
Lemma nonword_not_ice (c : ascii) :
  is_word c = false ->
  (to_upper c =? "I")%char = false /\ (to_upper c =? "C")%char = false /\ (to_upper c =? "E")%char = false.
Proof.
  destruct c as [[] [] [] [] [] [] [] []]; intros H;
    first [discriminate H | split; [reflexivity|split; reflexivity]].
Qed.
Lemma space_nonword (c : ascii) : is_space c = true -> is_word c = false.
Proof. destruct c as [[] [] [] [] [] [] [] []]; first [reflexivity | discriminate]. Qed.
Lemma space_nondigit (c : ascii) : is_space c = true -> is_digit c = false.
Proof. destruct c as [[] [] [] [] [] [] [] []]; first [reflexivity | discriminate]. Qed.

(** A non-letter is its own upper case, and no letter's. *)
Lemma to_upper_eq_nonalpha (c d : ascii) : is_alpha d = false -> (to_upper c =? d)%char = (c =? d)%char.
Proof.
  intros Hd. destruct (is_alpha c) eqn:Hc.
  - destruct (to_upper c =? d)%char eqn:E1.
    + apply Ascii.eqb_eq in E1. subst d. rewrite is_alpha_to_upper in Hd. congruence.
    + destruct (c =? d)%char eqn:E2; [|reflexivity].
      apply Ascii.eqb_eq in E2. subst d. congruence.
  - rewrite to_upper_nonalpha by exact Hc. reflexivity.
Qed.

(** *** [upper] and [title] *)

Lemma upper_app (s t : string) : upper (s ++ t) = upper s ++ upper t.
Proof. induction s as [|c s IH]; [reflexivity|]. change (String (to_upper c) (upper (s ++ t)) = String (to_upper c) (upper s ++ upper t)). now rewrite IH. Qed.

Lemma upper_title_go (b : bool) (s : string) : upper (title_go b s) = upper s.
Proof.
  revert b. induction s as [|c s IH]; intros b; [reflexivity|].
  simpl title_go. change (String (to_upper (if b then to_lower c else to_upper c))
                            (upper (title_go (is_alpha (if b then to_lower c else to_upper c)) s))
                          = String (to_upper c) (upper s)).
  rewrite IH. destruct b; [rewrite to_upper_to_lower|rewrite to_upper_idem]; reflexivity.
Qed.

Lemma title_go_idem (b : bool) (s : string) : title_go b (title_go b s) = title_go b s.
Proof.
  revert b. induction s as [|c s IH]; intros b; [reflexivity|].
  simpl. destruct b.
  - rewrite to_lower_to_lower. f_equal. apply IH.
  - rewrite to_upper_idem. f_equal. apply IH.
Qed.

Lemma has_char_upper (d : ascii) (s : string) :
  is_alpha d = false -> has_char d (upper s) = has_char d s.
Proof.
  intros Hd. induction s as [|c s IH]; [reflexivity|].
  change ((d =? to_upper c)%char || has_char d (upper s) = (d =? c)%char || has_char d s).
  rewrite IH, Ascii.eqb_sym, to_upper_eq_nonalpha by exact Hd. rewrite Ascii.eqb_sym. reflexivity.
Qed.

Lemma has_char_title (d : ascii) (s : string) :
  is_alpha d = false -> has_char d (title s) = has_char d s.
Proof.
  intros Hd. rewrite <- (has_char_upper d (title s) Hd), <- (has_char_upper d s Hd).
  unfold title. rewrite upper_title_go. reflexivity.
Qed.

Lemma startswith_upper (s p : string) :
  (forall c, has_char c p = true -> is_alpha c = false) ->
  startswith (upper s) p = startswith s p.
Proof.
  revert s. induction p as [|a p IH]; intros s Hp; [destruct s; reflexivity|].
  destruct s as [|c s]; [reflexivity|].
  change ((a =? to_upper c)%char && startswith (upper s) p = (a =? c)%char && startswith s p).
  rewrite IH by (intros x Hx; apply Hp; simpl; rewrite Hx; apply orb_true_r).
  rewrite Ascii.eqb_sym, to_upper_eq_nonalpha, Ascii.eqb_sym; [reflexivity|].
  apply Hp. simpl. rewrite Ascii.eqb_refl. reflexivity.
Qed.

Lemma contains_upper (s p : string) :
  (forall c, has_char c p = true -> is_alpha c = false) ->
  contains (upper s) p = contains s p.
Proof.
  intros Hp. induction s as [|c s IH].
  - reflexivity.
  - change (startswith (upper (String c s)) p || contains (upper s) p =
            startswith (String c s) p || contains s p).
    rewrite startswith_upper by exact Hp. rewrite IH. reflexivity.
Qed.

Lemma has_char_spaces (c : ascii) (n : nat) : has_char c (spaces n) = true -> c = " "%char.
Proof.
  induction n as [|n IH]; simpl; [discriminate|].
  intros H. apply orb_true_iff in H as [H|H]; [apply Ascii.eqb_eq in H; exact H|exact (IH H)].
Qed.

Lemma contains_title_spaces (s : string) (n : nat) :
  contains (title s) (spaces n) = contains s (spaces n).
Proof.
  assert (Hp : forall c, has_char c (spaces n) = true -> is_alpha c = false)
    by (intros c Hc; rewrite (has_char_spaces c n Hc); reflexivity).
  rewrite <- (contains_upper (title s) _ Hp), <- (contains_upper s _ Hp).
  unfold title. rewrite upper_title_go. reflexivity.
Qed.

Lemma first_opt_upper (s : string) : first_opt (upper s) = option_map to_upper (first_opt s).
Proof. destruct s; reflexivity. Qed.

Lemma last_opt_upper (s : string) : last_opt (upper s) = option_map to_upper (last_opt s).
Proof.
  induction s as [|c s IH]; [reflexivity|].
  destruct s as [|d s]; [reflexivity|].
  change (last_opt (String (to_upper c) (upper (String d s))) = option_map to_upper (last_opt (String d s))).
  rewrite <- IH. reflexivity.
Qed.

Lemma ends_ok_upper (s : string) : ends_ok (upper s) <-> ends_ok s.
Proof.
  unfold ends_ok. rewrite first_opt_upper, last_opt_upper. split.
  - intros H c Hc. rewrite <- is_space_to_upper. apply H.
    destruct Hc as [Hc|Hc]; rewrite Hc; auto.
  - intros H c Hc. destruct Hc as [Hc|Hc].
    + destruct (first_opt s) as [x|] eqn:E; [|discriminate]. injection Hc as <-.
      rewrite is_space_to_upper. apply H. left. first [exact E | reflexivity].
    + destruct (last_opt s) as [x|] eqn:E; [|discriminate]. injection Hc as <-.
      rewrite is_space_to_upper. apply H. right. first [exact E | reflexivity].
Qed.

Lemma ends_ok_title (s : string) : ends_ok s -> ends_ok (title s).
Proof.
  intros H. apply ends_ok_upper. unfold title. rewrite upper_title_go. apply ends_ok_upper. exact H.
Qed.

(** *** [strip] keeps a part of its argument *)

Lemma app_assoc_str (s t u : string) : s ++ (t ++ u) = (s ++ t) ++ u.
Proof. induction s as [|c s IH]; [reflexivity|]. change (String c (s ++ (t ++ u)) = String c ((s ++ t) ++ u)). now rewrite IH. Qed.

Lemma contains_app_l (s t p : string) : contains s p = true -> contains (s ++ t) p = true.
Proof.
  induction s as [|c s IH]; intros H.
  - destruct p; [destruct t; reflexivity|discriminate].
  - change (startswith (String c (s ++ t)) p || contains (s ++ t) p = true).
    change (startswith (String c s) p || contains s p = true) in H.
    apply orb_true_iff in H as [H|H]; [|rewrite (IH H); apply orb_true_r].
    apply orb_true_iff; left. change (String c (s ++ t)) with (String c s ++ t).
    destruct (startswith_app _ _ H) as [r ->]. rewrite <- app_assoc_str. apply startswith_app_r.
Qed.

Lemma contains_app_r (s t p : string) : contains t p = true -> contains (s ++ t) p = true.
Proof.
  induction s as [|c s IH]; intros H; [exact H|].
  change (startswith (String c (s ++ t)) p || contains (s ++ t) p = true).
  rewrite (IH H). apply orb_true_r.
Qed.

Lemma lstrip_suffix (s : string) : exists w, s = w ++ lstrip s.
Proof.
  induction s as [|c s [w Hw]]; [exists ""; reflexivity|].
  simpl. destruct (is_space c).
  - exists (String c w). change (String c s = String c (w ++ lstrip s)). now rewrite <- Hw.
  - exists "". reflexivity.
Qed.

Lemma rstrip_prefix (s : string) :
  exists w, s = rstrip s ++ w /\ forall c, has_char c w = true -> is_space c = true.
Proof.
  induction s as [|c s [w [Hw Hsp]]]; [exists ""; split; [reflexivity|discriminate]|].
  simpl. destruct (rstrip s) as [|d r] eqn:E.
  - destruct (is_space c) eqn:Hc.
    + exists (String c w). split; [change (String c s = String c w); f_equal; exact Hw|].
      intros x Hx. simpl in Hx. apply orb_true_iff in Hx as [Hx|Hx];
        [apply Ascii.eqb_eq in Hx; subst; exact Hc|exact (Hsp x Hx)].
    + exists w. split; [change (String c s = String c w); f_equal; exact Hw|exact Hsp].
  - exists w. split; [change (String c s = String c (String d r ++ w)); f_equal; exact Hw|exact Hsp].
Qed.

Lemma contains_strip (s p : string) : contains (strip s) p = true -> contains s p = true.
Proof.
  unfold strip. intros H.
  destruct (rstrip_prefix (lstrip s)) as [w [Hw _]].
  destruct (lstrip_suffix s) as [u Hu].
  rewrite Hu. apply contains_app_r. rewrite Hw. apply contains_app_l. exact H.
Qed.

Lemma has_char_contains (c : ascii) (s : string) : contains s (String c "") = has_char c s.
Proof.
  induction s as [|d s IH]; [reflexivity|].
  change (startswith (String d s) (String c "") || contains s (String c "") = (c =? d)%char || has_char c s).
  rewrite IH. simpl. replace (startswith s "") with true by (destruct s; reflexivity).
  rewrite andb_true_r. reflexivity.
Qed.

Lemma has_char_strip (c : ascii) (s : string) : has_char c (strip s) = true -> has_char c s = true.
Proof. rewrite <- !has_char_contains. apply contains_strip. Qed.

End SanitizeFacts.

Module SanitizeFacts2.
Import StrFacts StrFacts3 SanitizeFacts.

Lemma space_eqb_false (c : ascii) : (c =? " ")%char = false -> (" " =? c)%char = false.
Proof. intros H. rewrite Ascii.eqb_sym. exact H. Qed.

Ltac strong_ind s n IH :=
  let Hn := fresh "Hn" in
  remember (String.length s) as n eqn:Hn; revert s Hn;
  induction n as [n IH] using (well_founded_induction lt_wf); intros s Hn.

(** *** [replace "  " " "] is [halve] *)

Lemma replace_go_halve (f : nat) (s : string) :
  String.length s <= f -> replace_go f "  " " " s = halve s.
Proof.
  revert s. induction f as [|f IH]; intros s Hle.
  - destruct s; [reflexivity|simpl in Hle; lia].
  - destruct s as [|c s']; [reflexivity|]. simpl in Hle. cbn [replace_go halve].
    destruct (c =? " ")%char eqn:Ec.
    + apply Ascii.eqb_eq in Ec. subst c.
      destruct s' as [|d s''].
      * destruct f; reflexivity.
      * destruct (d =? " ")%char eqn:Ed.
        -- apply Ascii.eqb_eq in Ed. subst d. simpl in Hle.
           replace (startswith (String " " (String " " s'')) "  ") with true
             by (destruct s''; reflexivity).
           cbn [substring String.length].
           rewrite substring_0_full by lia. rewrite IH by lia. reflexivity.
        -- replace (startswith (String " " (String d s'')) "  ") with false
             by (cbn [startswith]; rewrite (space_eqb_false _ Ed), andb_false_l, andb_false_r; reflexivity).
           rewrite IH by lia. reflexivity.
    + replace (startswith (String c s') "  ") with false
        by (cbn [startswith]; rewrite (space_eqb_false _ Ec); reflexivity).
      rewrite IH by lia. reflexivity.
Qed.

Lemma replace_halve (s : string) : replace "  " " " s = halve s.
Proof. apply replace_go_halve. lia. Qed.

Lemma halve_nonspace (c : ascii) (r : string) :
  (c =? " ")%char = false -> halve (String c r) = String c (halve r).
Proof. intros Hc. simpl. rewrite Hc. reflexivity. Qed.

Lemma halve_space (r : string) : exists z, halve (String " " r) = String " " z.
Proof.
  simpl. destruct r as [|d r]; [eexists; reflexivity|].
  destruct (d =? " ")%char; eexists; reflexivity.
Qed.

Lemma halve_space_nonspace (d : ascii) (r : string) :
  (d =? " ")%char = false -> halve (String " " (String d r)) = String " " (halve (String d r)).
Proof. intros H. cbn [halve]. rewrite H. reflexivity. Qed.

Lemma halve_first (s : string) : first_opt (halve s) = first_opt s.
Proof.
  destruct s as [|c s]; [reflexivity|].
  destruct (c =? " ")%char eqn:Ec.
  - apply Ascii.eqb_eq in Ec. subst. destruct (halve_space s) as [z ->]. reflexivity.
  - rewrite halve_nonspace by exact Ec. reflexivity.
Qed.

(** *** Runs of spaces *)

Lemma startswith_halve_spaces (r : string) (j : nat) :
  startswith (halve r) (spaces (S j)) = true -> startswith r (spaces (S (2 * j))) = true.
Proof.
  revert j. strong_ind r n IH. intros j H.
  destruct r as [|c r']; [discriminate|].
  destruct (c =? " ")%char eqn:Ec.
  2:{ rewrite halve_nonspace in H by exact Ec. cbn [startswith spaces] in H. rewrite (space_eqb_false _ Ec) in H. discriminate. }
  apply Ascii.eqb_eq in Ec. subst c.
  destruct r' as [|d r''].
  - simpl in H. destruct j; [reflexivity|destruct j; discriminate].
  - destruct (d =? " ")%char eqn:Ed.
    + apply Ascii.eqb_eq in Ed. subst d.
      change (halve (String " " (String " " r''))) with (String " " (halve r'')) in H.
      change (startswith (halve r'') (spaces j) = true) in H.
      destruct j as [|j]; [reflexivity|].
      assert (Hr : startswith r'' (spaces (S (2 * j))) = true)
        by (apply (IH (String.length r'')); [simpl in Hn; lia|reflexivity|exact H]).
      replace (2 * S j) with (S (S (2 * j))) by lia. exact Hr.
    + rewrite (halve_space_nonspace d r'' Ed) in H.
      rewrite halve_nonspace in H by exact Ed.
      destruct j as [|j]; [reflexivity|].
      cbn [startswith spaces] in H. rewrite (space_eqb_false _ Ed), ?andb_false_l, ?andb_false_r in H. discriminate.
Qed.

Lemma contains_cons_r (c : ascii) (s p : string) : contains s p = true -> contains (String c s) p = true.
Proof. intros H. change (startswith (String c s) p || contains s p = true). rewrite H. apply orb_true_r. Qed.

Lemma startswith_contains (s p : string) : startswith s p = true -> contains s p = true.
Proof. intros H. destruct s; cbn [contains]; rewrite H; reflexivity. Qed.

Lemma contains_halve_spaces (y : string) (k : nat) :
  contains (halve y) (spaces (S k)) = true -> contains y (spaces (S (2 * k))) = true.
Proof.
  revert k. strong_ind y n IH. intros k H.
  destruct y as [|c y']; [discriminate|].
  destruct (c =? " ")%char eqn:Ec.
  - apply Ascii.eqb_eq in Ec. subst c.
    destruct y' as [|d r].
    + simpl in H. destruct k; [reflexivity|discriminate].
    + destruct (d =? " ")%char eqn:Ed.
      * apply Ascii.eqb_eq in Ed. subst d.
        change (halve (String " " (String " " r))) with (String " " (halve r)) in H.
        change (startswith (String " " (halve r)) (spaces (S k)) || contains (halve r) (spaces (S k)) = true) in H.
        apply orb_true_iff in H as [H|H].
        -- change (startswith (halve r) (spaces k) = true) in H.
           apply startswith_contains. destruct k as [|k]; [reflexivity|].
           apply startswith_halve_spaces in H.
           replace (2 * S k) with (S (S (2 * k))) by lia. exact H.
        -- apply contains_cons_r, contains_cons_r.
           apply (IH (String.length r)); [simpl in Hn; lia|reflexivity|exact H].
      * rewrite (halve_space_nonspace d r Ed) in H.
        change (startswith (String " " (halve (String d r))) (spaces (S k)) ||
                contains (halve (String d r)) (spaces (S k)) = true) in H.
        apply orb_true_iff in H as [H|H].
        -- destruct k as [|k]; [reflexivity|].
           rewrite halve_nonspace in H by exact Ed. cbn [startswith spaces] in H. rewrite (space_eqb_false _ Ed), ?andb_false_l, ?andb_false_r in H. discriminate.
        -- apply contains_cons_r.
           apply (IH (String.length (String d r))); [simpl in Hn |- *; lia|reflexivity|exact H].
  - rewrite halve_nonspace in H by exact Ec.
    change (startswith (String c (halve y')) (spaces (S k)) || contains (halve y') (spaces (S k)) = true) in H.
    apply orb_true_iff in H as [H|H].
    + cbn [startswith spaces] in H. rewrite (space_eqb_false _ Ec) in H. discriminate.
    + apply contains_cons_r. apply (IH (String.length y')); [simpl in Hn; lia|reflexivity|exact H].
Qed.

(** After two passes of [replace "  " " "], no two spaces are adjacent,
    unless five were. *)
Lemma no_double_space (y : string) :
  contains y (spaces 5) = false -> contains (halve (halve y)) (spaces 2) = false.
Proof.
  intros H. destruct (contains (halve (halve y)) (spaces 2)) eqn:E; [|reflexivity].
  apply (contains_halve_spaces (halve y) 1) in E. apply (contains_halve_spaces y 2) in E.
  change (contains y (spaces 5) = true) in E. rewrite E in H. discriminate.
Qed.

(** *** Dots *)

Lemma replace_dot (s : string) : replace "." " " s = map_chars dot_to_space s.
Proof.
  unfold replace. remember (String.length s) as f eqn:Hf.
  assert (Hle : String.length s <= f) by lia. clear Hf. revert s Hle.
  induction f as [|f IH]; intros s Hle.
  - destruct s; [reflexivity|simpl in Hle; lia].
  - destruct s as [|d s]; [reflexivity|]. simpl in Hle. cbn [replace_go map_chars].
    cbn [startswith].
    replace (startswith s "") with true by (destruct s; reflexivity).
    rewrite andb_true_r. unfold dot_to_space at 1. rewrite (Ascii.eqb_sym d).
    destruct ("." =? d)%char.
    + change (substring (String.length ".") (String.length (String d s)) (String d s))
        with (substring 0 (String.length (String d s)) s).
      rewrite substring_0_full by (simpl; lia). change (" " ++ ?x) with (String " " x).
      f_equal. apply IH. lia.
    + f_equal. apply IH. lia.
Qed.

Lemma has_char_dot_to_space (s : string) : has_char "." (map_chars dot_to_space s) = false.
Proof.
  induction s as [|c s IH]; [reflexivity|]. cbn [has_char map_chars]. rewrite IH, orb_false_r.
  unfold dot_to_space. destruct (c =? ".")%char eqn:E; [reflexivity|].
  rewrite Ascii.eqb_sym. exact E.
Qed.

(** *** [no_ice] under the transformations of [sanitize_name] *)

Lemma no_ice_cons (b : bool) (c : ascii) (s : string) :
  no_ice b (String c s) = (b || none_b (ice_match (String c s))) && no_ice (is_word c) s.
Proof. reflexivity. Qed.

Lemma ice_match_nonword (c : ascii) (x : string) : is_word c = false -> ice_match (String c x) = None.
Proof.
  intros Hc. destruct (nonword_not_ice c Hc) as [HI _].
  destruct x as [|c2 [|e rest]]; [reflexivity|reflexivity|]. simpl. rewrite HI. reflexivity.
Qed.

Section CharMap.
Variable h : ascii -> ascii.
Hypothesis Hw : forall c, is_word (h c) = is_word c.
Hypothesis Hd : forall c, is_digit (h c) = is_digit c.
Hypothesis Hu : forall c, is_word c = true -> to_upper (h c) = to_upper c.

Lemma eqb_ice_map (c : ascii) :
  (to_upper (h c) =? "I")%char = (to_upper c =? "I")%char /\
  (to_upper (h c) =? "C")%char = (to_upper c =? "C")%char /\
  (to_upper (h c) =? "E")%char = (to_upper c =? "E")%char.
Proof.
  destruct (is_word c) eqn:E.
  - rewrite (Hu c E). auto.
  - assert (E' : is_word (h c) = false) by (rewrite Hw; exact E).
    destruct (nonword_not_ice c E) as (H1 & H2 & H3).
    destruct (nonword_not_ice (h c) E') as (H1' & H2' & H3').
    rewrite H1, H2, H3, H1', H2', H3'. auto.
Qed.

Lemma after_digits_map (t : string) :
  none_b (ice_after_digits (map_chars h t)) = none_b (ice_after_digits t).
Proof.
  induction t as [|d t IH]; [reflexivity|]. simpl.
  rewrite Hd, Hw. destruct (is_digit d); [exact IH|]. destruct (is_word d); reflexivity.
Qed.

Lemma ice_match_map (x : string) : none_b (ice_match (map_chars h x)) = none_b (ice_match x).
Proof.
  destruct x as [|i [|c [|e rest]]]; [reflexivity|reflexivity|reflexivity|].
  simpl. destruct (eqb_ice_map i) as [-> _]. destruct (eqb_ice_map c) as [_ [-> _]].
  destruct (eqb_ice_map e) as [_ [_ ->]].
  destruct ((to_upper i =? "I")%char && (to_upper c =? "C")%char && (to_upper e =? "E")%char);
    [apply after_digits_map|reflexivity].
Qed.

Lemma no_ice_map (b : bool) (x : string) : no_ice b (map_chars h x) = no_ice b x.
Proof.
  revert b. induction x as [|c x IH]; intros b; [reflexivity|].
  change (map_chars h (String c x)) with (String (h c) (map_chars h x)).
  rewrite !no_ice_cons. change (String (h c) (map_chars h x)) with (map_chars h (String c x)).
  rewrite ice_match_map, Hw, IH. reflexivity.
Qed.

End CharMap.

Lemma no_ice_upper (b : bool) (x : string) : no_ice b (upper x) = no_ice b x.
Proof.
  apply no_ice_map; [exact is_word_to_upper|exact is_digit_to_upper|intros c _; apply to_upper_idem].
Qed.

Lemma no_ice_title (x : string) : no_ice false (title x) = no_ice false x.
Proof.
  rewrite <- (no_ice_upper false (title x)), <- (no_ice_upper false x).
  unfold title. rewrite upper_title_go. reflexivity.
Qed.

Lemma no_ice_dot (b : bool) (x : string) : no_ice b (map_chars dot_to_space x) = no_ice b x.
Proof.
  apply no_ice_map; intros c; unfold dot_to_space;
    destruct c as [[] [] [] [] [] [] [] []]; try reflexivity; discriminate.
Qed.

Lemma after_digits_app_ws (t w : string) :
  (forall c, has_char c w = true -> is_space c = true) ->
  ice_after_digits (t ++ w) = None -> ice_after_digits t = None.
Proof.
  intros Hw. induction t as [|d t IH]; intros H.
  - destruct w as [|x w]; [discriminate|]. simpl in H.
    assert (Hx : is_space x = true) by (apply Hw; simpl; rewrite Ascii.eqb_refl; reflexivity).
    rewrite (space_nondigit x Hx), (space_nonword x Hx) in H. discriminate.
  - simpl in H |- *. destruct (is_digit d); [exact (IH H)|]. destruct (is_word d); [reflexivity|discriminate].
Qed.

Lemma ice_match_app_ws (x w : string) :
  (forall c, has_char c w = true -> is_space c = true) ->
  ice_match (x ++ w) = None -> ice_match x = None.
Proof.
  intros Hw H. destruct x as [|i [|c [|e rest]]]; try reflexivity.
  change (ice_match (String i (String c (String e (rest ++ w)))) = None) in H.
  simpl in H |- *.
  destruct ((to_upper i =? "I")%char && (to_upper c =? "C")%char && (to_upper e =? "E")%char);
    [exact (after_digits_app_ws rest w Hw H)|reflexivity].
Qed.

Lemma no_ice_app_ws (b : bool) (x w : string) :
  (forall c, has_char c w = true -> is_space c = true) ->
  no_ice b (x ++ w) = true -> no_ice b x = true.
Proof.
  intros Hw. revert b. induction x as [|c x IH]; intros b H; [reflexivity|].
  change (no_ice b (String c (x ++ w)) = true) in H. rewrite no_ice_cons in H |- *.
  apply andb_prop in H as [H1 H2]. rewrite (IH _ H2), andb_true_r.
  destruct b; [reflexivity|]. cbn [orb none_b] in H1 |- *.
  destruct (ice_match (String c (x ++ w))) eqn:E; [discriminate|].
  change (String c (x ++ w)) with (String c x ++ w) in E.
  rewrite (ice_match_app_ws _ _ Hw E). reflexivity.
Qed.

Lemma no_ice_strip (x : string) : no_ice false x = true -> no_ice false (strip x) = true.
Proof.
  intros H. unfold strip.
  assert (Hl : no_ice false (lstrip x) = true).
  { induction x as [|c x IH]; [reflexivity|]. simpl lstrip.
    destruct (is_space c) eqn:Hc; [|exact H].
    apply IH. rewrite no_ice_cons, (space_nonword c Hc) in H. apply andb_prop in H as [_ H]. exact H. }
  destruct (rstrip_prefix (lstrip x)) as [w [Hw Hsp]].
  rewrite Hw in Hl. exact (no_ice_app_ws _ _ _ Hsp Hl).
Qed.

Lemma after_digits_halve (t : string) :
  none_b (ice_after_digits (halve t)) = none_b (ice_after_digits t).
Proof.
  induction t as [|d t IH]; [reflexivity|].
  destruct (d =? " ")%char eqn:Ed.
  - apply Ascii.eqb_eq in Ed. subst. destruct (halve_space t) as [z ->]. reflexivity.
  - rewrite halve_nonspace by exact Ed. simpl.
    destruct (is_digit d); [exact IH|]. destruct (is_word d); reflexivity.
Qed.

Lemma ice_match_halve (x : string) : none_b (ice_match (halve x)) = none_b (ice_match x).
Proof.
  destruct x as [|i r]; [reflexivity|].
  destruct (i =? " ")%char eqn:Ei.
  { apply Ascii.eqb_eq in Ei. subst. destruct (halve_space r) as [z ->].
    rewrite !ice_match_nonword by reflexivity. reflexivity. }
  rewrite halve_nonspace by exact Ei.
  destruct r as [|c r]; [reflexivity|].
  destruct (c =? " ")%char eqn:Ec.
  { apply Ascii.eqb_eq in Ec. subst. destruct (halve_space r) as [z ->].
    destruct z as [|e z]; destruct r as [|e' r]; try reflexivity; simpl;
      rewrite andb_false_r; reflexivity. }
  rewrite halve_nonspace by exact Ec.
  destruct r as [|e r]; [reflexivity|].
  destruct (e =? " ")%char eqn:Ee.
  { apply Ascii.eqb_eq in Ee. subst. destruct (halve_space r) as [z ->].
    simpl. rewrite andb_false_r. reflexivity. }
  rewrite halve_nonspace by exact Ee. simpl.
  destruct ((to_upper i =? "I")%char && (to_upper c =? "C")%char && (to_upper e =? "E")%char);
    [apply after_digits_halve|reflexivity].
Qed.

Lemma no_ice_halve (b : bool) (y : string) : no_ice b y = true -> no_ice b (halve y) = true.
Proof.
  revert b. strong_ind y n IH. intros b H.
  destruct y as [|c y']; [reflexivity|].
  destruct (c =? " ")%char eqn:Ec.
  - apply Ascii.eqb_eq in Ec. subst c.
    rewrite no_ice_cons in H. apply andb_prop in H as [_ H]. simpl is_word in H.
    destruct y' as [|d r]; [destruct b; reflexivity|].
    destruct (d =? " ")%char eqn:Ed.
    + apply Ascii.eqb_eq in Ed. subst d.
      change (halve (String " " (String " " r))) with (String " " (halve r)).
      rewrite no_ice_cons, ice_match_nonword by reflexivity. simpl is_word.
      rewrite no_ice_cons in H. apply andb_prop in H as [_ H]. simpl is_word in H.
      rewrite orb_true_r, andb_true_l.
      apply (IH (String.length r)); [simpl in Hn; lia|reflexivity|exact H].
    + rewrite (halve_space_nonspace d r Ed).
      rewrite no_ice_cons, ice_match_nonword by reflexivity. simpl is_word.
      rewrite orb_true_r, andb_true_l.
      apply (IH (String.length (String d r))); [simpl in Hn |- *; lia|reflexivity|exact H].
  - rewrite halve_nonspace by exact Ec.
    rewrite no_ice_cons in H |- *. apply andb_prop in H as [H1 H2].
    apply andb_true_intro. split.
    + rewrite <- halve_nonspace by exact Ec. rewrite ice_match_halve. exact H1.
    + apply (IH (String.length y')); [simpl in Hn; lia|reflexivity|exact H2].
Qed.

End SanitizeFacts2.

Module SanitizeFacts3.
Import StrFacts StrFacts3 SanitizeFacts SanitizeFacts2 EmailFacts.

(** *** [REGEX_ICE.sub] *)

Lemma after_digits_some (t rest : string) :
  ice_after_digits t = Some rest ->
  (rest = EmptyString \/ exists d r, rest = String d r /\ is_word d = false) /\
  (forall c, has_char c rest = true -> has_char c t = true).
Proof.
  revert rest. induction t as [|d t IH]; intros rest H.
  - injection H as <-. split; [left; reflexivity|discriminate].
  - cbn [ice_after_digits] in H. destruct (is_digit d) eqn:Dd.
    + destruct (IH rest H) as [Hs Hc]. split; [exact Hs|].
      intros c Hr. cbn [has_char]. rewrite (Hc c Hr). apply orb_true_r.
    + destruct (is_word d) eqn:Wd; [discriminate|]. injection H as <-.
      split; [right; exists d, t; split; [reflexivity|exact Wd]|auto].
Qed.

Lemma ice_match_some (s rest : string) :
  ice_match s = Some rest ->
  (rest = EmptyString \/ exists d r, rest = String d r /\ is_word d = false) /\
  (forall c, has_char c rest = true -> has_char c s = true) /\
  String.length rest < String.length s.
Proof.
  intros H. destruct s as [|i [|c [|e t]]]; try discriminate.
  unfold ice_match in H.
  destruct ((to_upper i =? "I")%char && (to_upper c =? "C")%char && (to_upper e =? "E")%char);
    [|discriminate].
  destruct (after_digits_some t rest H) as [Hs Hc]. split; [exact Hs|split].
  - intros x Hx. cbn [has_char]. rewrite (Hc x Hx), !orb_true_r. reflexivity.
  - assert (Hl : forall u v, ice_after_digits u = Some v -> String.length v <= String.length u).
    { clear. induction u as [|d u IH]; intros v Hv; cbn [ice_after_digits] in Hv.
      - injection Hv as <-. reflexivity.
      - destruct (is_digit d); [simpl; specialize (IH v Hv); lia|].
        destruct (is_word d); [discriminate|]. injection Hv as <-. reflexivity. }
    specialize (Hl t rest H). simpl. lia.
Qed.

Lemma ice_sub_go_has_char (f : nat) (b : bool) (s : string) (c : ascii) :
  has_char c (ice_sub_go f b s) = true -> has_char c s = true.
Proof.
  revert b s. induction f as [|f IH]; intros b s H; [exact H|].
  destruct s as [|d s]; [exact H|]. cbn [ice_sub_go] in H.
  destruct (if b then None else ice_match (String d s)) as [rest|] eqn:E.
  - apply IH in H. destruct b; [discriminate|].
    destruct (ice_match_some _ _ E) as (_ & Hc & _). exact (Hc c H).
  - cbn [has_char] in H |- *. apply orb_true_iff in H as [H|H].
    + rewrite H. reflexivity.
    + rewrite (IH _ _ H). apply orb_true_r.
Qed.

Lemma ice_sub_go_no_ice (f : nat) (b : bool) (s : string) :
  no_ice b s = true -> ice_sub_go f b s = s.
Proof.
  revert b s. induction f as [|f IH]; intros b s H; [reflexivity|].
  destruct s as [|c s]; [reflexivity|]. cbn [ice_sub_go].
  rewrite no_ice_cons in H. apply andb_prop in H as [H1 H2].
  destruct b.
  - rewrite IH by exact H2. reflexivity.
  - cbn [orb] in H1. destruct (ice_match (String c s)); [discriminate|].
    rewrite IH by exact H2. reflexivity.
Qed.

Lemma ice_sub_go_true_empty (f : nat) : ice_sub_go f true EmptyString = EmptyString.
Proof. destruct f; reflexivity. Qed.

Lemma after_digits_ice_sub (f : nat) (t : string) :
  String.length t <= f ->
  none_b (ice_after_digits (ice_sub_go f true t)) = none_b (ice_after_digits t).
Proof.
  revert t. induction f as [|f IH]; intros t H; [reflexivity|].
  destruct t as [|d t]; [reflexivity|]. cbn [ice_sub_go ice_after_digits].
  destruct (is_digit d) eqn:Dd.
  - rewrite (is_digit_word d Dd). apply IH. simpl in H. lia.
  - destruct (is_word d); reflexivity.
Qed.

Lemma ice_match_nonword2 (i c : ascii) (x : string) :
  is_word c = false -> ice_match (String i (String c x)) = None.
Proof.
  intros Hc. destruct (nonword_not_ice c Hc) as (_ & HC & _).
  destruct x as [|e r]; [reflexivity|]. unfold ice_match.
  rewrite HC, andb_false_r. reflexivity.
Qed.

Lemma ice_match_nonword3 (i c e : ascii) (x : string) :
  is_word e = false -> ice_match (String i (String c (String e x))) = None.
Proof.
  intros He. destruct (nonword_not_ice e He) as (_ & _ & HE).
  unfold ice_match. rewrite HE, andb_false_r. reflexivity.
Qed.

Lemma ice_match_ice_sub (f : nat) (c : ascii) (s : string) :
  String.length s <= f ->
  none_b (ice_match (String c (ice_sub_go f true s))) = none_b (ice_match (String c s)).
Proof.
  intros H. destruct s as [|c2 s]; [rewrite ice_sub_go_true_empty; reflexivity|].
  destruct f as [|f]; [reflexivity|]. cbn [ice_sub_go].
  destruct (is_word c2) eqn:W2; [|rewrite !ice_match_nonword2 by exact W2; reflexivity].
  destruct s as [|e r]; [rewrite ice_sub_go_true_empty; reflexivity|].
  destruct f as [|f]; [simpl in H; lia|]. cbn [ice_sub_go].
  destruct (is_word e) eqn:We; [|rewrite !ice_match_nonword3 by exact We; reflexivity].
  unfold ice_match.
  destruct ((to_upper c =? "I")%char && (to_upper c2 =? "C")%char && (to_upper e =? "E")%char);
    [|reflexivity].
  apply after_digits_ice_sub. simpl in H. lia.
Qed.

(** The output of [REGEX_ICE.sub] has no match of [REGEX_ICE] left. *)
Lemma no_ice_ice_sub_go (f : nat) (b : bool) (s : string) :
  String.length s <= f -> no_ice b (ice_sub_go f b s) = true.
Proof.
  revert b s. induction f as [f IH] using (well_founded_induction lt_wf). intros b s H.
  destruct f as [|f]; [destruct s; [reflexivity|simpl in H; lia]|].
  destruct s as [|c s]; [reflexivity|]. cbn [ice_sub_go].
  destruct (if b then None else ice_match (String c s)) as [rest|] eqn:E.
  - destruct b; [discriminate|].
    destruct (ice_match_some _ _ E) as ([-> | (d & r & -> & Wd)] & _ & Hl).
    + rewrite ice_sub_go_true_empty. reflexivity.
    + destruct f as [|f]; [simpl in Hl, H; lia|]. cbn [ice_sub_go].
      rewrite no_ice_cons, ice_match_nonword by exact Wd. rewrite Wd.
      apply (IH f); [lia|]. simpl in Hl, H. lia.
  - rewrite no_ice_cons. apply andb_true_intro. split.
    + destruct b; [reflexivity|]. cbn [orb].
      destruct (is_word c) eqn:Wc.
      * rewrite ice_match_ice_sub by (simpl in H; lia). rewrite E. reflexivity.
      * rewrite ice_match_nonword by exact Wc. reflexivity.
    + apply (IH f); [lia|]. simpl in H. lia.
Qed.

Lemma no_ice_ice_sub (s : string) : no_ice false (ice_sub s) = true.
Proof. apply no_ice_ice_sub_go. lia. Qed.

(** *** No bracket, no parenthesised group *)

Lemma paren_match_at_none (x : string) :
  has_char "(" x = false -> has_char "[" x = false -> paren_match_at x = None.
Proof.
  intros H1 H2.
  assert (G1 : has_char "(" (drop_spaces x) = false)
    by (destruct (has_char "(" (drop_spaces x)) eqn:Q;
        [apply has_char_drop_spaces in Q; congruence|reflexivity]).
  assert (G2 : has_char "[" (drop_spaces x) = false)
    by (destruct (has_char "[" (drop_spaces x)) eqn:Q;
        [apply has_char_drop_spaces in Q; congruence|reflexivity]).
  unfold paren_match_at. destruct (drop_spaces x) as [|a t]; [reflexivity|].
  destruct a as [[] [] [] [] [] [] [] []]; try reflexivity; simpl in G1, G2; discriminate.
Qed.

Lemma paren_search_none (s : string) :
  has_char "(" s = false -> has_char "[" s = false -> paren_search s = None.
Proof.
  induction s as [|c s IH]; intros H1 H2.
  - reflexivity.
  - cbn [paren_search]. rewrite paren_match_at_none by assumption.
    cbn [has_char] in H1, H2. apply orb_false_iff in H1 as [_ H1].
    apply orb_false_iff in H2 as [_ H2]. exact (IH H1 H2).
Qed.

(** *** The pipeline of [sanitize_name] without brackets *)

Lemma sanitize_name_core (s : string) :
  has_char "(" s = false -> has_char "[" s = false -> sanitize_name s = sanitize_core s.
Proof.
  intros H1 H2. unfold sanitize_name, sanitize_core.
  rewrite paren_search_none by assumption. rewrite !replace_halve, replace_dot. reflexivity.
Qed.

Lemma has_char_core (c : ascii) (s : string) :
  is_alpha c = false -> (c =? " ")%char = false -> has_char c s = false ->
  has_char c (sanitize_core s) = false.
Proof.
  intros Ha Hsp Hs. unfold sanitize_core. rewrite has_char_title by exact Ha.
  destruct (has_char c (strip _)) eqn:E; [|reflexivity]. apply has_char_strip in E.
  rewrite <- !replace_halve, <- replace_dot in E. unfold replace in E.
  assert (Hsp' : has_char c " " = false) by (cbn [has_char]; rewrite Hsp; reflexivity).
  rewrite replace_go_has_char in E; [discriminate| |exact Hsp'].
  apply replace_go_has_char; [|exact Hsp'].
  apply replace_go_has_char; [|exact Hsp'].
  destruct (has_char c (ice_sub s)) eqn:Q; [|reflexivity].
  apply ice_sub_go_has_char in Q. rewrite Q in Hs. discriminate.
Qed.

Lemma no_dot_core (s : string) : has_char "." (sanitize_core s) = false.
Proof.
  unfold sanitize_core. rewrite has_char_title by reflexivity.
  destruct (has_char "." (strip _)) eqn:E; [|reflexivity]. apply has_char_strip in E.
  rewrite <- !replace_halve in E. unfold replace in E.
  rewrite replace_go_has_char in E; [discriminate| |reflexivity].
  apply replace_go_has_char; [|reflexivity]. apply has_char_dot_to_space.
Qed.

Lemma no_ice_core (s : string) : no_ice false (sanitize_core s) = true.
Proof.
  unfold sanitize_core. rewrite no_ice_title. apply no_ice_strip.
  apply no_ice_halve, no_ice_halve. rewrite no_ice_dot. apply no_ice_ice_sub.
Qed.

Lemma no_double_space_core (s : string) :
  contains (map_chars dot_to_space (ice_sub s)) (spaces 5) = false ->
  contains (sanitize_core s) "  " = false.
Proof.
  intros H. unfold sanitize_core. change "  " with (spaces 2).
  rewrite contains_title_spaces.
  destruct (contains (strip _) (spaces 2)) eqn:E; [|reflexivity]. apply contains_strip in E.
  rewrite (no_double_space _ H) in E. discriminate.
Qed.

Lemma ends_ok_core (s : string) : ends_ok (sanitize_core s).
Proof. unfold sanitize_core. apply ends_ok_title, strip_ends_ok. Qed.

End SanitizeFacts3.

(** ** Idempotence of [sanitize_name] *)

(** Two [replace('  ', ' ')] passes shrink a run of five spaces to two; and
    when the name holds a bracketed group equal to the rest, the rest is
    returned without the dot replacement. *)
Lemma sanitize_name_not_idempotent :
  sanitize_name "a     b" = "A  B" /\ sanitize_name "A  B" = "A B" /\
  sanitize_name "a.b (a.b)" = "A.B" /\ sanitize_name "A.B" = "A B".
Proof. split; [|split; [|split]]; vm_compute; reflexivity. Qed.

(** C8 (amended): for a name with no opening parenthesis or bracket (so
    that [REGEX_ANYTHING_BETWEEN_PARENTH_OR_BRACES] finds nothing) in which,
    after the ICE removal and the dot replacement, no run of five spaces
    remains, [sanitize_name (sanitize_name s) = sanitize_name s]. *)
Theorem sanitize_name_idempotent (s : string) :
  has_char "(" s = false -> has_char "[" s = false ->
  contains (replace "." " " (ice_sub s)) "     " = false ->
  sanitize_name (sanitize_name s) = sanitize_name s.
Proof.
  intros H1 H2 H5.
  rewrite (SanitizeFacts3.sanitize_name_core s H1 H2).
  set (t := sanitize_core s).
  assert (T1 : has_char "(" t = false)
    by (apply SanitizeFacts3.has_char_core; [reflexivity|reflexivity|exact H1]).
  assert (T2 : has_char "[" t = false)
    by (apply SanitizeFacts3.has_char_core; [reflexivity|reflexivity|exact H2]).
  rewrite (SanitizeFacts3.sanitize_name_core t T1 T2).
  unfold sanitize_core at 1. unfold ice_sub.
  rewrite (SanitizeFacts3.ice_sub_go_no_ice _ _ _ (SanitizeFacts3.no_ice_core s)). fold t.
  rewrite <- SanitizeFacts2.replace_dot, StrFacts.replace_no_occurrence
    by (rewrite (SanitizeFacts.has_char_contains "." t); apply SanitizeFacts3.no_dot_core).
  rewrite SanitizeFacts2.replace_dot in H5. change "     " with (spaces 5) in H5.
  assert (Hd : contains t "  " = false) by exact (SanitizeFacts3.no_double_space_core s H5).
  rewrite <- !SanitizeFacts2.replace_halve, !(StrFacts.replace_no_occurrence _ _ t Hd).
  rewrite StrFacts.strip_id by apply SanitizeFacts3.ends_ok_core.
  unfold t, sanitize_core, title. apply SanitizeFacts.title_go_idem.
Qed.

Lemma sanitize_name_idempotent_witness :
  sanitize_name (sanitize_name "marie.claire  dupont ICE1") =
  sanitize_name "marie.claire  dupont ICE1".
Proof. apply sanitize_name_idempotent; vm_compute; reflexivity. Defined.

(** ** The grouper *)

Module GrouperFacts.
Import Grouper.

Lemma group_of_some (m : mappings) (k g : string) :
  group_of m k = Some g <-> vcard_group m !! k = Some (PyStr g).
Proof.
  unfold group_of. destruct (vcard_group m !! k) as [[| |]|]; split; intros H;
    try discriminate; congruence.
Qed.

Lemma alookup_aset {A} (k k' : string) (v : A) (l : list (string * A)) :
  alookup k (aset k' v l) = if String.eqb k k' then Some v else alookup k l.
Proof.
  induction l as [|[k0 v0] l IH]; [reflexivity|]. cbn [aset].
  destruct (String.eqb k' k0) eqn:E1.
  - apply String.eqb_eq in E1. subst. cbn [alookup]. destruct (String.eqb k k0); reflexivity.
  - cbn [alookup]. destruct (String.eqb k k0) eqn:E2; [|exact IH].
    apply String.eqb_eq in E2. subst. rewrite String.eqb_sym, E1. reflexivity.
Qed.

Lemma assign_group_vcard_group (m : mappings) (l : list string) (g k : string) :
  vcard_group (assign_group m l g) !! k =
  if decide (k ∈ l) then Some (PyStr g) else vcard_group m !! k.
Proof.
  unfold assign_group. revert m. induction l as [|x l IH]; intros m.
  - destruct (decide (k ∈ [])) as [Hk|_]; [inversion Hk|reflexivity].
  - cbn [fold_left]. rewrite IH. unfold set_vcard_group. cbn [vcard_group].
    destruct (decide (k ∈ l)) as [Hl|Hl]; destruct (decide (k ∈ x :: l)) as [Hxl|Hxl];
      try reflexivity.
    + exfalso. apply Hxl. right. exact Hl.
    + apply elem_of_cons in Hxl as [->|Hxl]; [|contradiction].
      rewrite lookup_insert_eq. reflexivity.
    + rewrite lookup_insert_ne; [reflexivity|]. intros ->. apply Hxl. left.
Qed.

Lemma assign_group_groups (m : mappings) (l : list string) (g : string) :
  groups (assign_group m l g) = groups m /\ attributes (assign_group m l g) = attributes m.
Proof.
  unfold assign_group. revert m. induction l as [|x l IH]; intros m; [split; reflexivity|].
  cbn [fold_left]. destruct (IH (set_vcard_group m x (PyStr g))) as [-> ->]. split; reflexivity.
Qed.

Lemma lookup_foldr_delete (gr : gmap string (list string)) (Ds : list string) (g : string) :
  foldr delete gr Ds !! g = if decide (g ∈ Ds) then None else gr !! g.
Proof.
  induction Ds as [|d Ds IH]; cbn [foldr].
  - destruct (decide (g ∈ [])) as [Hg|_]; [inversion Hg|reflexivity].
  - destruct (decide (g = d)) as [->|Hne].
    + rewrite lookup_delete_eq. destruct (decide (d ∈ d :: Ds)) as [_|H]; [reflexivity|].
      exfalso. apply H. left.
    + rewrite lookup_delete_ne by congruence. rewrite IH.
      destruct (decide (g ∈ Ds)) as [H1|H1]; destruct (decide (g ∈ d :: Ds)) as [H2|H2];
        try reflexivity.
      * exfalso. apply H2. right. exact H1.
      * apply elem_of_cons in H2 as [H2|H2]; contradiction.
Qed.

Lemma current_group_cases (P : list string) (m : mappings) (k : string) :
  grouper_inv P m ->
  (current_group m k = PyNone /\ group_of m k = None) \/
  (exists G, current_group m k = PyStr G /\ group_of m k = Some G /\ G <> "").
Proof.
  intros Hi. unfold current_group, group_of. destruct (vcard_group m !! k) as [v|] eqn:E.
  - destruct (gi_vals _ _ Hi k v E) as [->|[g ->]]; [left; auto|].
    right. exists g. split; [reflexivity|split; [reflexivity|]].
    assert (Hg : group_of m k = Some g) by (apply group_of_some; exact E).
    apply (gi_members _ _ Hi) in Hg as [ms [Hms _]]. exact (gi_nonempty _ _ Hi g ms Hms).
  - left. auto.
Qed.

Lemma same_group_refl (m : mappings) (a : string) : same_group m a a.
Proof. left. reflexivity. Qed.

Lemma same_group_sym (m : mappings) (a b : string) : same_group m a b -> same_group m b a.
Proof. intros [->|[g [Ha Hb]]]; [left; reflexivity|right; exists g; auto]. Qed.

Lemma same_group_trans (m : mappings) (a b c : string) :
  same_group m a b -> same_group m b c -> same_group m a c.
Proof.
  intros [->|[g [Ha Hb]]] H2; [exact H2|].
  destruct H2 as [<-|[g' [Hb' Hc]]]; [right; exists g; auto|].
  right. exists g. split; [exact Ha|congruence].
Qed.

(** Regrouping: the groups [Ds] and the ungrouped keys [F] become the one
    group [new] with members [M]. *)
Lemma regroup (P : list string) (m m' : mappings) (Ds F M : list string) (new : string) :
  grouper_inv P m ->
  (forall k, k ∈ M <-> (exists g, g ∈ Ds /\ group_of m k = Some g) \/ k ∈ F) ->
  (forall k, k ∈ F -> group_of m k = None /\ k ∈ P) ->
  groups m' = <[new := M]> (foldr delete (groups m) Ds) ->
  foldr delete (groups m) Ds !! new = None ->
  new ∈ M -> new <> "" ->
  (forall k, k ∈ M -> vcard_group m' !! k = Some (PyStr new)) ->
  (forall k, k ∉ M -> vcard_group m' !! k = vcard_group m !! k) ->
  attributes m' = attributes m ->
  grouper_inv P m' /\
  (forall a b, same_group m' a b <-> same_group m a b \/ (a ∈ M /\ b ∈ M)).
Proof.
  intros Hi HM HF Hgr Hnew HnewM Hne HvM HvO Hat.
  rewrite lookup_foldr_delete in Hnew.
  (* the new group of a key *)
  assert (Hgo : forall k, group_of m' k = if decide (k ∈ M) then Some new else group_of m k).
  { intros k. destruct (decide (k ∈ M)) as [Hk|Hk].
    - apply group_of_some. exact (HvM k Hk).
    - unfold group_of. rewrite (HvO k Hk). reflexivity. }
  (* a key outside [M] is in none of the groups [Ds] nor in [new] *)
  assert (Hout : forall k g, k ∉ M -> group_of m k = Some g -> (g ∉ Ds) /\ g <> new).
  { intros k g Hk Hg. assert (HgD : g ∉ Ds) by (intros HgD; apply Hk, HM; left; exists g; auto).
    split; [exact HgD|]. intros ->.
    apply (gi_members _ _ Hi) in Hg as [ms [Hms _]].
    destruct (decide (new ∈ Ds)); [contradiction|congruence]. }
  (* a key of [M] with a group has one of [Ds] *)
  assert (Hin : forall k g, k ∈ M -> group_of m k = Some g -> g ∈ Ds).
  { intros k g Hk Hg. apply HM in Hk as [[g' [Hg' Hk]]|Hk].
    - congruence.
    - apply HF in Hk as [Hk _]. congruence. }
  split.
  - constructor.
    + intros k g. rewrite Hgo, Hgr. destruct (decide (k ∈ M)) as [Hk|Hk]; split.
      * intros [= <-]. exists M. rewrite lookup_insert_eq. auto.
      * intros [ms [Hms Hkms]]. destruct (decide (g = new)) as [->|Hgn]; [reflexivity|].
        rewrite lookup_insert_ne, lookup_foldr_delete in Hms by congruence.
        destruct (decide (g ∈ Ds)) as [_|HgD]; [discriminate|].
        assert (Hg : group_of m k = Some g) by (apply (gi_members _ _ Hi); eauto).
        exfalso. exact (HgD (Hin k g Hk Hg)).
      * intros Hg. destruct (Hout k g Hk Hg) as [HgD Hgn].
        rewrite lookup_insert_ne, lookup_foldr_delete by congruence.
        destruct (decide (g ∈ Ds)); [contradiction|]. apply (gi_members _ _ Hi). exact Hg.
      * intros [ms [Hms Hkms]]. destruct (decide (g = new)) as [->|Hgn].
        { rewrite lookup_insert_eq in Hms. injection Hms as <-. contradiction. }
        rewrite lookup_insert_ne, lookup_foldr_delete in Hms by congruence.
        destruct (decide (g ∈ Ds)); [discriminate|]. apply (gi_members _ _ Hi). eauto.
    + intros g ms. rewrite Hgr. destruct (decide (g = new)) as [->|Hgn].
      * rewrite lookup_insert_eq. intros [= <-]. exact HnewM.
      * rewrite lookup_insert_ne, lookup_foldr_delete by congruence.
        destruct (decide (g ∈ Ds)); [discriminate|]. apply (gi_self _ _ Hi).
    + intros g ms. rewrite Hgr. destruct (decide (g = new)) as [->|Hgn]; [intros _; exact Hne|].
      rewrite lookup_insert_ne, lookup_foldr_delete by congruence.
      destruct (decide (g ∈ Ds)); [discriminate|]. apply (gi_nonempty _ _ Hi).
    + intros k v. destruct (decide (k ∈ M)) as [Hk|Hk].
      * rewrite (HvM k Hk). intros [= <-]. right. eauto.
      * rewrite (HvO k Hk). apply (gi_vals _ _ Hi).
    + intros k v. destruct (decide (k ∈ M)) as [Hk|Hk].
      * intros _. apply HM in Hk as [[g [_ Hg]]|Hk].
        -- apply group_of_some in Hg. exact (gi_dom _ _ Hi k _ Hg).
        -- exact (proj2 (HF k Hk)).
      * rewrite (HvO k Hk). apply (gi_dom _ _ Hi).
    + rewrite Hat. apply (gi_attrs _ _ Hi).
  - intros a b. unfold same_group at 1. rewrite !Hgo.
    destruct (decide (a ∈ M)) as [Ha|Ha]; destruct (decide (b ∈ M)) as [Hb|Hb].
    + split; [auto|]. intros _. right. exists new. auto.
    + split.
      * intros [->|[g [[= <-] Hg]]]; [contradiction|].
        destruct (Hout b new Hb Hg) as [_ Hn]. contradiction.
      * intros [[->|[g [Hga Hgb]]]|[_ Hb']]; [contradiction| |contradiction].
        destruct (Hout b g Hb Hgb) as [HgD _]. exfalso. exact (HgD (Hin a g Ha Hga)).
    + split.
      * intros [->|[g [Hg [= <-]]]]; [contradiction|].
        destruct (Hout a new Ha Hg) as [_ Hn]. contradiction.
      * intros [[->|[g [Hga Hgb]]]|[Ha' _]]; [contradiction| |contradiction].
        destruct (Hout a g Ha Hga) as [HgD _]. exfalso. exact (HgD (Hin b g Hb Hgb)).
    + split.
      * intros H. left. exact H.
      * intros [H|[Ha' _]]; [exact H|contradiction].
Qed.

Lemma same_group_ext (m m' : mappings) :
  (forall x, group_of m' x = group_of m x) -> forall a b, same_group m' a b <-> same_group m a b.
Proof. intros H a b. unfold same_group. rewrite !H. reflexivity. Qed.

Lemma set_vcard_group_same (P : list string) (m : mappings) (k : string) (v : pyv) :
  grouper_inv P m -> k ∈ P ->
  (v = PyNone /\ group_of m k = None) \/ (exists g, v = PyStr g /\ group_of m k = Some g) ->
  grouper_inv P (set_vcard_group m k v) /\
  (forall x, group_of (set_vcard_group m k v) x = group_of m x).
Proof.
  intros Hi Hk Hv.
  assert (Hgo : forall x, group_of (set_vcard_group m k v) x = group_of m x).
  { intros x. unfold group_of at 1, set_vcard_group. cbn [vcard_group].
    destruct (decide (x = k)) as [->|Hne].
    - rewrite lookup_insert_eq. destruct Hv as [[-> ->]|[g [-> ->]]]; reflexivity.
    - rewrite lookup_insert_ne by congruence. reflexivity. }
  split; [|exact Hgo]. constructor.
  - intros x g. rewrite Hgo. exact (gi_members _ _ Hi x g).
  - exact (gi_self _ _ Hi).
  - exact (gi_nonempty _ _ Hi).
  - intros x w. unfold set_vcard_group. cbn [vcard_group].
    destruct (decide (x = k)) as [->|Hne].
    + rewrite lookup_insert_eq. intros [= <-]. destruct Hv as [[-> _]|[g [-> _]]]; eauto.
    + rewrite lookup_insert_ne by congruence. apply (gi_vals _ _ Hi).
  - intros x w. unfold set_vcard_group. cbn [vcard_group].
    destruct (decide (x = k)) as [->|Hne]; [intros _; exact Hk|].
    rewrite lookup_insert_ne by congruence. apply (gi_dom _ _ Hi).
  - exact (gi_attrs _ _ Hi).
Qed.

Lemma edge_form (m : mappings) (M : list string) (key1 key2 : string) :
  (forall x, x ∈ M <-> same_group m x key1 \/ same_group m x key2) ->
  forall a b, (same_group m a b \/ (a ∈ M /\ b ∈ M)) <->
    same_group m a b \/ (same_group m a key1 /\ same_group m key2 b) \/
    (same_group m a key2 /\ same_group m key1 b).
Proof.
  intros HM a b. rewrite !HM. split.
  - intros [H|[[Ha|Ha] [Hb|Hb]]]; auto.
    + left. eapply same_group_trans; [exact Ha|apply same_group_sym; exact Hb].
    + right. left. split; [exact Ha|apply same_group_sym; exact Hb].
    + right. right. split; [exact Ha|apply same_group_sym; exact Hb].
    + left. eapply same_group_trans; [exact Ha|apply same_group_sym; exact Hb].
  - intros [H|[[Ha Hb]|[Ha Hb]]]; [auto| |].
    + right. split; [auto|right; apply same_group_sym; exact Hb].
    + right. split; [auto|left; apply same_group_sym; exact Hb].
Qed.

Lemma edge_trivial (m : mappings) (key1 key2 : string) :
  same_group m key1 key2 ->
  forall a b, same_group m a b <->
    same_group m a b \/ (same_group m a key1 /\ same_group m key2 b) \/
    (same_group m a key2 /\ same_group m key1 b).
Proof.
  intros H12 a b. split; [auto|].
  intros [H|[[Ha Hb]|[Ha Hb]]]; [exact H| |].
  - eapply same_group_trans; [exact Ha|]. eapply same_group_trans; [exact H12|exact Hb].
  - eapply same_group_trans; [exact Ha|]. eapply same_group_trans; [|exact Hb].
    apply same_group_sym. exact H12.
Qed.

Lemma set2_lookup (m0 : mappings) (k1 k2 k : string) (v : pyv) :
  vcard_group (set_vcard_group (set_vcard_group m0 k1 v) k2 v) !! k =
  if decide (k ∈ [k1; k2]) then Some v else vcard_group m0 !! k.
Proof.
  unfold set_vcard_group. cbn [vcard_group].
  destruct (decide (k ∈ [k1; k2])) as [Hk|Hk].
  - destruct (decide (k = k2)) as [->|Hne]; [apply lookup_insert_eq|].
    rewrite lookup_insert_ne by congruence.
    apply elem_of_cons in Hk as [->|Hk]; [apply lookup_insert_eq|].
    apply list_elem_of_singleton in Hk. congruence.
  - rewrite !lookup_insert_ne; [reflexivity| |];
      intros ->; apply Hk; [left|right; left].
Qed.

Lemma members_of (P : list string) (m : mappings) (G : string) (ms : list string) :
  grouper_inv P m -> groups m !! G = Some ms -> forall x, x ∈ ms <-> group_of m x = Some G.
Proof.
  intros Hi Hms x. rewrite (gi_members _ _ Hi). split.
  - intros Hx. eauto.
  - intros [ms' [Hms' Hx]]. congruence.
Qed.

Lemma same_group_nogroup (m : mappings) (k x : string) :
  group_of m k = None -> same_group m x k <-> x = k.
Proof.
  intros Hk. split; [|intros ->; apply same_group_refl].
  intros [->|[g [_ Hg]]]; [reflexivity|congruence].
Qed.

Lemma same_group_group (m : mappings) (k x G : string) :
  group_of m k = Some G -> same_group m x k <-> group_of m x = Some G.
Proof.
  intros Hk. split.
  - intros [->|[g [Hx Hg]]]; congruence.
  - intros Hx. right. exists G. auto.
Qed.

Lemma no_regroup (P : list string) (m : mappings) (k1 k2 : string) (v : pyv) :
  grouper_inv P m -> k1 ∈ P -> k2 ∈ P ->
  (v = PyNone /\ group_of m k1 = None) \/ (exists g, v = PyStr g /\ group_of m k1 = Some g) ->
  (v = PyNone /\ group_of m k2 = None) \/ (exists g, v = PyStr g /\ group_of m k2 = Some g) ->
  same_group m k1 k2 ->
  let m' := set_vcard_group (set_vcard_group m k1 v) k2 v in
  grouper_inv P m' /\ v = current_group m' k1 /\ attributes m' = attributes m /\
  (forall a b, same_group m' a b <-> same_group m a b \/
     (same_group m a k1 /\ same_group m k2 b) \/ (same_group m a k2 /\ same_group m k1 b)).
Proof.
  intros Hi H1 H2 Hv1 Hv2 H12 m'.
  destruct (set_vcard_group_same P m k1 v Hi H1 Hv1) as [Hi1 Hgo1].
  assert (Hv2' : (v = PyNone /\ group_of (set_vcard_group m k1 v) k2 = None) \/
                 (exists g, v = PyStr g /\ group_of (set_vcard_group m k1 v) k2 = Some g))
    by (rewrite Hgo1; exact Hv2).
  destruct (set_vcard_group_same P _ k2 v Hi1 H2 Hv2') as [Hi2 Hgo2].
  split; [exact Hi2|split; [|split; [reflexivity|]]].
  - unfold m', current_group. rewrite set2_lookup.
    destruct (decide (k1 ∈ [k1; k2])) as [_|Hn]; [reflexivity|]. exfalso. apply Hn. left.
  - intros a b. rewrite <- (edge_trivial m k1 k2 H12).
    apply same_group_ext. intros x. unfold m'. rewrite Hgo2, Hgo1. reflexivity.
Qed.

Lemma pair_set_or (Q : string -> Prop) (a b c d : string) :
  (forall k, k ∈ [a; b] <-> k ∈ [c; d]) -> (Q a \/ Q b <-> Q c \/ Q d).
Proof.
  intros H.
  assert (Hl : forall x y z w, (forall k, k ∈ [x; y] -> k ∈ [z; w]) -> Q x \/ Q y -> Q z \/ Q w).
  { intros x y z w Hxy [Hq|Hq].
    - assert (Hx : x ∈ [z; w]) by (apply Hxy; left).
      apply elem_of_cons in Hx as [->|Hx]; [auto|apply list_elem_of_singleton in Hx; subst; auto].
    - assert (Hy : y ∈ [z; w]) by (apply Hxy; right; left).
      apply elem_of_cons in Hy as [->|Hy]; [auto|apply list_elem_of_singleton in Hy; subst; auto]. }
  split; apply Hl; intros k; apply H.
Qed.

Ltac map_solve :=
  apply map_eq; intros ?i;
  rewrite ?lookup_insert, ?lookup_delete, ?lookup_insert, ?lookup_delete;
  repeat case_decide; subst; try reflexivity; try congruence.

Section WithSelect.
Variable select : list string -> result string.
Variable U : bool.
Hypothesis Hsel : forall l x, select l = Ok x -> x ∈ l /\ x <> "".

(** One record joins the group [G] of another. *)
Lemma join_spec (P : list string) (m : mappings) (key1 key2 kg v G new : string)
    (ms : list string) (rename : bool) :
  grouper_inv P m -> kg ∈ P -> v ∈ P ->
  (forall k, k ∈ [key1; key2] <-> k ∈ [kg; v]) ->
  groups m !! G = Some ms -> group_of m kg = Some G -> group_of m v = None ->
  (if rename then new = v else new = G) -> new <> "" ->
  let M := (ms ++ [v])%list in
  let base := if rename
              then assign_group (set_groups m (delete G (<[new := M]> (<[G := M]> (groups m))))) M new
              else set_groups m (<[G := M]> (groups m)) in
  let m' := set_vcard_group (set_vcard_group base key1 (PyStr new)) key2 (PyStr new) in
  grouper_inv P m' /\ PyStr new = current_group m' key1 /\ attributes m' = attributes m /\
  (forall a b, same_group m' a b <-> same_group m a b \/
     (same_group m a key1 /\ same_group m key2 b) \/ (same_group m a key2 /\ same_group m key1 b)).
Proof.
  intros Hi Hkg Hv Hset Hms Hgkg Hgv Hnew Hne M base m'.
  assert (HvG : v <> G).
  { intros ->. pose proof (gi_self _ _ Hi G ms Hms) as HGms.
    apply (members_of _ _ _ _ Hi Hms) in HGms. congruence. }
  assert (HMchar : forall x, x ∈ M <-> group_of m x = Some G \/ x = v).
  { intros x. unfold M. rewrite elem_of_app, list_elem_of_singleton, (members_of _ _ _ _ Hi Hms).
    reflexivity. }
  assert (Hk12M : forall k, k ∈ [key1; key2] -> k ∈ M).
  { intros k Hk. apply Hset in Hk. apply HMchar.
    apply elem_of_cons in Hk as [->|Hk]; [left; exact Hgkg|].
    apply list_elem_of_singleton in Hk. right. exact Hk. }
  assert (Hbase : forall k, vcard_group base !! k =
            if decide (k ∈ M) then (if rename then Some (PyStr new) else vcard_group m !! k)
            else vcard_group m !! k).
  { intros k. unfold base. destruct rename.
    - rewrite assign_group_vcard_group. reflexivity.
    - destruct (decide (k ∈ M)); reflexivity. }
  assert (Hgb : groups base = if rename then delete G (<[new := M]> (<[G := M]> (groups m)))
                              else <[G := M]> (groups m)).
  { unfold base. destruct rename; [|reflexivity].
    rewrite (proj1 (assign_group_groups _ _ _)). reflexivity. }
  assert (Hab : attributes base = attributes m).
  { unfold base. destruct rename; [|reflexivity].
    rewrite (proj2 (assign_group_groups _ _ _)). reflexivity. }
  destruct (regroup P m m' [G] [v] M new Hi) as [Hi' Hsg].
  - intros x. rewrite HMchar. split.
    + intros [Hx| ->]; [left; exists G; split; [left|exact Hx]|right; left].
    + intros [[g [Hg Hx]]|Hx].
      * apply list_elem_of_singleton in Hg. subst. left. exact Hx.
      * apply list_elem_of_singleton in Hx. right. exact Hx.
  - intros k Hk. apply list_elem_of_singleton in Hk. subst. auto.
  - unfold m'. cbn [groups set_vcard_group]. rewrite Hgb. cbn [foldr].
    destruct rename; subst new; map_solve.
  - cbn [foldr]. destruct rename; subst new.
    + rewrite lookup_delete_ne by congruence.
      destruct (groups m !! v) as [mv|] eqn:E; [|reflexivity].
      pose proof (gi_self _ _ Hi v mv E) as Hvv.
      apply (members_of _ _ _ _ Hi E) in Hvv. congruence.
    + apply lookup_delete_eq.
  - apply HMchar. destruct rename; subst new; [right; reflexivity|].
    left. apply (members_of _ _ _ _ Hi Hms). exact (gi_self _ _ Hi G ms Hms).
  - exact Hne.
  - intros k Hk. unfold m'. rewrite set2_lookup.
    destruct (decide (k ∈ [key1; key2])) as [_|Hk12]; [reflexivity|].
    rewrite Hbase. destruct (decide (k ∈ M)) as [_|]; [|contradiction].
    destruct rename; [reflexivity|subst new].
    apply group_of_some. apply HMchar in Hk as [Hk| ->]; [exact Hk|].
    exfalso. apply Hk12, Hset. right. left.
  - intros k Hk. unfold m'. rewrite set2_lookup.
    destruct (decide (k ∈ [key1; key2])) as [Hk12|_]; [exfalso; exact (Hk (Hk12M k Hk12))|].
    rewrite Hbase. destruct (decide (k ∈ M)); [contradiction|reflexivity].
  - exact Hab.
  - split; [exact Hi'|split; [|split; [exact Hab|]]].
    + unfold current_group, m'. rewrite set2_lookup.
      destruct (decide (key1 ∈ [key1; key2])) as [_|Hn]; [reflexivity|]. exfalso. apply Hn. left.
    + intros a b. rewrite Hsg. apply edge_form. intros x. rewrite HMchar.
      rewrite (pair_set_or (fun k => same_group m x k) key1 key2 kg v Hset).
      rewrite (same_group_group m kg x G Hgkg), (same_group_nogroup m v x Hgv). reflexivity.
Qed.

(** Two ungrouped records make a new group. *)
Lemma create_spec (P : list string) (m : mappings) (key1 key2 new : string) :
  grouper_inv P m -> key1 ∈ P -> key2 ∈ P ->
  group_of m key1 = None -> group_of m key2 = None ->
  groups m !! new = None -> new ∈ [key1; key2] -> new <> "" ->
  let m' := set_vcard_group (set_vcard_group
              (set_groups m (<[new := [key1; key2]]> (groups m))) key1 (PyStr new)) key2 (PyStr new) in
  grouper_inv P m' /\ PyStr new = current_group m' key1 /\ attributes m' = attributes m /\
  (forall a b, same_group m' a b <-> same_group m a b \/
     (same_group m a key1 /\ same_group m key2 b) \/ (same_group m a key2 /\ same_group m key1 b)).
Proof.
  intros Hi Hk1 Hk2 Hg1 Hg2 Hnew HnewM Hne m'.
  destruct (regroup P m m' [] [key1; key2] [key1; key2] new Hi) as [Hi' Hsg].
  - intros x. split; [auto|]. intros [[g [Hg _]]|Hx]; [inversion Hg|exact Hx].
  - intros k Hk. apply elem_of_cons in Hk as [->|Hk]; [auto|].
    apply list_elem_of_singleton in Hk. subst. auto.
  - reflexivity.
  - exact Hnew.
  - exact HnewM.
  - exact Hne.
  - intros k Hk. unfold m'. rewrite set2_lookup.
    destruct (decide (k ∈ [key1; key2])); [reflexivity|contradiction].
  - intros k Hk. unfold m'. rewrite set2_lookup.
    destruct (decide (k ∈ [key1; key2])); [contradiction|reflexivity].
  - reflexivity.
  - split; [exact Hi'|split; [|split; [reflexivity|]]].
    + unfold current_group, m'. rewrite set2_lookup.
      destruct (decide (key1 ∈ [key1; key2])) as [_|Hn]; [reflexivity|]. exfalso. apply Hn. left.
    + intros a b. rewrite Hsg. apply edge_form. intros x.
      rewrite (same_group_nogroup m key1 x Hg1), (same_group_nogroup m key2 x Hg2).
      rewrite elem_of_cons, list_elem_of_singleton. reflexivity.
Qed.

(** Two groups are merged into [dest]. *)
Lemma merge_spec (P : list string) (m : mappings) (key1 key2 G1 G2 dest other : string)
    (dests others : list string) :
  grouper_inv P m -> key1 ∈ P -> key2 ∈ P ->
  group_of m key1 = Some G1 -> group_of m key2 = Some G2 -> G1 <> G2 ->
  (dest = G1 /\ other = G2) \/ (dest = G2 /\ other = G1) ->
  groups m !! other = Some others -> groups m !! dest = Some dests ->
  let m' := set_vcard_group (set_vcard_group
              (set_groups (assign_group m others dest)
                 (delete other (<[dest := (dests ++ others)%list]> (groups m))))
              key1 (PyStr dest)) key2 (PyStr dest) in
  grouper_inv P m' /\ PyStr dest = current_group m' key1 /\ attributes m' = attributes m /\
  (forall a b, same_group m' a b <-> same_group m a b \/
     (same_group m a key1 /\ same_group m key2 b) \/ (same_group m a key2 /\ same_group m key1 b)).
Proof.
  intros Hi Hk1 Hk2 Hg1 Hg2 HG Hdo Hother Hdest m'.
  assert (Hdo' : dest <> other) by (destruct Hdo as [[-> ->]|[-> ->]]; congruence).
  set (M := (dests ++ others)%list).
  assert (HMchar : forall x, x ∈ M <-> group_of m x = Some dest \/ group_of m x = Some other).
  { intros x. unfold M. rewrite elem_of_app, (members_of _ _ _ _ Hi Hdest), (members_of _ _ _ _ Hi Hother).
    reflexivity. }
  assert (Hk12M : forall k, k ∈ [key1; key2] -> k ∈ M).
  { intros k Hk. apply HMchar.
    apply elem_of_cons in Hk as [->|Hk]; [|apply list_elem_of_singleton in Hk; subst k];
      destruct Hdo as [[-> ->]|[-> ->]]; auto. }
  destruct (regroup P m m' [dest; other] [] M dest Hi) as [Hi' Hsg].
  - intros x. rewrite HMchar. split.
    + intros [Hx|Hx]; left; [exists dest|exists other]; split; auto; [left|right; left].
    + intros [[g [Hg Hx]]|Hx]; [|inversion Hx].
      apply elem_of_cons in Hg as [->|Hg]; [auto|apply list_elem_of_singleton in Hg; subst; auto].
  - intros k Hk. inversion Hk.
  - unfold m'. cbn [groups set_vcard_group set_groups foldr]. map_solve.
  - cbn [foldr]. rewrite lookup_delete_eq. reflexivity.
  - apply HMchar. left. apply (members_of _ _ _ _ Hi Hdest). exact (gi_self _ _ Hi _ _ Hdest).
  - exact (gi_nonempty _ _ Hi _ _ Hdest).
  - intros k Hk. unfold m'. rewrite set2_lookup.
    destruct (decide (k ∈ [key1; key2])) as [_|Hk12]; [reflexivity|].
    cbn [vcard_group set_groups]. rewrite assign_group_vcard_group.
    destruct (decide (k ∈ others)) as [_|Ho]; [reflexivity|].
    apply group_of_some. apply HMchar in Hk as [Hk|Hk]; [exact Hk|].
    exfalso. apply Ho. apply (members_of _ _ _ _ Hi Hother). exact Hk.
  - intros k Hk. unfold m'. rewrite set2_lookup.
    destruct (decide (k ∈ [key1; key2])) as [Hk12|_]; [exfalso; exact (Hk (Hk12M k Hk12))|].
    cbn [vcard_group set_groups]. rewrite assign_group_vcard_group.
    destruct (decide (k ∈ others)) as [Ho|_]; [|reflexivity].
    exfalso. apply Hk. unfold M. apply elem_of_app. right. exact Ho.
  - unfold m'. cbn [attributes set_vcard_group set_groups]. apply assign_group_groups.
  - split; [exact Hi'|split; [|split]].
    + unfold current_group, m'. rewrite set2_lookup.
      destruct (decide (key1 ∈ [key1; key2])) as [_|Hn]; [reflexivity|]. exfalso. apply Hn. left.
    + unfold m'. cbn [attributes set_vcard_group set_groups]. apply assign_group_groups.
    + intros a b. rewrite Hsg. apply edge_form. intros x. rewrite HMchar.
      rewrite (same_group_group m key1 x G1 Hg1), (same_group_group m key2 x G2 Hg2).
      destruct Hdo as [[-> ->]|[-> ->]]; tauto.
Qed.

Lemma pair_swap (a b : string) : forall k, k ∈ [a; b] <-> k ∈ [b; a].
Proof. intros k. set_solver. Qed.

Lemma group_keys_spec (P : list string) (m m' : mappings) (key1 key2 : string) (sel : pyv) :
  grouper_inv P m -> key1 ∈ P -> key2 ∈ P ->
  group_keys select U m key1 key2 (current_group m key1) (current_group m key2) = Ok (m', sel) ->
  grouper_inv P m' /\ sel = current_group m' key1 /\ attributes m' = attributes m /\
  (forall a b, same_group m' a b <-> same_group m a b \/
     (same_group m a key1 /\ same_group m key2 b) \/ (same_group m a key2 /\ same_group m key1 b)).
Proof.
  intros Hi Hk1 Hk2 Hgk. unfold group_keys in Hgk.
  destruct (current_group_cases P m key1 Hi) as [[Hc1 Hg1]|[G1 [Hc1 [Hg1 HG1]]]];
  destruct (current_group_cases P m key2 Hi) as [[Hc2 Hg2]|[G2 [Hc2 [Hg2 HG2]]]];
  rewrite Hc1, Hc2 in Hgk; cbn [group_arg_ok negb truthy] in Hgk;
  destruct (String.eqb key1 key2) eqn:Ek;
  try (apply String.eqb_eq in Ek; subst key2).
  - (* same key, no group *)
    simpl in Hgk. injection Hgk as <- <-.
    exact (no_regroup P m key1 key1 PyNone Hi Hk1 Hk1 (or_introl (conj eq_refl Hg1))
             (or_introl (conj eq_refl Hg1)) (same_group_refl m key1)).
  - (* two ungrouped records: a new group *)
    simpl in Hgk.
    destruct (select [key1; key2]) as [new|e] eqn:Es; cbn [bind] in Hgk; [|discriminate].
    destruct (Hsel _ _ Es) as [HnM Hne].
    destruct (bool_decide (new ∈ dom (groups m))) eqn:Ed; cbn [bind] in Hgk; [discriminate|].
    injection Hgk as <- <-.
    apply bool_decide_eq_false, not_elem_of_dom in Ed.
    exact (create_spec P m key1 key2 new Hi Hk1 Hk2 Hg1 Hg2 Ed HnM Hne).
  - congruence.
  - (* the first record joins the group of the second *)
    assert (E2 : (G2 =? "") = false) by (apply String.eqb_neq; exact HG2).
    rewrite E2, (bool_decide_eq_true_2 (PyNone <> PyStr G2)) in Hgk by discriminate.
    simpl in Hgk.
    destruct (groups m !! G2) as [ms|] eqn:Ems; [|discriminate].
    destruct (select [G2; key1]) as [new|e] eqn:Es; cbn [bind] in Hgk; [|discriminate].
    destruct (Hsel _ _ Es) as [HnM Hne].
    destruct (negb (new =? G2) && U) eqn:Eu; cbn [bind] in Hgk; injection Hgk as <- <-.
    + assert (Hnew : new = key1).
      { apply andb_prop in Eu as [Eu _]. apply negb_true_iff, String.eqb_neq in Eu.
        apply elem_of_cons in HnM as [->|HnM]; [contradiction|].
        apply list_elem_of_singleton in HnM. exact HnM. }
      exact (join_spec P m key1 key2 key2 key1 G2 new ms true Hi Hk2 Hk1 (pair_swap key1 key2)
               Ems Hg2 Hg1 Hnew Hne).
    + exact (join_spec P m key1 key2 key2 key1 G2 G2 ms false Hi Hk2 Hk1 (pair_swap key1 key2)
               Ems Hg2 Hg1 eq_refl HG2).
  - congruence.
  - (* the second record joins the group of the first *)
    assert (E1 : (G1 =? "") = false) by (apply String.eqb_neq; exact HG1).
    rewrite E1, (bool_decide_eq_true_2 (PyStr G1 <> PyNone)) in Hgk by discriminate.
    simpl in Hgk.
    destruct (groups m !! G1) as [ms|] eqn:Ems; [|discriminate].
    destruct (select [G1; key2]) as [new|e] eqn:Es; cbn [bind] in Hgk; [|discriminate].
    destruct (Hsel _ _ Es) as [HnM Hne].
    destruct (negb (new =? G1) && U) eqn:Eu; cbn [bind] in Hgk; injection Hgk as <- <-.
    + assert (Hnew : new = key2).
      { apply andb_prop in Eu as [Eu _]. apply negb_true_iff, String.eqb_neq in Eu.
        apply elem_of_cons in HnM as [->|HnM]; [contradiction|].
        apply list_elem_of_singleton in HnM. exact HnM. }
      exact (join_spec P m key1 key2 key1 key2 G1 new ms true Hi Hk1 Hk2 (fun k => iff_refl _)
               Ems Hg1 Hg2 Hnew Hne).
    + exact (join_spec P m key1 key2 key1 key2 G1 G1 ms false Hi Hk1 Hk2 (fun k => iff_refl _)
               Ems Hg1 Hg2 eq_refl HG1).
  - (* the same record twice *)
    assert (G2 = G1) by congruence. subst G2.
    simpl in Hgk. injection Hgk as <- <-.
    exact (no_regroup P m key1 key1 (PyStr G1) Hi Hk1 Hk1
             (or_intror (ex_intro _ G1 (conj eq_refl Hg1)))
             (or_intror (ex_intro _ G1 (conj eq_refl Hg1))) (same_group_refl m key1)).
  - assert (E1 : (G1 =? "") = false) by (apply String.eqb_neq; exact HG1).
    assert (E2 : (G2 =? "") = false) by (apply String.eqb_neq; exact HG2).
    destruct (decide (G1 = G2)) as [<-|HG].
    + (* already in the same group *)
      rewrite (bool_decide_eq_false_2 (PyStr G1 <> PyStr G1)) in Hgk by tauto.
      rewrite E1 in Hgk. simpl in Hgk. injection Hgk as <- <-.
      exact (no_regroup P m key1 key2 (PyStr G1) Hi Hk1 Hk2
               (or_intror (ex_intro _ G1 (conj eq_refl Hg1)))
               (or_intror (ex_intro _ G1 (conj eq_refl Hg2)))
               (or_intror (ex_intro _ G1 (conj Hg1 Hg2)))).
    + (* merge the two groups *)
      rewrite (bool_decide_eq_true_2 (PyStr G1 <> PyStr G2)) in Hgk by congruence.
      rewrite E1, E2 in Hgk. simpl in Hgk.
      destruct (select [G1; G2]) as [dest|e] eqn:Es; cbn [bind] in Hgk; [|discriminate].
      destruct (Hsel _ _ Es) as [HdM _].
      set (other := if negb (dest =? G1) then G1 else G2) in Hgk.
      assert (Hdo : (dest = G1 /\ other = G2) \/ (dest = G2 /\ other = G1)).
      { subst other. destruct (dest =? G1) eqn:Ed; simpl.
        - apply String.eqb_eq in Ed. left. auto.
        - apply String.eqb_neq in Ed. right. split; [|reflexivity].
          apply elem_of_cons in HdM as [->|HdM]; [contradiction|].
          apply list_elem_of_singleton in HdM. exact HdM. }
      destruct (groups m !! other) as [others|] eqn:Eo; [|discriminate].
      destruct (groups m !! dest) as [dests|] eqn:Edst; [|discriminate].
      rewrite (proj1 (assign_group_groups m others dest)) in Hgk.
      injection Hgk as <- <-.
      exact (merge_spec P m key1 key2 G1 G2 dest other dests others Hi Hk1 Hk2 Hg1 Hg2 HG
               Hdo Eo Edst).
Qed.

Lemma alookup_elem {A} (k : string) (v : A) (l : list (string * A)) :
  alookup k l = Some v -> (k, v) ∈ l.
Proof.
  induction l as [|[k0 v0] l IH]; cbn [alookup]; [discriminate|].
  destruct (String.eqb k k0) eqn:E.
  - apply String.eqb_eq in E. intros [= <-]. subst. left.
  - intros H. right. exact (IH H).
Qed.

Lemma aset_elem {A} (k : string) (v : A) (l : list (string * A)) (x : string * A) :
  x ∈ aset k v l -> x = (k, v) \/ x ∈ l.
Proof.
  induction l as [|[k0 v0] l IH]; cbn [aset].
  - intros Hx. apply list_elem_of_singleton in Hx. auto.
  - destruct (String.eqb k k0).
    + intros Hx. apply elem_of_cons in Hx as [->|Hx]; [auto|]. right. right. exact Hx.
    + intros Hx. apply elem_of_cons in Hx as [->|Hx]; [right; left|].
      destruct (IH Hx) as [->|Hx']; [auto|]. right. right. exact Hx'.
Qed.

Lemma attr_index_elem (m : mappings) (a v : string) (ks : list string) :
  (v, ks) ∈ attr_index m a -> exists vals, (a, vals) ∈ attributes m /\ (v, ks) ∈ vals.
Proof.
  unfold attr_index. destruct (alookup a (attributes m)) as [vals|] eqn:E; cbn [default].
  - intros H. exists vals. split; [apply alookup_elem; exact E|exact H].
  - intros H. apply elem_of_nil in H. contradiction.
Qed.

Lemma inv_mono (P Q : list string) (m : mappings) :
  grouper_inv P m -> (forall x, x ∈ P -> x ∈ Q) -> grouper_inv Q m.
Proof.
  intros Hi HPQ. constructor.
  - exact (gi_members _ _ Hi).
  - exact (gi_self _ _ Hi).
  - exact (gi_nonempty _ _ Hi).
  - exact (gi_vals _ _ Hi).
  - intros k v H. apply HPQ. exact (gi_dom _ _ Hi k v H).
  - intros a vals v ks k H1 H2 H3. apply HPQ. exact (gi_attrs _ _ Hi a vals v ks k H1 H2 H3).
Qed.

Lemma inv_empty : grouper_inv [] empty_mappings.
Proof.
  unfold group_of. constructor; cbn [groups vcard_group attributes empty_mappings].
  - intros k g. rewrite lookup_empty. split; [discriminate|]. intros [ms [H _]].
    discriminate.
  - intros g ms. rewrite lookup_empty. discriminate.
  - intros g ms. rewrite lookup_empty. discriminate.
  - intros k v. rewrite lookup_empty. discriminate.
  - intros k v. rewrite lookup_empty. discriminate.
  - intros a vals v ks k H. apply elem_of_nil in H. contradiction.
Qed.

(** Replacing the index of one attribute by [vals], whose record keys are
    known, keeps the invariant and the groups. *)
Lemma set_attributes_inv (P : list string) (m : mappings) (a : string)
    (vals : list (string * list string)) :
  grouper_inv P m -> (forall v ks k, (v, ks) ∈ vals -> k ∈ ks -> k ∈ P) ->
  grouper_inv P (set_attributes m (aset a vals (attributes m))).
Proof.
  intros Hi Hv. constructor; cbn [set_attributes groups vcard_group attributes].
  - exact (gi_members _ _ Hi).
  - exact (gi_self _ _ Hi).
  - exact (gi_nonempty _ _ Hi).
  - exact (gi_vals _ _ Hi).
  - exact (gi_dom _ _ Hi).
  - intros a' vals' v ks k Ha Hks Hk. apply aset_elem in Ha as [[= -> ->]|Ha].
    + exact (Hv v ks k Hks Hk).
    + exact (gi_attrs _ _ Hi a' vals' v ks k Ha Hks Hk).
Qed.

Lemma set_attributes_index_inv (P : list string) (m : mappings) (a v : string) (ks : list string) :
  grouper_inv P m -> (forall k, k ∈ ks -> k ∈ P) ->
  grouper_inv P (set_attributes m (aset a (aset v ks (attr_index m a)) (attributes m))).
Proof.
  intros Hi Hks. apply set_attributes_inv; [exact Hi|].
  intros v' ks' k H Hk. apply aset_elem in H as [[= -> ->]|H]; [exact (Hks k Hk)|].
  destruct (attr_index_elem m a v' ks' H) as [vals [Ha Hv]].
  exact (gi_attrs _ _ Hi a vals v' ks' k Ha Hv Hk).
Qed.

Lemma fold_result_inv {A B} (I : A -> Prop) (f : A -> B -> result A) (l : list B) (a a' : A) :
  (forall x b y, b ∈ l -> I x -> f x b = Ok y -> I y) ->
  I a -> fold_result f l a = Ok a' -> I a'.
Proof.
  revert a. induction l as [|b l IH]; intros a Hf Ha; cbn [fold_result].
  - intros [= <-]. exact Ha.
  - destruct (f a b) as [y|e] eqn:E; cbn [bind]; [|discriminate].
    apply IH; [|exact (Hf a b y (list_elem_of_here b l) Ha E)].
    intros x b' z Hb'. apply Hf. right. exact Hb'.
Qed.

(** A record key [K] absent from [P] has no group and names no group. *)
Lemma inv_fresh (P : list string) (m : mappings) (K : string) :
  grouper_inv P m -> K ∉ P -> groups m !! K = None /\ vcard_group m !! K = None.
Proof.
  intros Hi HK.
  assert (Hv : vcard_group m !! K = None).
  { destruct (vcard_group m !! K) as [v|] eqn:E; [|reflexivity].
    exfalso. exact (HK (gi_dom _ _ Hi K v E)). }
  split; [|exact Hv].
  destruct (groups m !! K) as [ms|] eqn:E; [|reflexivity]. exfalso.
  assert (Hg : group_of m K = Some K)
    by (apply (gi_members _ _ Hi); exists ms; split; [exact E|exact (gi_self _ _ Hi K ms E)]).
  unfold group_of in Hg. rewrite Hv in Hg. discriminate.
Qed.

Section Phases.
Variable V : Type.
Variable vcard_fn : V -> result string.
Variable collect_values : V -> string -> result (list string).
Variable match_approx : string -> string -> bool.
Variable OPTION_MATCH_ATTRIBUTES : list string.
Variable OPTION_NO_MATCH_APPROX : bool.

Lemma map_value_inv (P : list string) (K a_key a_value : string) (m m' : mappings) (loc' : pyv) :
  grouper_inv P m -> K ∈ P ->
  map_value select U K a_key (m, current_group m K) a_value = Ok (m', loc') ->
  grouper_inv P m' /\ loc' = current_group m' K.
Proof.
  intros Hi HK Hmv. unfold map_value in Hmv.
  destruct (alookup a_value (attr_index m a_key)) as [keys|] eqn:E.
  - apply alookup_elem in E.
    destruct (Fixer.in_list K keys); [injection Hmv as <- <-; auto|].
    destruct keys as [|matched rest]; [discriminate|].
    destruct (String.eqb matched "") eqn:Em; [discriminate|].
    destruct (attr_index_elem m a_key a_value (matched :: rest) E) as [vals [Ha Hv]].
    assert (Hm : matched ∈ P)
      by exact (gi_attrs _ _ Hi a_key vals a_value _ matched Ha Hv (list_elem_of_here _ _)).
    set (m1 := set_attributes m _) in Hmv.
    assert (Hi1 : grouper_inv P m1).
    { apply set_attributes_index_inv; [exact Hi|].
      intros k Hk. apply elem_of_app in Hk as [Hk|Hk].
      - exact (gi_attrs _ _ Hi a_key vals a_value _ k Ha Hv Hk).
      - apply list_elem_of_singleton in Hk. subst. exact HK. }
    destruct (group_keys_spec P m1 m' K matched loc' Hi1 HK Hm Hmv) as [Hi' [Hl _]].
    auto.
  - injection Hmv as <- <-. split; [|reflexivity].
    apply set_attributes_index_inv; [exact Hi|].
    intros k Hk. apply list_elem_of_singleton in Hk. subst. exact HK.
Qed.

Lemma map_attribute_inv (P : list string) (K : string) (vc : V) (attr : string)
    (m m' : mappings) (loc' : pyv) :
  grouper_inv P m -> K ∈ P ->
  map_attribute select U V collect_values K vc (m, current_group m K) attr = Ok (m', loc') ->
  grouper_inv P m' /\ loc' = current_group m' K.
Proof.
  intros Hi HK Hma. unfold map_attribute in Hma.
  destruct (collect_values vc attr) as [vs|e]; cbn [bind] in Hma; [|discriminate].
  destruct vs as [|v0 vs]; [injection Hma as <- <-; auto|].
  set (m1 := match alookup (a_key_of attr) (attributes m) with
             | Some _ => m | None => set_attributes m (aset (a_key_of attr) [] (attributes m)) end) in Hma.
  assert (Hi1 : grouper_inv P m1 /\ current_group m1 K = current_group m K).
  { subst m1. destruct (alookup (a_key_of attr) (attributes m)); [auto|].
    split; [|reflexivity]. apply set_attributes_inv; [exact Hi|].
    intros v ks k H. apply elem_of_nil in H. contradiction. }
  destruct Hi1 as [Hi1 Hc1]. rewrite <- Hc1 in Hma.
  apply (fold_result_inv (fun '(m, l) => grouper_inv P m /\ l = current_group m K)
           _ _ (m1, current_group m1 K) (m', loc')) in Hma; [exact Hma| |auto].
  intros [x lx] b [y ly] _ [Hx ->] Hy. exact (map_value_inv P K _ b x y ly Hx HK Hy).
Qed.

Lemma map_vcard_inv (P : list string) (K : string) (vc : V) (m m' : mappings) :
  grouper_inv P m -> K ∉ P ->
  map_vcard select U V vcard_fn collect_values OPTION_MATCH_ATTRIBUTES m (K, vc) = Ok m' ->
  grouper_inv (K :: P) m'.
Proof.
  intros Hi HK Hmv. unfold map_vcard in Hmv.
  destruct (vcard_fn vc) as [fn|e]; cbn [bind] in Hmv; [|discriminate].
  destruct (inv_fresh P m K Hi HK) as [Hg Hv]. rewrite Hg in Hmv.
  assert (Hc : PyNone = current_group m K) by (unfold current_group; rewrite Hv; reflexivity).
  rewrite Hc in Hmv.
  destruct (fold_result _ _ _) as [[m1 l1]|e] eqn:Ef; cbn [bind] in Hmv; [|discriminate].
  injection Hmv as <-.
  apply (fold_result_inv (fun '(m, l) => grouper_inv (K :: P) m /\ l = current_group m K)
           _ _ (m, current_group m K) (m1, l1)) in Ef; [exact (proj1 Ef)| |].
  - intros [x lx] b [y ly] _ [Hx ->] Hy.
    exact (map_attribute_inv (K :: P) K vc b x y ly Hx (list_elem_of_here _ _) Hy).
  - split; [|reflexivity]. apply (inv_mono P); [exact Hi|]. intros x Hx. right. exact Hx.
Qed.

Lemma phase1_go_inv (l : list (string * V)) (P : list string) (m m' : mappings) :
  grouper_inv P m -> (forall k, k ∈ map fst l -> k ∉ P) -> NoDup (map fst l) ->
  fold_result (map_vcard select U V vcard_fn collect_values OPTION_MATCH_ATTRIBUTES) l m = Ok m' ->
  grouper_inv (map fst l ++ P) m'.
Proof.
  revert P m. induction l as [|[K vc] l IH]; intros P m Hi Hfresh Hnd; cbn [fold_result].
  - intros [= <-]. exact Hi.
  - destruct (map_vcard _ _ _ _ _ _ m (K, vc)) as [m1|e] eqn:E; cbn [bind]; [|discriminate].
    intros Hf. cbn [map fst] in Hfresh, Hnd |- *. apply NoDup_cons in Hnd as [HKl Hnd].
    apply (map_vcard_inv P) in E; [|exact Hi|apply Hfresh; left].
    apply (inv_mono (map fst l ++ K :: P)).
    + apply (IH (K :: P) m1 E); [|exact Hnd|exact Hf].
      intros k Hk Hk'. apply elem_of_cons in Hk' as [->|Hk']; [contradiction|].
      exact (Hfresh k (list_elem_of_further _ _ _ Hk) Hk').
    + intros x Hx. set_solver.
Qed.

Lemma phase1_inv (vcards : list (string * V)) (m : mappings) :
  NoDup (map fst vcards) ->
  phase1 select U V vcard_fn collect_values OPTION_MATCH_ATTRIBUTES vcards = Ok m ->
  grouper_inv (map fst vcards) m.
Proof.
  intros Hnd H. rewrite <- (app_nil_r (map fst vcards)).
  apply (phase1_go_inv vcards [] empty_mappings m inv_empty); [|exact Hnd|exact H].
  intros k _ Hk. apply elem_of_nil in Hk. exact Hk.
Qed.

Lemma compare_names_inv (P : list string) (name1 : string) (keys1 : list string)
    (nk2 : string * list string) (m m' : mappings) :
  grouper_inv P m -> (forall k, k ∈ keys1 -> k ∈ P) -> (forall k, k ∈ snd nk2 -> k ∈ P) ->
  compare_names select U match_approx name1 keys1 m nk2 = Ok m' -> grouper_inv P m'.
Proof.
  destruct nk2 as [name2 keys2]. cbn [snd]. intros Hi Hk1 Hk2 H. unfold compare_names in H.
  destruct (match_approx name1 name2); [|injection H as <-; exact Hi].
  destruct keys1 as [|key1 keys1]; [discriminate|].
  assert (Hkey2 : forall key2, (if Fixer.in_list key1 keys2 then Ok key1 else
                     match keys2 with [] => Err (IndexError "list index out of range")
                                 | k :: _ => Ok k end) = Ok key2 -> key2 ∈ P).
  { intros key2. destruct (Fixer.in_list key1 keys2).
    - intros [= <-]. apply Hk1. left.
    - destruct keys2 as [|k keys2]; [discriminate|]. intros [= <-]. apply Hk2. left. }
  destruct (if Fixer.in_list key1 keys2 then _ else _) as [key2|e] eqn:E; cbn [bind] in H;
    [|discriminate].
  destruct (group_keys _ _ _ _ _ _ _) as [[m1 s1]|e] eqn:Eg; cbn [bind] in H; [|discriminate].
  injection H as <-.
  exact (proj1 (group_keys_spec P m m1 key1 key2 s1 Hi (Hk1 key1 (list_elem_of_here _ _))
                  (Hkey2 key2 eq_refl) Eg)).
Qed.

Lemma compare_all_inv (P : list string) (names : list (string * list string)) (m m' : mappings) :
  grouper_inv P m -> (forall n ks k, (n, ks) ∈ names -> k ∈ ks -> k ∈ P) ->
  compare_all select U match_approx names m = Ok m' -> grouper_inv P m'.
Proof.
  revert m. induction names as [|[name1 keys1] rest IH]; intros m Hi Hn; cbn [compare_all].
  - intros [= <-]. exact Hi.
  - destruct (fold_result _ rest m) as [m1|e] eqn:E; cbn [bind]; [|discriminate].
    apply IH; [|intros n ks k H; apply (Hn n ks k); right; exact H].
    apply (fold_result_inv (grouper_inv P) (compare_names select U match_approx name1 keys1) rest m m1); [|exact Hi|exact E].
    intros x [name2 keys2] y Hb Hx Hy.
    apply (compare_names_inv P name1 keys1 (name2, keys2) x y Hx); [| |exact Hy].
    + intros k Hk. apply (Hn name1 keys1 k); [left|exact Hk].
    + intros k Hk. apply (Hn name2 keys2 k); [right; exact Hb|exact Hk].
Qed.

Lemma phase2_inv (P : list string) (m m' : mappings) :
  grouper_inv P m ->
  phase2 select U match_approx OPTION_MATCH_ATTRIBUTES OPTION_NO_MATCH_APPROX m = Ok m' ->
  grouper_inv P m'.
Proof.
  intros Hi H. unfold phase2 in H.
  destruct (negb OPTION_NO_MATCH_APPROX && Fixer.in_list "names" OPTION_MATCH_ATTRIBUTES);
    [|injection H as <-; exact Hi].
  destruct (alookup "names" (attributes m)) as [names|] eqn:E; [|discriminate].
  apply alookup_elem in E.
  apply (compare_all_inv P names m m' Hi); [|exact H].
  intros n ks k Hks Hk. exact (gi_attrs _ _ Hi "names" names n ks k E Hks Hk).
Qed.

Lemma grouper_run_inv (vcards : list (string * V)) (m : mappings) :
  NoDup (map fst vcards) ->
  grouper_run select U V vcard_fn collect_values match_approx OPTION_MATCH_ATTRIBUTES
    OPTION_NO_MATCH_APPROX vcards = Ok m ->
  grouper_inv (map fst vcards) m.
Proof.
  intros Hnd H. unfold grouper_run in H.
  destruct (phase1 _ _ _ _ _ _ vcards) as [m1|e] eqn:E; cbn [bind] in H; [|discriminate].
  exact (phase2_inv _ m1 m (phase1_inv vcards m1 Hnd E) H).
Qed.

(** C1: whatever sequence of [group_keys] calls the grouper makes, starting
    from the empty mappings, the mappings it ends with are consistent: a
    record key [k] is mapped to the group [g] in [vcard_group] exactly when
    [k] is a member of [groups[g]], and no record key is a member of two
    groups.  This holds for every name selection that returns one of its
    candidates, which is not empty, and for every setting of the options. *)
Theorem grouper_run_consistent (vcards : list (string * V)) (m : mappings) :
  NoDup (map fst vcards) ->
  grouper_run select U V vcard_fn collect_values match_approx OPTION_MATCH_ATTRIBUTES
    OPTION_NO_MATCH_APPROX vcards = Ok m ->
  (forall k g, vcard_group m !! k = Some (PyStr g) <->
               exists ms, groups m !! g = Some ms /\ k ∈ ms) /\
  (forall k g1 g2 ms1 ms2, groups m !! g1 = Some ms1 -> k ∈ ms1 ->
                           groups m !! g2 = Some ms2 -> k ∈ ms2 -> g1 = g2).
Proof.
  intros Hnd H. pose proof (grouper_run_inv vcards m Hnd H) as Hi. split.
  - intros k g. rewrite <- (gi_members _ _ Hi k g). split.
    + apply group_of_some.
    + unfold group_of. destruct (vcard_group m !! k) as [[]|]; congruence.
  - intros k g1 g2 ms1 ms2 H1 Hk1 H2 Hk2.
    assert (E1 : group_of m k = Some g1) by (apply (gi_members _ _ Hi); eauto).
    assert (E2 : group_of m k = Some g2) by (apply (gi_members _ _ Hi); eauto).
    congruence.
Qed.

End Phases.

End WithSelect.

Lemma select_first_ok (l : list string) (x : string) :
  GrouperExample.select_first l = Ok x -> x ∈ l /\ x <> "".
Proof.
  induction l as [|n l IH]; cbn [GrouperExample.select_first]; [discriminate|].
  destruct (String.eqb n "") eqn:E.
  - intros H. destruct (IH H) as [Hx Hne]. split; [right; exact Hx|exact Hne].
  - intros [= <-]. split; [left|]. apply String.eqb_neq. exact E.
Qed.

Lemma grouper_run_consistent_witness :
  match GrouperExample.run false GrouperExample.sample with
  | Ok m =>
      (forall k g, vcard_group m !! k = Some (PyStr g) <->
                   exists ms, groups m !! g = Some ms /\ k ∈ ms) /\
      (forall k g1 g2 ms1 ms2, groups m !! g1 = Some ms1 -> k ∈ ms1 ->
                               groups m !! g2 = Some ms2 -> k ∈ ms2 -> g1 = g2)
  | Err _ => False
  end.
Proof.
  destruct (GrouperExample.run false GrouperExample.sample) as [m|e] eqn:E.
  - apply (grouper_run_consistent GrouperExample.select_first true select_first_ok
             GrouperExample.record GrouperExample.record_fn GrouperExample.record_values
             GrouperExample.match_exact ["email"; "tel"; "mobiles"; "names"] false
             GrouperExample.sample m).
    + apply (bool_decide_unpack _). vm_compute. reflexivity.
    + exact E.
  - vm_compute in E. discriminate.
Defined.

(** *** The partition of phase 1 *)

Lemma rtc_mono {A} (R1 R2 : relation A) :
  (forall a b, R1 a b -> rtc R2 a b) -> forall a b, rtc R1 a b -> rtc R2 a b.
Proof.
  intros H a b Hab. induction Hab as [a|a c b Hac _ IH]; [apply rtc_refl|].
  exact (rtc_trans _ _ _ (H a c Hac) IH).
Qed.

(** The closure of a symmetric relation with one more edge. *)
Lemma rtc_edge {A} (R : relation A) (x y : A) :
  (forall a b, R a b -> R b a) ->
  forall a b, rtc (fun a b => R a b \/ (a = x /\ b = y) \/ (a = y /\ b = x)) a b <->
    rtc R a b \/ (rtc R a x /\ rtc R y b) \/ (rtc R a y /\ rtc R x b).
Proof.
  intros Hs.
  assert (Heq : Equivalence (rtc R)) by (apply rtc_equivalence; exact Hs).
  set (S := fun a b => R a b \/ (a = x /\ b = y) \/ (a = y /\ b = x)).
  assert (Hsub : forall a b, rtc R a b -> rtc S a b).
  { apply rtc_mono. intros a b H. apply rtc_once. left. exact H. }
  intros a b. split.
  - intros Hab. induction Hab as [a|a c b Hac Hcb IH]; [left; reflexivity|].
    destruct Hac as [Hac|[[-> ->]|[-> ->]]].
    + destruct IH as [H|[[H1 H2]|[H1 H2]]].
      * left. exact (rtc_l _ _ _ _ Hac H).
      * right. left. split; [exact (rtc_l _ _ _ _ Hac H1)|exact H2].
      * right. right. split; [exact (rtc_l _ _ _ _ Hac H1)|exact H2].
    + destruct IH as [H|[[H1 H2]|[H1 H2]]].
      * right. left. split; [reflexivity|exact H].
      * right. left. split; [reflexivity|exact H2].
      * left. exact H2.
    + destruct IH as [H|[[H1 H2]|[H1 H2]]].
      * right. right. split; [reflexivity|exact H].
      * left. exact H2.
      * right. right. split; [reflexivity|exact H2].
  - intros [H|[[H1 H2]|[H1 H2]]].
    + exact (Hsub a b H).
    + apply (rtc_trans _ x); [exact (Hsub a x H1)|].
      apply (rtc_l _ _ y); [right; left; auto|exact (Hsub y b H2)].
    + apply (rtc_trans _ y); [exact (Hsub a y H1)|].
      apply (rtc_l _ _ x); [right; right; auto|exact (Hsub x b H2)].
Qed.

Lemma share_index_sym (m : mappings) (x y : string) :
  share_index m x y -> share_index m y x.
Proof. intros [a [v [Hx Hy]]]. exists a, v. auto. Qed.

Lemma index_has_attrs (m m' : mappings) :
  attributes m' = attributes m -> forall k a v, index_has m' k a v <-> index_has m k a v.
Proof. intros H k a v. unfold index_has. rewrite H. reflexivity. Qed.

Lemma rtc_share_ext (m m' : mappings) :
  (forall k a v, index_has m' k a v <-> index_has m k a v) ->
  forall x y, rtc (share_index m') x y <-> rtc (share_index m) x y.
Proof.
  intros H x y. split; apply rtc_mono; intros p q [a [v [Hp Hq]]]; apply rtc_once;
    exists a, v; split; apply H; assumption.
Qed.

(** Setting [attributes[a][v]] to [ks]. *)
Lemma index_has_set (m : mappings) (a v : string) (ks : list string) (k a' v' : string) :
  index_has (set_attributes m (aset a (aset v ks (attr_index m a)) (attributes m))) k a' v' <->
  (a' = a /\ v' = v /\ k ∈ ks) \/ (~ (a' = a /\ v' = v) /\ index_has m k a' v').
Proof.
  unfold index_has, attr_index. cbn [set_attributes attributes]. rewrite alookup_aset.
  destruct (String.eqb a' a) eqn:Ea.
  - apply String.eqb_eq in Ea. subst a'. split.
    + intros [vals [ks' [[= <-] [Hv Hk]]]]. rewrite alookup_aset in Hv.
      destruct (String.eqb v' v) eqn:Ev.
      * apply String.eqb_eq in Ev. subst v'. injection Hv as <-. left. auto.
      * apply String.eqb_neq in Ev. right. split; [tauto|].
        destruct (alookup a (attributes m)) as [vals0|]; cbn [default alookup] in Hv;
          [|discriminate].
        exists vals0, ks'. auto.
    + intros [[_ [-> Hk]]|[Hne [vals [ks' [H0 [Hv Hk]]]]]].
      * eexists _, ks. split; [reflexivity|]. rewrite alookup_aset, String.eqb_refl. auto.
      * eexists _, ks'. split; [reflexivity|]. rewrite alookup_aset.
        destruct (String.eqb v' v) eqn:Ev; [apply String.eqb_eq in Ev; tauto|].
        rewrite H0. cbn [default]. auto.
  - apply String.eqb_neq in Ea. split.
    + intros H. right. split; [tauto|exact H].
    + intros [[-> _]|[_ H]]; [contradiction|exact H].
Qed.

(** Creating an empty [attributes[a]]. *)
Lemma index_has_nil (m : mappings) (a : string) :
  alookup a (attributes m) = None ->
  forall k a' v', index_has (set_attributes m (aset a [] (attributes m))) k a' v' <->
                  index_has m k a' v'.
Proof.
  intros E k a' v'. unfold index_has. cbn [set_attributes attributes]. rewrite alookup_aset.
  destruct (String.eqb a' a) eqn:Ea.
  - apply String.eqb_eq in Ea. subst a'. rewrite E. split.
    + intros [vals [ks [[= <-] [Hv _]]]]. discriminate.
    + intros [vals [_ [H _]]]. discriminate.
  - split; intros H; exact H.
Qed.

(** Listing one more record key [K] under [a] and [v]. *)
Lemma share_add (m m' : mappings) (K a v : string) :
  (forall k a' v', index_has m' k a' v' <-> index_has m k a' v' \/ (k = K /\ a' = a /\ v' = v)) ->
  (forall x y, share_index m x y -> share_index m' x y) /\
  (forall x y, share_index m' x y -> share_index m x y \/
     (x = K /\ (y = K \/ index_has m y a v)) \/ (y = K /\ index_has m x a v)).
Proof.
  intros Hf. split.
  - intros x y [a' [v' [Hx Hy]]]. exists a', v'. rewrite !Hf. auto.
  - intros x y [a' [v' [Hx Hy]]]. rewrite Hf in Hx, Hy.
    destruct Hx as [Hx|(Ex & Ea & Ev)]; destruct Hy as [Hy|(Ey & Ea' & Ev')]; subst.
    + left. exists a', v'. auto.
    + right. right. auto.
    + right. left. auto.
    + right. left. auto.
Qed.

(** A value no record had yet: the closure does not change. *)
Lemma rtc_share_fresh (m m' : mappings) (K a v : string) :
  (forall k a' v', index_has m' k a' v' <-> index_has m k a' v' \/ (k = K /\ a' = a /\ v' = v)) ->
  (forall k, ~ index_has m k a v) ->
  forall x y, rtc (share_index m') x y <-> rtc (share_index m) x y.
Proof.
  intros Hf Hn. destruct (share_add m m' K a v Hf) as [H1 H2]. intros x y. split.
  - apply rtc_mono. intros p q Hpq.
    destruct (H2 p q Hpq) as [H|[[-> [->|H]]|[-> H]]].
    + apply rtc_once. exact H.
    + apply rtc_refl.
    + exfalso. exact (Hn q H).
    + exfalso. exact (Hn p H).
  - apply rtc_mono. intros p q Hpq. apply rtc_once. exact (H1 p q Hpq).
Qed.

(** A value the record key [c] already has: one more edge from [K] to [c]. *)
Lemma rtc_share_edge (m m' : mappings) (K a v c : string) :
  (forall k a' v', index_has m' k a' v' <-> index_has m k a' v' \/ (k = K /\ a' = a /\ v' = v)) ->
  index_has m c a v ->
  forall x y, rtc (share_index m') x y <->
    rtc (fun p q => share_index m p q \/ (p = K /\ q = c) \/ (p = c /\ q = K)) x y.
Proof.
  intros Hf Hc. destruct (share_add m m' K a v Hf) as [H1 H2].
  assert (HKc : share_index m' K c) by (exists a, v; rewrite !Hf; auto).
  intros x y. split.
  - apply rtc_mono. intros p q Hpq.
    destruct (H2 p q Hpq) as [H|[[-> [->|H]]|[-> H]]].
    + apply rtc_once. left. exact H.
    + apply rtc_refl.
    + apply (rtc_l _ _ c); [right; left; auto|].
      apply rtc_once. left. exists a, v. auto.
    + apply (rtc_l _ _ c); [left; exists a, v; auto|].
      apply rtc_once. right. right. auto.
  - apply rtc_mono. intros p q [H|[[-> ->]|[-> ->]]]; apply rtc_once.
    + exact (H1 p q H).
    + exact HKc.
    + exact (share_index_sym _ _ _ HKc).
Qed.

Lemma in_list_elem (x : string) (l : list string) : Fixer.in_list x l = true -> x ∈ l.
Proof.
  unfold Fixer.in_list. intros H. apply existsb_exists in H as [y [Hy Ey]].
  apply String.eqb_eq in Ey. subst y. apply list_elem_of_In. exact Hy.
Qed.

Lemma inv_empty_partition (x y : string) :
  same_group empty_mappings x y <-> rtc (share_index empty_mappings) x y.
Proof.
  split.
  - intros [->|[g [H _]]]; [apply rtc_refl|]. discriminate.
  - intros H. apply rtc_inv in H as [->|[z [[a [v [[vals [ks [Ha _]]] _]]] _]]];
      [left; reflexivity|]. discriminate.
Qed.

Section Partition.
Variable select : list string -> result string.
Variable U : bool.
Hypothesis Hsel : forall l x, select l = Ok x -> x ∈ l /\ x <> "".
Variable V : Type.
Variable vcard_fn : V -> result string.
Variable collect_values : V -> string -> result (list string).
Variable match_approx : string -> string -> bool.
Variable OPTION_MATCH_ATTRIBUTES : list string.

Lemma map_value_part (P : list string) (K a v : string) (m m' : mappings) (loc' : pyv) :
  grouper_inv P m -> K ∈ P -> (forall x y, same_group m x y <-> rtc (share_index m) x y) ->
  map_value select U K a (m, current_group m K) v = Ok (m', loc') ->
  (forall x y, same_group m' x y <-> rtc (share_index m') x y) /\
  (forall k a' v', index_has m' k a' v' <-> index_has m k a' v' \/ (k = K /\ a' = a /\ v' = v)).
Proof.
  intros Hi HK Hsg Hmv. unfold map_value in Hmv.
  destruct (alookup v (attr_index m a)) as [keys|] eqn:E.
  - assert (Hkeys : forall k, index_has m k a v <-> k ∈ keys).
    { intros k. unfold index_has. unfold attr_index in E.
      destruct (alookup a (attributes m)) as [vals|]; cbn [default alookup id] in E; [|discriminate].
      split.
      - intros [vals' [ks [[= <-] [Hv Hk]]]]. assert (ks = keys) by congruence. subst. exact Hk.
      - intros Hk. exists vals, keys. auto. }
    destruct (Fixer.in_list K keys) eqn:Ein.
    + injection Hmv as <- <-. split; [exact Hsg|]. intros k a' v'. split; [auto|].
      intros [H|[-> [-> ->]]]; [exact H|]. apply Hkeys. apply in_list_elem. exact Ein.
    + destruct keys as [|matched rest]; [discriminate|].
      destruct (String.eqb matched "") eqn:Em; [discriminate|].
      apply alookup_elem in E as E'.
      destruct (attr_index_elem m a v (matched :: rest) E') as [vals [Ha Hv]].
      assert (Hm : matched ∈ P)
        by exact (gi_attrs _ _ Hi a vals v _ matched Ha Hv (list_elem_of_here _ _)).
      assert (Hi1 : grouper_inv P (set_attributes m (aset a (aset v ((matched :: rest) ++ [K])%list
                      (attr_index m a)) (attributes m)))).
      { apply set_attributes_index_inv; [exact Hi|].
        intros k Hk. apply elem_of_app in Hk as [Hk|Hk].
        - exact (gi_attrs _ _ Hi a vals v _ k Ha Hv Hk).
        - apply list_elem_of_singleton in Hk. subst. exact HK. }
      set (m1 := set_attributes m _) in Hi1, Hmv.
      assert (Hf1 : forall k a' v', index_has m1 k a' v' <->
                                   index_has m k a' v' \/ (k = K /\ a' = a /\ v' = v)).
      { intros k a' v'. subst m1. rewrite index_has_set. split.
        - intros [[-> [-> Hk]]|[Hne H]].
          + apply elem_of_app in Hk as [Hk|Hk].
            * left. apply Hkeys. exact Hk.
            * right. apply list_elem_of_singleton in Hk. auto.
          + left. exact H.
        - intros [H|[-> [-> ->]]].
          + destruct (decide (a' = a /\ v' = v)) as [[-> ->]|Hne].
            * left. split; [reflexivity|split; [reflexivity|]].
              apply elem_of_app. left. apply Hkeys. exact H.
            * right. auto.
          + left. split; [reflexivity|split; [reflexivity|]].
            apply elem_of_app. right. left. }
      destruct (group_keys_spec select U Hsel P m1 m' K matched loc' Hi1 HK Hm Hmv)
        as [_ [_ [Hat Hsg']]].
      pose proof (index_has_attrs m1 m' Hat) as Hf'.
      split.
      * intros x y. rewrite Hsg', (rtc_share_ext m1 m' Hf').
        rewrite (rtc_share_edge m m1 K a v matched Hf1 (proj2 (Hkeys matched) (list_elem_of_here _ _))).
        rewrite (rtc_edge (share_index m) K matched (share_index_sym m)).
        assert (Hs1 : forall p q, same_group m1 p q <-> rtc (share_index m) p q)
          by (intros p q; rewrite <- Hsg; apply same_group_ext; intros; reflexivity).
        rewrite !Hs1. reflexivity.
      * intros k a' v'. rewrite Hf'. exact (Hf1 k a' v').
  - injection Hmv as <- <-.
    assert (Hn : forall k, ~ index_has m k a v).
    { intros k [vals [ks [Ha [Hv _]]]]. unfold attr_index in E. rewrite Ha in E.
      cbn [default id] in E. congruence. }
    assert (Hf : forall k a' v', index_has (set_attributes m (aset a (aset v [K] (attr_index m a))
                   (attributes m))) k a' v' <-> index_has m k a' v' \/ (k = K /\ a' = a /\ v' = v)).
    { intros k a' v'. rewrite index_has_set. split.
      - intros [[-> [-> Hk]]|[_ H]]; [|left; exact H].
        apply list_elem_of_singleton in Hk. right. auto.
      - intros [H|[-> [-> ->]]].
        + right. split; [|exact H]. intros [-> ->]. exact (Hn k H).
        + left. split; [reflexivity|split; [reflexivity|left]]. }
    split; [|exact Hf].
    intros x y. rewrite (rtc_share_fresh m _ K a v Hf Hn), <- Hsg.
    apply same_group_ext. intros; reflexivity.
Qed.

Lemma fold_values_part (P : list string) (K a : string) (vs : list string) (m m' : mappings)
    (loc' : pyv) :
  grouper_inv P m -> K ∈ P -> (forall x y, same_group m x y <-> rtc (share_index m) x y) ->
  fold_result (map_value select U K a) vs (m, current_group m K) = Ok (m', loc') ->
  grouper_inv P m' /\ loc' = current_group m' K /\
  (forall x y, same_group m' x y <-> rtc (share_index m') x y) /\
  (forall k a' v', index_has m' k a' v' <-> index_has m k a' v' \/ (k = K /\ a' = a /\ v' ∈ vs)).
Proof.
  revert m. induction vs as [|v vs IH]; intros m Hi HK Hsg; cbn [fold_result].
  - intros [= <- <-]. split; [exact Hi|split; [reflexivity|split; [exact Hsg|]]].
    intros k a' v'. split; [auto|]. intros [H|(_ & _ & H)]; [exact H|].
    apply elem_of_nil in H. contradiction.
  - destruct (map_value select U K a (m, current_group m K) v) as [[m1 l1]|e] eqn:E;
      cbn [bind]; [|discriminate].
    intros Hf.
    destruct (map_value_inv select U Hsel P K a v m m1 l1 Hi HK E) as [Hi1 ->].
    destruct (map_value_part P K a v m m1 _ Hi HK Hsg E) as [Hsg1 Hf1].
    destruct (IH m1 Hi1 HK Hsg1 Hf) as (Hi' & Hl & Hsg' & Hf').
    split; [exact Hi'|split; [exact Hl|split; [exact Hsg'|]]].
    intros k a' v'. rewrite Hf', Hf1, elem_of_cons. tauto.
Qed.

Lemma map_attribute_part (P : list string) (K : string) (vc : V) (attr : string)
    (m m' : mappings) (loc' : pyv) :
  grouper_inv P m -> K ∈ P -> (forall x y, same_group m x y <-> rtc (share_index m) x y) ->
  map_attribute select U V collect_values K vc (m, current_group m K) attr = Ok (m', loc') ->
  grouper_inv P m' /\ loc' = current_group m' K /\
  (forall x y, same_group m' x y <-> rtc (share_index m') x y) /\
  (forall k a' v', index_has m' k a' v' <-> index_has m k a' v' \/
     (k = K /\ a' = a_key_of attr /\ exists vs, collect_values vc attr = Ok vs /\ v' ∈ vs)).
Proof.
  intros Hi HK Hsg Hma. unfold map_attribute in Hma.
  destruct (collect_values vc attr) as [vs|e] eqn:Ecv; cbn [bind] in Hma; [|discriminate].
  destruct vs as [|v0 vs].
  - injection Hma as <- <-. split; [exact Hi|split; [reflexivity|split; [exact Hsg|]]].
    intros k a' v'. split; [auto|]. intros [H|(_ & _ & vs' & Hvs & H)]; [exact H|].
    injection Hvs as <-. apply elem_of_nil in H. contradiction.
  - set (m1 := match alookup (a_key_of attr) (attributes m) with
               | Some _ => m | None => set_attributes m (aset (a_key_of attr) [] (attributes m)) end)
      in Hma.
    assert (H1 : grouper_inv P m1 /\ current_group m1 K = current_group m K /\
                 (forall x y, same_group m1 x y <-> rtc (share_index m1) x y) /\
                 forall k a' v', index_has m1 k a' v' <-> index_has m k a' v').
    { subst m1. destruct (alookup (a_key_of attr) (attributes m)) eqn:Ea.
      - split; [exact Hi|split; [reflexivity|split; [exact Hsg|]]]. intros; reflexivity.
      - pose proof (index_has_nil m _ Ea) as Hn.
        split; [|split; [reflexivity|split; [|exact Hn]]].
        + apply set_attributes_inv; [exact Hi|]. intros v ks k H. apply elem_of_nil in H. contradiction.
        + intros x y. rewrite (rtc_share_ext m _ Hn), <- Hsg.
          apply same_group_ext. intros; reflexivity. }
    destruct H1 as (Hi1 & Hc1 & Hsg1 & Hf1). rewrite <- Hc1 in Hma.
    destruct (fold_values_part P K (a_key_of attr) (v0 :: vs) m1 m' loc' Hi1 HK Hsg1 Hma)
      as (Hi' & Hl & Hsg' & Hf').
    split; [exact Hi'|split; [exact Hl|split; [exact Hsg'|]]].
    intros k a' v'. rewrite Hf', Hf1. split.
    + intros [H|(-> & -> & H)]; [left; exact H|right].
      split; [reflexivity|split; [reflexivity|]]. exists (v0 :: vs). auto.
    + intros [H|(-> & -> & vs' & Hvs & H)]; [left; exact H|right].
      split; [reflexivity|split; [reflexivity|]]. injection Hvs as <-. exact H.
Qed.

Lemma record_has_cons (vc : V) (attr : string) (attrs : list string) (a v : string) :
  record_has collect_values (attr :: attrs) vc a v <->
  (a = a_key_of attr /\ exists vs, collect_values vc attr = Ok vs /\ v ∈ vs) \/
  record_has collect_values attrs vc a v.
Proof.
  split.
  - intros (attr' & vs & Hin & Ha & Hvs & Hv). apply elem_of_cons in Hin as [->|Hin].
    + left. split; [congruence|]. exists vs. auto.
    + right. exists attr', vs. auto.
  - intros [(-> & vs & Hvs & Hv)|(attr' & vs & Hin & Ha & Hvs & Hv)].
    + exists attr, vs. split; [left|auto].
    + exists attr', vs. split; [right; exact Hin|auto].
Qed.

Lemma fold_attrs_part (P : list string) (K : string) (vc : V) (attrs : list string)
    (m m' : mappings) (loc' : pyv) :
  grouper_inv P m -> K ∈ P -> (forall x y, same_group m x y <-> rtc (share_index m) x y) ->
  fold_result (map_attribute select U V collect_values K vc) attrs (m, current_group m K)
    = Ok (m', loc') ->
  grouper_inv P m' /\ (forall x y, same_group m' x y <-> rtc (share_index m') x y) /\
  (forall k a v, index_has m' k a v <-> index_has m k a v \/
     (k = K /\ record_has collect_values attrs vc a v)).
Proof.
  revert m. induction attrs as [|attr attrs IH]; intros m Hi HK Hsg; cbn [fold_result].
  - intros [= <- <-]. split; [exact Hi|split; [exact Hsg|]].
    intros k a v. split; [auto|]. intros [H|(_ & attr & vs & Hin & _)]; [exact H|].
    apply elem_of_nil in Hin. contradiction.
  - destruct (map_attribute select U V collect_values K vc (m, current_group m K) attr)
      as [[m1 l1]|e] eqn:E; cbn [bind]; [|discriminate].
    intros Hf.
    destruct (map_attribute_part P K vc attr m m1 l1 Hi HK Hsg E) as (Hi1 & -> & Hsg1 & Hf1).
    destruct (IH m1 Hi1 HK Hsg1 Hf) as (Hi' & Hsg' & Hf').
    split; [exact Hi'|split; [exact Hsg'|]].
    intros k a v. rewrite Hf', Hf1, record_has_cons. split.
    + intros [[H|(-> & -> & H)]|(-> & H)]; [left; exact H|right|right]; auto.
    + intros [H|(-> & [(-> & H)|H])]; [left; left; exact H|left; right|right]; auto.
Qed.

Lemma map_vcard_part (P : list string) (K : string) (vc : V) (m m' : mappings) :
  grouper_inv P m -> K ∉ P -> (forall x y, same_group m x y <-> rtc (share_index m) x y) ->
  map_vcard select U V vcard_fn collect_values OPTION_MATCH_ATTRIBUTES m (K, vc) = Ok m' ->
  grouper_inv (K :: P) m' /\ (forall x y, same_group m' x y <-> rtc (share_index m') x y) /\
  (forall k a v, index_has m' k a v <-> index_has m k a v \/
     (k = K /\ record_has collect_values OPTION_MATCH_ATTRIBUTES vc a v)).
Proof.
  intros Hi HK Hsg Hmv. unfold map_vcard in Hmv.
  destruct (vcard_fn vc) as [fn|e]; cbn [bind] in Hmv; [|discriminate].
  destruct (inv_fresh P m K Hi HK) as [Hg Hv]. rewrite Hg in Hmv.
  assert (Hc : PyNone = current_group m K) by (unfold current_group; rewrite Hv; reflexivity).
  rewrite Hc in Hmv.
  destruct (fold_result _ _ _) as [[m1 l1]|e] eqn:Ef; cbn [bind] in Hmv; [|discriminate].
  injection Hmv as <-.
  apply (fold_attrs_part (K :: P) K vc OPTION_MATCH_ATTRIBUTES m m1 l1); [| |exact Hsg|exact Ef].
  - apply (inv_mono P); [exact Hi|]. intros x Hx. right. exact Hx.
  - left.
Qed.

Lemma phase1_go_part (l : list (string * V)) (P : list string) (m m' : mappings) :
  grouper_inv P m -> (forall k, k ∈ map fst l -> k ∉ P) -> NoDup (map fst l) ->
  (forall x y, same_group m x y <-> rtc (share_index m) x y) ->
  fold_result (map_vcard select U V vcard_fn collect_values OPTION_MATCH_ATTRIBUTES) l m = Ok m' ->
  (forall x y, same_group m' x y <-> rtc (share_index m') x y) /\
  (forall k a v, index_has m' k a v <-> index_has m k a v \/
     exists vc, (k, vc) ∈ l /\ record_has collect_values OPTION_MATCH_ATTRIBUTES vc a v).
Proof.
  revert P m. induction l as [|[K vc] l IH]; intros P m Hi Hfresh Hnd Hsg; cbn [fold_result].
  - intros [= <-]. split; [exact Hsg|]. intros k a v. split; [auto|].
    intros [H|(vc & H & _)]; [exact H|]. apply elem_of_nil in H. contradiction.
  - destruct (map_vcard _ _ _ _ _ _ m (K, vc)) as [m1|e] eqn:E; cbn [bind]; [|discriminate].
    intros Hf. cbn [map fst] in Hfresh, Hnd. apply NoDup_cons in Hnd as [HKl Hnd].
    destruct (map_vcard_part P K vc m m1 Hi (Hfresh K (list_elem_of_here _ _)) Hsg E)
      as (Hi1 & Hsg1 & Hf1).
    destruct (IH (K :: P) m1 Hi1) as [Hsg' Hf']; [| |exact Hsg1|exact Hf|].
    + intros k Hk Hk'. apply elem_of_cons in Hk' as [->|Hk']; [contradiction|].
      exact (Hfresh k (list_elem_of_further _ _ _ Hk) Hk').
    + exact Hnd.
    + split; [exact Hsg'|]. intros k a v. rewrite Hf', Hf1. split.
      * intros [[H|(-> & H)]|(vc' & Hin & H)]; [left; exact H|right|right].
        -- exists vc. split; [left|exact H].
        -- exists vc'. split; [right; exact Hin|exact H].
      * intros [H|(vc' & Hin & H)]; [left; left; exact H|].
        apply elem_of_cons in Hin as [[= -> ->]|Hin]; [left; right; auto|right].
        exists vc'. auto.
Qed.

(** After phase 1, two record keys are in the same group exactly when they
    are related by the equivalence closure of [share_records]. *)
Lemma phase1_partition (vcards : list (string * V)) (m : mappings) :
  NoDup (map fst vcards) ->
  phase1 select U V vcard_fn collect_values OPTION_MATCH_ATTRIBUTES vcards = Ok m ->
  forall x y, same_group m x y <->
              rtc (share_records collect_values OPTION_MATCH_ATTRIBUTES vcards) x y.
Proof.
  intros Hnd H.
  assert (Hne : forall k a v, ~ index_has empty_mappings k a v)
    by (intros k a v [vals [ks [Ha _]]]; discriminate).
  destruct (phase1_go_part vcards [] empty_mappings m inv_empty) as [Hsg Hf];
    [| exact Hnd | exact inv_empty_partition | exact H |].
  { intros k _ Hk. apply elem_of_nil in Hk. exact Hk. }
  assert (Hf' : forall k a v, index_has m k a v <->
    exists vc, (k, vc) ∈ vcards /\ record_has collect_values OPTION_MATCH_ATTRIBUTES vc a v).
  { intros k a v. rewrite Hf. split; [intros [H'|H']; [exfalso; exact (Hne k a v H')|exact H']|].
    intros H'. right. exact H'. }
  intros x y. rewrite Hsg. split; apply rtc_mono; intros p q Hpq; apply rtc_once.
  - destruct Hpq as (a & v & Hp & Hq). apply Hf' in Hp as (vp & Hp & Hrp).
    apply Hf' in Hq as (vq & Hq & Hrq). exists a, v, vp, vq. auto.
  - destruct Hpq as (a & v & vp & vq & Hp & Hq & Hrp & Hrq). exists a, v.
    split; apply Hf'; eauto.
Qed.

Lemma share_records_perm (vcards1 vcards2 : list (string * V)) (x y : string) :
  Permutation vcards1 vcards2 ->
  share_records collect_values OPTION_MATCH_ATTRIBUTES vcards1 x y ->
  share_records collect_values OPTION_MATCH_ATTRIBUTES vcards2 x y.
Proof.
  intros Hp (a & v & vx & vy & Hx & Hy & Hrx & Hry). exists a, v, vx, vy.
  rewrite !list_elem_of_In in *. split; [exact (Permutation_in _ Hp Hx)|].
  split; [exact (Permutation_in _ Hp Hy)|auto].
Qed.

(** C5: with fuzzy matching disabled only phase 1 groups records.  For two
    insertion orders of the same records, two record keys end up in the same
    group after one run exactly when they do after the other (a key in no
    group forms a class of its own): the partition of the record keys is the
    same, and only the group keys may differ. *)
Theorem grouper_exact_order_independent (vcards1 vcards2 : list (string * V))
    (m1 m2 : mappings) :
  NoDup (map fst vcards1) -> Permutation vcards1 vcards2 ->
  grouper_run select U V vcard_fn collect_values match_approx OPTION_MATCH_ATTRIBUTES true
    vcards1 = Ok m1 ->
  grouper_run select U V vcard_fn collect_values match_approx OPTION_MATCH_ATTRIBUTES true
    vcards2 = Ok m2 ->
  forall x y, same_group m1 x y <-> same_group m2 x y.
Proof.
  intros Hnd Hp H1 H2.
  assert (Hnd2 : NoDup (map fst vcards2))
    by exact (proj1 (NoDup_Permutation_proper _ _ (Permutation_map fst Hp)) Hnd).
  unfold grouper_run, phase2 in H1, H2. cbn [negb andb] in H1, H2.
  destruct (phase1 _ _ _ _ _ _ vcards1) as [p1|e] eqn:E1; cbn [bind] in H1; [|discriminate].
  destruct (phase1 _ _ _ _ _ _ vcards2) as [p2|e] eqn:E2; cbn [bind] in H2; [|discriminate].
  injection H1 as <-. injection H2 as <-.
  intros x y. rewrite (phase1_partition vcards1 p1 Hnd E1), (phase1_partition vcards2 p2 Hnd2 E2).
  split; apply rtc_mono; intros p q Hpq; apply rtc_once.
  - exact (share_records_perm vcards1 vcards2 p q Hp Hpq).
  - exact (share_records_perm vcards2 vcards1 p q (Permutation_sym Hp) Hpq).
Qed.

End Partition.

Lemma grouper_exact_order_independent_witness :
  match GrouperExample.run true GrouperExample.sample,
        GrouperExample.run true (rev GrouperExample.sample) with
  | Ok m1, Ok m2 => forall x y, same_group m1 x y <-> same_group m2 x y
  | _, _ => False
  end.
Proof.
  destruct (GrouperExample.run true GrouperExample.sample) as [m1|e] eqn:E1;
    [|vm_compute in E1; discriminate].
  destruct (GrouperExample.run true (rev GrouperExample.sample)) as [m2|e] eqn:E2;
    [|vm_compute in E2; discriminate].
  apply (grouper_exact_order_independent GrouperExample.select_first true select_first_ok
           GrouperExample.record GrouperExample.record_fn GrouperExample.record_values
           GrouperExample.match_exact ["email"; "tel"; "mobiles"; "names"]
           GrouperExample.sample (rev GrouperExample.sample) m1 m2).
  - apply (bool_decide_unpack _). vm_compute. reflexivity.
  - apply (bool_decide_unpack _). vm_compute. reflexivity.
  - exact E1.
  - exact E2.
Defined.

End GrouperFacts.

(** * Further properties of the code *)

(** ** [vcardtools.sanitise_name] and [mk_vcard_fnm] *)

Module ToolsFacts.
Import Tools.

Lemma replace_char (c d : ascii) (s : string) :
  replace (String c EmptyString) (String d EmptyString) s
  = map_chars (fun x => if (x =? c)%char then d else x) s.
Proof.
  unfold replace. remember (String.length s) as f eqn:Hf.
  assert (Hle : String.length s <= f) by lia. clear Hf. revert s Hle.
  induction f as [|f IH]; intros s Hle.
  - destruct s; [reflexivity|simpl in Hle; lia].
  - destruct s as [|x s]; [reflexivity|]. simpl in Hle. cbn [replace_go map_chars].
    cbn [startswith].
    replace (startswith s "") with true by (destruct s; reflexivity).
    rewrite andb_true_r. rewrite (Ascii.eqb_sym x c).
    destruct (c =? x)%char.
    + change (substring (String.length (String c EmptyString)) (String.length (String x s)) (String x s))
        with (substring 0 (String.length (String x s)) s).
      rewrite StrFacts.substring_0_full by (simpl; lia). change (String d "" ++ ?y) with (String d y).
      f_equal. apply IH. lia.
    + f_equal. apply IH. lia.
Qed.

Lemma map_chars_map_chars (f g : ascii -> ascii) (s : string) :
  map_chars f (map_chars g s) = map_chars (fun x => f (g x)) s.
Proof. induction s as [|x s IH]; cbn [map_chars]; [reflexivity|]. rewrite IH. reflexivity. Qed.

Lemma map_chars_ext (f g : ascii -> ascii) (s : string) :
  (forall x, f x = g x) -> map_chars f s = map_chars g s.
Proof. intros H. induction s as [|x s IH]; cbn [map_chars]; [reflexivity|]. rewrite H, IH. reflexivity. Qed.

Lemma fold_replace_chars (l : list ascii) (s : string) :
  fold_left (fun a c => replace (String c EmptyString) NEW_REPLACEMENT_CHAR a) l s
  = map_chars (fun x => fold_left (fun x c => if (x =? c)%char then "_"%char else x) l x) s.
Proof.
  revert s. induction l as [|c l IH]; intros s; cbn [fold_left].
  - induction s as [|x s IHs]; cbn [map_chars]; [reflexivity|]. rewrite <- IHs. reflexivity.
  - rewrite IH. unfold NEW_REPLACEMENT_CHAR. rewrite replace_char, map_chars_map_chars.
    reflexivity.
Qed.

Lemma existsb_underscore (l : list ascii) :
  ~ In "_"%char l -> existsb (fun c => ("_" =? c)%char) l = false.
Proof.
  induction l as [|y l IH]; intros Hl; [reflexivity|]. cbn [existsb].
  rewrite IH by (intros H; apply Hl; right; exact H).
  destruct ("_" =? y)%char eqn:E; [|reflexivity].
  apply Ascii.eqb_eq in E. exfalso. apply Hl. left. congruence.
Qed.

Lemma fold_char (l : list ascii) (x : ascii) :
  ~ In "_"%char l ->
  fold_left (fun x c => if (x =? c)%char then "_"%char else x) l x
  = if existsb (fun c => (x =? c)%char) l then "_"%char else x.
Proof.
  revert x. induction l as [|c l IH]; intros x Hl; cbn [fold_left existsb]; [reflexivity|].
  rewrite IH by (intros H; apply Hl; right; exact H).
  destruct (x =? c)%char eqn:E; cbn [orb].
  - assert (Hc : c <> "_"%char) by (intros ->; apply Hl; left; reflexivity).
    rewrite existsb_underscore by (intros H; apply Hl; right; exact H). reflexivity.
  - reflexivity.
Qed.

Lemma has_char_existsb (x : ascii) (s : string) :
  has_char x s = existsb (fun c => (x =? c)%char) (list_ascii_of_string s).
Proof. induction s as [|c s IH]; [reflexivity|]. cbn. rewrite IH. reflexivity. Qed.

Lemma has_char_map_chars (f : ascii -> ascii) (c : ascii) (s : string) :
  has_char c (map_chars f s) = true <-> exists x, has_char x s = true /\ f x = c.
Proof.
  induction s as [|x s IH]; cbn [map_chars has_char].
  - split; [discriminate|]. intros (y & H & _). discriminate.
  - rewrite orb_true_iff, IH. split.
    + intros [E|(y & Hy & Hf)].
      * apply Ascii.eqb_eq in E. exists x. rewrite Ascii.eqb_refl. split; [reflexivity|congruence].
      * exists y. rewrite Hy, orb_true_r. split; [reflexivity|exact Hf].
    + intros (y & Hy & Hf). apply orb_true_iff in Hy as [E|Hy].
      * apply Ascii.eqb_eq in E. subst. left. apply Ascii.eqb_refl.
      * right. exists y. split; assumption.
Qed.

Lemma length_map_chars (f : ascii -> ascii) (s : string) :
  String.length (map_chars f s) = String.length s.
Proof. induction s as [|x s IH]; cbn; [reflexivity|]. rewrite IH. reflexivity. Qed.

(** [sanitise_name] replaces, one position at a time, every character of
    [FROM_CHARACTERS] by an underscore and keeps every other character: the
    name keeps its length. *)
Theorem sanitise_name_spec (a_name : string) :
  sanitise_name a_name
  = map_chars (fun c => if has_char c FROM_CHARACTERS then "_"%char else c) a_name.
Proof.
  unfold sanitise_name. rewrite fold_replace_chars. apply map_chars_ext. intros x.
  rewrite fold_char by (vm_compute; intuition discriminate).
  rewrite has_char_existsb. reflexivity.
Qed.

(** No character of [FROM_CHARACTERS] (a dot, a slash, a backslash, a
    quote, a bracket, ...) is left in the result of [sanitise_name]. *)
Theorem sanitise_name_no_forbidden (a_name : string) (c : ascii) :
  has_char c FROM_CHARACTERS = true -> has_char c (sanitise_name a_name) = false.
Proof.
  intros Hc. rewrite sanitise_name_spec.
  destruct (has_char c (map_chars _ a_name)) eqn:E; [|reflexivity].
  apply has_char_map_chars in E as (x & _ & Hx).
  destruct (has_char x FROM_CHARACTERS) eqn:Ex.
  - subst c. discriminate Hc.
  - subst. rewrite Ex in Hc. discriminate.
Qed.

(** A name that went through [sanitise_name] is not changed by a second
    pass. *)
Theorem sanitise_name_idempotent (a_name : string) :
  sanitise_name (sanitise_name a_name) = sanitise_name a_name.
Proof.
  rewrite !sanitise_name_spec, map_chars_map_chars. apply map_chars_ext. intros x.
  destruct (has_char x FROM_CHARACTERS) eqn:E; [reflexivity|]. rewrite E. reflexivity.
Qed.

(** The file name built by [mk_vcard_fnm] is the sanitised name followed
    by the extension: as long as the name, and the extension holds the only
    characters of [FROM_CHARACTERS] (such as a path separator [/]) found in
    it. *)
Theorem mk_vcard_fnm_spec (a_name ext : string) :
  String.length (mk_vcard_fnm a_name ext) = String.length a_name + String.length ext /\
  (forall c, has_char c FROM_CHARACTERS = true -> has_char c (mk_vcard_fnm a_name ext) = has_char c ext).
Proof.
  unfold mk_vcard_fnm. split.
  - rewrite StrFacts.app_length_str, sanitise_name_spec, length_map_chars. reflexivity.
  - intros c Hc. rewrite StrFacts2.has_char_app, sanitise_name_no_forbidden by exact Hc.
    reflexivity.
Qed.

End ToolsFacts.

(** ** [build_name_from_email] *)

Module EmailNameFacts.
Import ToolsFacts.

(** Characters that [sanitize_name] can only copy: neither letters (whose
    case [title] changes) nor the space (which it inserts). *)
Lemma has_char_replace_rev (old new s : string) (c : ascii) :
  has_char c new = false -> has_char c (replace old new s) = true -> has_char c s = true.
Proof.
  intros Hn H. destruct (has_char c s) eqn:E; [reflexivity|].
  unfold replace in H. rewrite (StrFacts3.replace_go_has_char _ old new s c E Hn) in H. exact H.
Qed.

Lemma paren_match_at_rest (s g rest : string) (c : ascii) :
  paren_match_at s = Some (g, rest) -> has_char c rest = true -> has_char c s = true.
Proof.
  intros H Hc. apply EmailFacts.has_char_drop_spaces. unfold paren_match_at in H.
  destruct (drop_spaces s) as [|a t]; [discriminate|].
  assert (Hb : forall d, match break_at d t with
                         | Some (inner, t') => Some (String a EmptyString ++ inner ++ String d EmptyString, drop_spaces t')
                         | None => None end = Some (g, rest) -> has_char c (String a t) = true).
  { intros d Hd. destruct (break_at d t) as [[inner t']|] eqn:Eb; [|discriminate].
    injection Hd as _ <-. apply EmailFacts.has_char_drop_spaces in Hc.
    destruct (EmailFacts.has_char_break_at d c t inner t' Eb) as [_ H2].
    cbn [has_char]. rewrite (H2 Hc). apply orb_true_r. }
  destruct a as [[] [] [] [] [] [] [] []]; try discriminate H;
    first [exact (Hb ")"%char H) | exact (Hb "]"%char H)].
Qed.

Lemma has_char_paren_sub_go (f : nat) (s : string) (c : ascii) :
  has_char c (paren_sub_go f s) = true -> has_char c s = true.
Proof.
  revert s. induction f as [|f IH]; intros s H; [exact H|]. cbn [paren_sub_go] in H.
  destruct (paren_match_at s) as [[g rest]|] eqn:E.
  - exact (paren_match_at_rest s g rest c E (IH rest H)).
  - destruct s as [|d s]; [exact H|]. cbn [has_char] in H |- *.
    apply orb_true_iff in H as [H|H]; [rewrite H; reflexivity|rewrite (IH s H); apply orb_true_r].
Qed.

Lemma has_char_sanitize_name (c : ascii) (s : string) :
  is_alpha c = false -> (c =? " ")%char = false ->
  has_char c (sanitize_name s) = true -> has_char c s = true.
Proof.
  intros Ha Hsp H.
  assert (Hsp' : has_char c " " = false) by (cbn [has_char]; rewrite Hsp; reflexivity).
  assert (Hsan : has_char c (title (strip (replace "  " " " (replace "  " " "
                   (replace "." " " (ice_sub s)))))) = true -> has_char c s = true).
  { intros Q. rewrite SanitizeFacts.has_char_title in Q by exact Ha.
    apply SanitizeFacts.has_char_strip in Q.
    apply has_char_replace_rev in Q; [|exact Hsp'].
    apply has_char_replace_rev in Q; [|exact Hsp'].
    apply has_char_replace_rev in Q; [|exact Hsp'].
    exact (SanitizeFacts3.ice_sub_go_has_char _ _ _ _ Q). }
  unfold sanitize_name in H. destruct (paren_search s) as [g|]; [|exact (Hsan H)].
  destruct (_ || _); [|exact (Hsan H)].
  rewrite SanitizeFacts.has_char_title in H by exact Ha.
  apply SanitizeFacts.has_char_strip in H. exact (has_char_paren_sub_go _ s c H).
Qed.

Lemma count_char_cons (c d : ascii) (s : string) :
  count_char c (String d s) = (if (c =? d)%char then 1 else 0) + count_char c s.
Proof. unfold count_char. cbn. destruct (c =? d)%char; reflexivity. Qed.

Lemma split_char_length (c : ascii) (s : string) :
  length (split_char c s) = S (count_char c s).
Proof.
  induction s as [|d s IH]; [reflexivity|]. rewrite count_char_cons. cbn [split_char].
  destruct (c =? d)%char.
  - cbn [length]. rewrite IH. reflexivity.
  - destruct (split_char c s) as [|w ws]; cbn [length] in IH |- *; [discriminate|]. exact IH.
Qed.

Lemma split_char_parts (c : ascii) (s w : string) :
  In w (split_char c s) -> has_char c w = false.
Proof.
  revert w. induction s as [|d s IH]; intros w Hw; cbn [split_char] in Hw.
  - destruct Hw as [<-|[]]. reflexivity.
  - destruct (c =? d)%char eqn:E.
    + destruct Hw as [<-|Hw]; [reflexivity|exact (IH w Hw)].
    + destruct (split_char c s) as [|w' ws] eqn:Es.
      * destruct Hw as [<-|[]]. cbn. rewrite E. reflexivity.
      * destruct Hw as [<-|Hw].
        -- cbn [has_char]. rewrite E, (IH w' (or_introl eq_refl)). reflexivity.
        -- exact (IH w (or_intror Hw)).
Qed.

Lemma has_char_remove_digits (c : ascii) (s : string) :
  has_char c (remove_digits s) = true -> is_digit c = false /\ has_char c s = true.
Proof.
  induction s as [|d s IH]; cbn [remove_digits]; [discriminate|].
  destruct (is_digit d) eqn:Ed.
  - intros H. destruct (IH H) as [H1 H2]. split; [exact H1|]. cbn. rewrite H2. apply orb_true_r.
  - cbn [has_char]. intros H. apply orb_true_iff in H as [H|H].
    + apply Ascii.eqb_eq in H. subst. split; [exact Ed|]. cbn. rewrite Ascii.eqb_refl. reflexivity.
    + destruct (IH H) as [H1 H2]. split; [exact H1|]. rewrite H2. apply orb_true_r.
Qed.

Lemma has_char_dash (c : ascii) (s : string) :
  has_char c (map_chars dash_to_space s) = true ->
  c <> "_"%char /\ c <> "-"%char /\ (c = " "%char \/ has_char c s = true).
Proof.
  intros H. apply has_char_map_chars in H as (x & Hx & <-). unfold dash_to_space.
  destruct ((x =? "_")%char || (x =? "-")%char) eqn:E.
  - split; [discriminate|split; [discriminate|left; reflexivity]].
  - apply orb_false_iff in E as [E1 E2]. apply Ascii.eqb_neq in E1, E2. auto.
Qed.

Lemma has_char_substring_0 (c : ascii) (n : nat) (s : string) :
  has_char c (substring 0 n s) = true -> has_char c s = true.
Proof.
  revert n. induction s as [|d s IH]; intros n H; [destruct n; discriminate|].
  destruct n as [|n]; [discriminate|]. cbn in H |- *.
  apply orb_true_iff in H as [H|H]; [rewrite H; reflexivity|rewrite (IH n H); apply orb_true_r].
Qed.

Lemma has_char_last_opt (c : ascii) (s : string) : last_opt s = Some c -> has_char c s = true.
Proof.
  induction s as [|d s IH]; [discriminate|]. destruct s as [|e s].
  - intros [= ->]. cbn. rewrite Ascii.eqb_refl. reflexivity.
  - intros H. change (last_opt (String e s) = Some c) in H.
    change ((c =? d)%char || has_char c (String e s) = true). rewrite (IH H). apply orb_true_r.
Qed.

Lemma has_char_rsplit_dot (c : ascii) (s p e : string) :
  rsplit_dot s = Some (p, e) -> has_char c p = true -> has_char c s = true.
Proof.
  revert p e. induction s as [|d s IH]; intros p e H Hp; [discriminate|]. cbn [rsplit_dot] in H.
  destruct (rsplit_dot s) as [[p' e']|].
  - injection H as <- <-. cbn [has_char] in Hp |- *.
    apply orb_true_iff in Hp as [Hp|Hp]; [rewrite Hp; reflexivity|].
    rewrite (IH p' e' eq_refl Hp). apply orb_true_r.
  - destruct (d =? ".")%char; [injection H as <- <-; discriminate|discriminate].
Qed.

Lemma has_char_without_extension (c : ascii) (s : string) :
  has_char c (without_extension s) = true -> has_char c s = true.
Proof.
  unfold without_extension, split_final_newline.
  destruct (last_opt s) as [x|] eqn:El.
  2:{ destruct (rsplit_dot s) as [[p e]|] eqn:Er; [|auto].
      destruct (_ && _ && _); [|auto]. rewrite StrFacts2.has_char_app. intros H.
      apply orb_true_iff in H as [H|H]; [exact (has_char_rsplit_dot c s p e Er H)|discriminate]. }
  assert (Hgen : forall body nl, (forall y, has_char y body = true -> has_char y s = true) ->
                 (forall y, has_char y nl = true -> has_char y s = true) ->
                 has_char c match rsplit_dot body with
                            | Some (p, e) => if negb (String.eqb p "")
                                                && negb (match last_opt p with Some "010"%char => true | _ => false end)
                                                && is_letters e then p ++ nl else s
                            | None => s end = true -> has_char c s = true).
  { intros body nl Hb Hn. destruct (rsplit_dot body) as [[p e]|] eqn:Er; [|auto].
    destruct (_ && _ && _); [|auto]. rewrite StrFacts2.has_char_app. intros H.
    apply orb_true_iff in H as [H|H]; [exact (Hb c (has_char_rsplit_dot c body p e Er H))|exact (Hn c H)]. }
  destruct x as [[] [] [] [] [] [] [] []];
    try (apply Hgen; intros y Hy; [exact Hy|discriminate]).
  apply Hgen.
  - intros y Hy. exact (has_char_substring_0 y _ s Hy).
  - intros y Hy. cbn [has_char] in Hy. rewrite orb_false_r in Hy. apply Ascii.eqb_eq in Hy.
    subst y. exact (has_char_last_opt _ s El).
Qed.

(** [build_name_from_email] returns a name exactly when the email, lowered
    and stripped, does not end with [nowhere.invalid] (a Thunderbird
    placeholder) and the stripped email holds exactly one [@]; every failure
    is a [ValueError]. *)
Theorem build_name_from_email_result (email : string) :
  ((exists name, build_name_from_email email = Ok name) <->
   endswith (strip (lower email)) "nowhere.invalid" = false /\ count_char "@" (strip email) = 1) /\
  (forall e, build_name_from_email email = Err e -> exists msg, e = ValueError msg).
Proof.
  unfold build_name_from_email. pose proof (split_char_length "@" (strip email)) as Hl.
  destruct (endswith (strip (lower email)) "nowhere.invalid").
  - split; [split; [intros [n Hn]; discriminate|intros [H _]; discriminate]|].
    intros e [= <-]. eexists. reflexivity.
  - destruct (split_char "@" (strip email)) as [|u [|d [|x r]]]; cbn [length] in Hl.
    + discriminate.
    + split; [split; [intros [n Hn]; discriminate|intros [_ H]; lia]|].
      intros e [= <-]. eexists. reflexivity.
    + split; [split; [intros _; split; [reflexivity|lia]|intros _; eexists; reflexivity]|].
      intros e H. discriminate.
    + split; [split; [intros [n Hn]; discriminate|intros [_ H]; lia]|].
      intros e [= <-]. eexists. reflexivity.
Qed.

(** A name built by [build_name_from_email] holds no [@], no dot and no
    underscore; when the user part of the email does not start with one of
    [EMAIL_USERS_ADD_DOMAIN] (so the domain is not added), it holds no digit
    and no dash either. *)
Theorem build_name_from_email_chars (email user domain name : string) :
  split_char "@" (strip email) = [user; domain] ->
  build_name_from_email email = Ok name ->
  has_char "@" name = false /\ has_char "." name = false /\ has_char "_" name = false /\
  (existsb (startswith (lower (map_chars dash_to_space (remove_digits user)))) EMAIL_USERS_ADD_DOMAIN
     = false ->
   forall c, has_char c name = true -> is_digit c = false /\ c <> "-"%char).
Proof.
  intros Hs H. unfold build_name_from_email in H.
  destruct (endswith (strip (lower email)) "nowhere.invalid"); [discriminate|].
  rewrite Hs in H. injection H as Hn.
  assert (Hu : has_char "@" user = false) by (apply (split_char_parts "@" (strip email)); rewrite Hs; left; reflexivity).
  assert (Hd : has_char "@" domain = false) by (apply (split_char_parts "@" (strip email)); rewrite Hs; right; left; reflexivity).
  set (nm := map_chars dash_to_space (remove_digits user)).
  set (full := if existsb (startswith (lower nm)) EMAIL_USERS_ADD_DOMAIN
               then without_extension (map_chars dash_to_space domain) ++ " - " ++ nm else nm).
  assert (Hn' : sanitize_name (replace "." " " full) = name) by exact Hn. clear Hn. subst name.
  (* the characters of the name before [sanitize_name] *)
  assert (Hnm : forall c, has_char c nm = true ->
            c <> "_"%char /\ c <> "-"%char /\ (c = " "%char \/ (is_digit c = false /\ has_char c user = true))).
  { intros c Hc. destruct (has_char_dash c _ Hc) as (H1 & H2 & [H3|H3]); [auto|].
    apply has_char_remove_digits in H3. auto. }
  assert (Hfull : forall c, has_char c full = true ->
            c <> "_"%char /\ (c = " "%char \/ c = "-"%char \/ has_char c user = true \/ has_char c domain = true)).
  { intros c Hc. unfold full in Hc. destruct (existsb _ _).
    - rewrite !StrFacts2.has_char_app in Hc. apply orb_true_iff in Hc as [Hc|Hc].
      + apply has_char_without_extension in Hc. destruct (has_char_dash c _ Hc) as (H1 & _ & H3).
        split; [exact H1|]. destruct H3; auto.
      + apply orb_true_iff in Hc as [Hc|Hc].
        * cbn in Hc. destruct (c =? " ")%char eqn:E1; [apply Ascii.eqb_eq in E1; subst; split; [discriminate|auto]|].
          destruct (c =? "-")%char eqn:E2; [apply Ascii.eqb_eq in E2; subst; split; [discriminate|auto]|].
          discriminate.
        * destruct (Hnm c Hc) as (H1 & _ & [H3|[_ H3]]); auto.
    - destruct (Hnm c Hc) as (H1 & _ & [H3|[_ H3]]); auto. }
  assert (Hfin : forall c, is_alpha c = false -> (c =? " ")%char = false -> (c =? ".")%char = false ->
            has_char c (sanitize_name (replace "." " " full)) = true -> has_char c full = true).
  { intros c Ha Hsp Hdot Hc. apply has_char_sanitize_name in Hc; [|exact Ha|exact Hsp].
    apply (has_char_replace_rev "." " "); [|exact Hc]. cbn [has_char]. rewrite Hsp. reflexivity. }
  assert (Hdot : has_char "." (sanitize_name (replace "." " " full)) = false).
  { destruct (has_char "." (sanitize_name (replace "." " " full))) eqn:E; [|reflexivity].
    apply has_char_sanitize_name in E; [|reflexivity|reflexivity].
    rewrite SanitizeFacts2.replace_dot, SanitizeFacts2.has_char_dot_to_space in E. discriminate E. }
  split; [|split; [exact Hdot|split]].
  - destruct (has_char "@" (sanitize_name (replace "." " " full))) eqn:E; [|reflexivity].
    apply Hfin in E; [|reflexivity..]. destruct (Hfull _ E) as (_ & [H1|[H1|[H1|H1]]]);
      [discriminate|discriminate|congruence|congruence].
  - destruct (has_char "_" (sanitize_name (replace "." " " full))) eqn:E; [|reflexivity].
    apply Hfin in E; [|reflexivity..]. destruct (Hfull _ E) as [H1 _]. contradiction.
  - intros Hpre c Hc.
    assert (Hfull' : full = nm) by (unfold full; rewrite Hpre; reflexivity).
    destruct (is_alpha c) eqn:Ha.
    { split; [|intros ->; discriminate]. destruct (is_digit c) eqn:Hdg; [|reflexivity].
      revert Ha Hdg. destruct c as [[] [] [] [] [] [] [] []]; vm_compute; congruence. }
    destruct (c =? " ")%char eqn:Hsp.
    { apply Ascii.eqb_eq in Hsp. subst. split; [reflexivity|discriminate]. }
    destruct (c =? ".")%char eqn:Hd'.
    { apply Ascii.eqb_eq in Hd'. subst. rewrite Hdot in Hc. discriminate. }
    apply Hfin in Hc; [|exact Ha|exact Hsp|exact Hd']. rewrite Hfull' in Hc.
    destruct (Hnm c Hc) as (_ & H2 & [H3|[H3 _]]); [subst; discriminate|]. auto.
Qed.

End EmailNameFacts.

(** ** [collect_vcard_names] *)

Module CollectNamesFacts.

Lemma add_name_nodup (names : list string) (nm : string) :
  NoDup names -> NoDup (SetName.add_name names nm).
Proof.
  intros H. unfold SetName.add_name. destruct (existsb (String.eqb nm) names) eqn:E; [exact H|].
  apply NoDup_app. split; [exact H|]. split; [|apply NoDup_singleton].
  intros x Hx Hx'. apply list_elem_of_singleton in Hx'. subst x.
  apply list_elem_of_In in Hx. assert (Hex : existsb (String.eqb nm) names = true).
  { apply existsb_exists. exists nm. split; [exact Hx|apply String.eqb_refl]. }
  congruence.
Qed.

Lemma fold_result_nodup {B} (f : list string -> B -> result (list string)) (l : list B)
    (names names' : list string) :
  (forall n x n', NoDup n -> f n x = Ok n' -> NoDup n') ->
  NoDup names -> fold_result f l names = Ok names' -> NoDup names'.
Proof.
  intros Hf. revert names. induction l as [|x l IH]; intros names Hn H; cbn [fold_result] in H.
  - injection H as <-. exact Hn.
  - destruct (f names x) as [n1|e] eqn:E; cbn [bind] in H; [|discriminate].
    exact (IH n1 (Hf _ _ _ Hn E) H).
Qed.

Lemma collect_name_line_nodup (n : list string) (p : prop) (n' : list string) :
  NoDup n -> collect_name_line n p = Ok n' -> NoDup n'.
Proof.
  intros Hn Hp. unfold collect_name_line in Hp.
  destruct (only_non_alphanum _); [injection Hp as <-; exact Hn|].
  destruct (Nat.eqb _ 1).
  - destruct (build_name_from_email _); cbn [bind] in Hp; [|discriminate].
    injection Hp as <-. apply add_name_nodup. exact Hn.
  - injection Hp as <-. apply add_name_nodup. exact Hn.
Qed.

Lemma collect_name_key_nodup (vc : vcard) (n : list string) (k : string) (n' : list string) :
  NoDup n -> collect_name_key vc n k = Ok n' -> NoDup n'.
Proof.
  intros Hn Hk. unfold collect_name_key in Hk.
  destruct (hasattr vc k) as [[]|]; cbn [bind] in Hk; [| injection Hk as <-; exact Hn | discriminate].
  exact (fold_result_nodup _ _ _ _ collect_name_line_nodup Hn Hk).
Qed.

Lemma collect_email_line_nodup (n : list string) (p : prop) (n' : list string) :
  NoDup n -> collect_email_line n p = Ok n' -> NoDup n'.
Proof.
  intros Hn Hp. unfold collect_email_line in Hp.
  destruct (value p); try discriminate.
  destruct (endswith _ _); [injection Hp as <-; exact Hn|].
  destruct (name_in_email_match s) as [[nm em]|]; injection Hp as <-; [|exact Hn].
  apply add_name_nodup. exact Hn.
Qed.

Lemma build_email_line_nodup (n : list string) (p : prop) (n' : list string) :
  NoDup n -> build_email_line n p = Ok n' -> NoDup n'.
Proof.
  intros Hn Hp. unfold build_email_line in Hp.
  destruct (value p); try discriminate.
  destruct (build_name_from_email s); cbn [bind] in Hp; [|discriminate].
  injection Hp as <-. apply add_name_nodup. exact Hn.
Qed.

Lemma collect_org_item_nodup (n : list string) (x : string) :
  NoDup n -> NoDup (collect_org_item n x).
Proof.
  intros Hn. unfold collect_org_item. destruct (only_non_alphanum (strip x)); [exact Hn|].
  apply add_name_nodup. exact Hn.
Qed.

Lemma collect_org_line_nodup (n : list string) (p : prop) (n' : list string) :
  NoDup n -> collect_org_line n p = Ok n' -> NoDup n'.
Proof.
  intros Hn Hp. unfold collect_org_line in Hp.
  destruct (pval_truthy (value p)); [|injection Hp as <-; exact Hn].
  destruct (value p) as [s|nm|items]; try discriminate; injection Hp as <-.
  - apply collect_org_item_nodup. exact Hn.
  - revert n Hn. induction items as [|x items IH]; intros n Hn; cbn [fold_left]; [exact Hn|].
    apply IH. apply collect_org_item_nodup. exact Hn.
Qed.

(** [collect_vcard_names] never lists a name twice: every addition goes
    through [add_name], which skips a name already present. *)
Theorem collect_vcard_names_nodup (vc : vcard) (names : list string) :
  collect_vcard_names vc = Ok names -> NoDup names.
Proof.
  intros H. unfold collect_vcard_names in H.
  destruct (hasattr vc "fn") as [hf|]; cbn [bind] in H; [|discriminate].
  destruct (if hf then _ else Ok tt) as [u|]; cbn [bind] in H; [|discriminate].
  destruct (fold_result (collect_name_key vc) ["fn"; "n"] []) as [n1|] eqn:E1;
    cbn [bind] in H; [|discriminate].
  pose proof (fold_result_nodup _ _ _ _ (collect_name_key_nodup vc) (NoDup_nil_2) E1) as N1.
  destruct (hasattr vc "email") as [he|]; cbn [bind] in H; [|discriminate].
  destruct (fold_result collect_email_line _ n1) as [n2|] eqn:E2; cbn [bind] in H; [|discriminate].
  pose proof (fold_result_nodup _ _ _ _ collect_email_line_nodup N1 E2) as N2.
  destruct ((length n2 =? 0)%nat && he) eqn:C3; cbn [bind] in H;
  [destruct (fold_result build_email_line _ n2) as [n3|] eqn:E3; cbn [bind] in H; [|discriminate];
   pose proof (fold_result_nodup _ _ _ _ build_email_line_nodup N2 E3) as N3
  |pose proof N2 as N3; remember n2 as n3 eqn:Hn3; clear Hn3].
  all: destruct (if (length n3 =? 0)%nat then hasattr vc "org" else Ok false) as [ho|];
    cbn [bind] in H; [|discriminate].
  all: destruct ho; cbn [bind] in H;
  [destruct (fold_result collect_org_line _ n3) as [n4|] eqn:E4; cbn [bind] in H; [|discriminate];
   pose proof (fold_result_nodup _ _ _ _ collect_org_line_nodup N3 E4) as N4
  |pose proof N3 as N4; remember n3 as n4 eqn:Hn4; clear Hn4].
  all: destruct (if (length n4 =? 0)%nat then hasattr vc "tel" else Ok false) as [ht|];
    cbn [bind] in H; [|discriminate].
  all: destruct ht; [|injection H as <-; exact N4].
  all: destruct (get_list vc "tel") as [[|t ts]|]; injection H as <-;
    first [exact N4 | apply add_name_nodup; exact N4].
Qed.

Lemma fold_email_lines_invalid (emails : list prop) (names : list string) :
  (forall p, In p emails -> exists v, value p = VStr v /\
               endswith (strip (lower v)) "nowhere.invalid" = true) ->
  fold_result collect_email_line emails names = Ok names.
Proof.
  revert names. induction emails as [|p emails IH]; intros names H; [reflexivity|].
  cbn [fold_result]. destruct (H p (or_introl eq_refl)) as (v & Hv & Hinv).
  unfold collect_email_line at 1. rewrite Hv, Hinv. cbn [bind].
  apply IH. intros q Hq. exact (H q (or_intror Hq)).
Qed.

(** A vCard with neither [fn] nor [n] whose email addresses are all
    Thunderbird placeholders ([...@nowhere.invalid]): the first email loop
    skips them, then the fallback builds a name from the first one, and
    [build_name_from_email] refuses it, so [collect_vcard_names] raises a
    [ValueError]. *)
Theorem collect_vcard_names_invalid_email (vc : vcard) (e : prop) (es : list prop) :
  get_list vc "fn" = None -> get_list vc "n" = None ->
  get_list vc "email" = Some (e :: es) ->
  (forall p, In p (e :: es) -> exists v, value p = VStr v /\
               endswith (strip (lower v)) "nowhere.invalid" = true) ->
  exists msg, collect_vcard_names vc = Err (ValueError msg).
Proof.
  intros Hfn Hn Hem Hinv. unfold collect_vcard_names.
  unfold hasattr at 1. rewrite Hfn. cbn [bind].
  assert (Hk : fold_result (collect_name_key vc) ["fn"; "n"] [] = Ok []).
  { cbn [fold_result]. unfold collect_name_key, hasattr. rewrite Hfn, Hn. reflexivity. }
  rewrite Hk. cbn [bind]. unfold hasattr at 1. rewrite Hem. cbn [bind default]. unfold id.
  rewrite (fold_email_lines_invalid (e :: es) [] Hinv). cbn [bind length Nat.eqb andb].
  destruct (Hinv e (or_introl eq_refl)) as (v & Hv & Hi).
  cbn [fold_result]. unfold build_email_line at 1. rewrite Hv.
  unfold build_name_from_email at 1. rewrite Hi. cbn [bind]. eexists. reflexivity.
Qed.

End CollectNamesFacts.
Module CollectValuesFacts.

Lemma flat_map_partition {A} (P : A -> bool) (f : A -> list string) (l : list A) :
  Permutation (flat_map (fun x => if (if P x then negb false else false) then f x else []) l
               ++ flat_map (fun x => if (if P x then negb true else true) then f x else []) l)
              (flat_map f l).
Proof.
  induction l as [|x l IH]; cbn [flat_map]; [reflexivity|].
  destruct (P x); cbn [negb app].
  - rewrite <- app_assoc. apply Permutation_app_head. exact IH.
  - rewrite Permutation_app_swap_app. apply Permutation_app_head. exact IH.
Qed.

(** For a type [T] not starting with [!], [filter_values_by_param] with [T]
    and with [!T] split the values of the property between them: every line
    is kept by exactly one of the two calls, and both fail alike when one
    does. *)
Theorem filter_values_by_param_partition (vc : vcard) (key param_key T : string) :
  startswith T "!" = false ->
  match filter_values_by_param vc key param_key T,
        filter_values_by_param vc key param_key ("!" ++ T) with
  | Ok a, Ok b =>
      Permutation (a ++ b) (flat_map (line_values key) (default [] (get_list vc (replace "_" "-" key))))
  | Err e1, Err e2 => e1 = e2
  | _, _ => False
  end.
Proof.
  intros HT. unfold filter_values_by_param. rewrite HT.
  rewrite (StrFacts.startswith_app_r "!" T). cbv beta iota.
  change (String.length ("!" ++ T)) with (S (String.length T)).
  replace (S (String.length T) - 1) with (String.length T) by lia.
  change (substring 1 (String.length T) ("!" ++ T)) with (substring 0 (String.length T) T).
  rewrite (StrFacts.substring_0_full T (String.length T) (le_n _)).
  unfold vc_hasattr, hasattr, getattr_list.
  destruct (get_list vc (replace "_" "-" key)) as [[|p ps]|]; cbn [bind default]; try reflexivity.
  apply (flat_map_partition (fun x => upper (param_str (param_get (params x) param_key)) =? "['" ++ upper T ++ "']")).
Qed.

(** Every value collected for the ['mobiles'] alias is the stripped value
    of one of the vCard's [tel] lines and starts with [06] or [07]. *)
Theorem collect_values_mobiles (vc : vcard) (values : list string) (v : string) :
  collect_values vc ["mobiles"] = Ok values -> In v values ->
  (startswith v "06" || startswith v "07") = true /\
  exists tels tel, get_list vc "tel" = Some tels /\ In tel tels /\ strip (py_str (value tel)) = v.
Proof.
  unfold collect_values. cbn [expand_keys Fixer.in_list existsb String.eqb]. cbn [fold_result].
  unfold collect_key at 1. cbn [has_char String.eqb negb]. unfold vc_hasattr.
  change (replace "_" "-" "tel") with "tel". unfold hasattr, getattr_list.
  change (replace "_" "-" "tel") with "tel".
  destruct (get_list vc "tel") as [[|t ts]|] eqn:Et; cbn [bind]; try discriminate;
    [|intros [= <-] []].
  intros [= <-] Hv.
  change (In v (flat_map (fun tel : prop => if is_a_mobile_phone (strip (py_str (value tel)))
    then [strip (py_str (value tel))] else []) (t :: ts))) in Hv.
  apply in_flat_map in Hv as (tel & Htel & Hv).
  destruct (is_a_mobile_phone (strip (py_str (value tel)))) eqn:Hm; [|destruct Hv].
  destruct Hv as [<-|[]]. split; [exact Hm|]. exists (t :: ts), tel. auto.
Qed.

End CollectValuesFacts.

(** ** [match_approx] *)

Module MatchApproxFacts.
Import Fuzzy.

Lemma leb_compare (x y : string) : String.leb x y = true <-> String.compare x y <> Gt.
Proof. unfold String.leb. destruct (String.compare x y); split; congruence. Qed.

Lemma compare_gt_trans (x y z : string) :
  String.compare y z = Gt -> String.compare x z <> Gt -> String.compare y x = Gt.
Proof.
  intros Hyz Hxz. destruct (String.compare y x) eqn:Hyx; [|exfalso..|reflexivity].
  - apply String.compare_eq_iff in Hyx. subst. contradiction.
  - assert (T : String.le y z).
    { apply (@PreOrder_Transitive _ _ (@partial_order_pre _ _ String.le_po) y x z);
        unfold String.le; apply Is_true_true, leb_compare; congruence. }
    unfold String.le in T. apply Is_true_true, leb_compare in T. contradiction.
Qed.

Lemma compare_gt_flip (x y : string) : String.compare x y = Gt -> String.compare y x = Lt.
Proof. intros H. rewrite String.compare_antisym, H. reflexivity. Qed.

Lemma insert_sorted_comm (x y : string) (l : list string) :
  insert_sorted x (insert_sorted y l) = insert_sorted y (insert_sorted x l).
Proof.
  induction l as [|z l IH]; cbn [insert_sorted].
  - destruct (String.compare x y) eqn:Hxy, (String.compare y x) eqn:Hyx;
      rewrite String.compare_antisym, Hxy in Hyx; try discriminate;
      try (apply String.compare_eq_iff in Hxy; subst; reflexivity); reflexivity.
  - destruct (String.compare y z) eqn:Hyz, (String.compare x z) eqn:Hxz; cbn [insert_sorted];
      rewrite ?Hyz, ?Hxz; try (rewrite IH; reflexivity).
    all: destruct (String.compare x y) eqn:Hxy; pose proof (String.compare_antisym y x) as Hyx;
      rewrite Hxy in Hyx; cbn [CompOpp] in Hyx; cbn [insert_sorted];
      rewrite ?Hxy, ?Hyx, ?Hxz, ?Hyz; try reflexivity;
      try (apply String.compare_eq_iff in Hxy; subst; congruence).
    all: exfalso;
      first [ pose proof (compare_gt_trans y x z Hxz ltac:(congruence))
            | pose proof (compare_gt_trans x y z Hyz ltac:(congruence)) ]; congruence.
Qed.

Lemma sorted_strings_perm (l1 l2 : list string) :
  Permutation l1 l2 -> sorted_strings l1 = sorted_strings l2.
Proof.
  unfold sorted_strings. induction 1 as [|x l1 l2 _ IH|x y l|l1 l2 l3 _ IH1 _ IH2];
    cbn [fold_right]; [reflexivity|rewrite IH; reflexivity|apply insert_sorted_comm|congruence].
Qed.

Lemma token_sort_ratio_perm (a b : string) :
  Permutation (split_ws (full_process a)) (split_ws (full_process b)) ->
  token_sort_ratio a b = 100%nat.
Proof.
  intros H. unfold token_sort_ratio, process_and_sort. rewrite (sorted_strings_perm _ _ H).
  unfold ratio. rewrite String.eqb_refl. reflexivity.
Qed.


(** With [OPTION_MATCH_APPROX_RATIO = 100], two names made of the same
    words once [full_process] has lowered them and turned punctuation into
    spaces (in any order) always match, whatever the other options. *)
Theorem match_approx_word_order (ft same_first sw : bool) (min lo hi : Z) (a b : string) :
  Permutation (split_ws (full_process a)) (split_ws (full_process b)) ->
  match_approx ft same_first sw min lo hi 100 a b = true.
Proof.
  intros H. unfold match_approx. rewrite (token_sort_ratio_perm a b H). reflexivity.
Qed.

(** A name not longer than [OPTION_MATCH_APPROX_MIN_LENGTH] matches only
    through the exact branch: [OPTION_MATCH_APPROX_RATIO] is 100 and the
    token sort ratio is 100. *)
Theorem match_approx_short (ft same_first sw : bool) (min lo hi ratio : Z) (a b : string) :
  (Z.of_nat (String.length a) <= min \/ Z.of_nat (String.length b) <= min)%Z ->
  match_approx ft same_first sw min lo hi ratio a b = true ->
  ratio = 100%Z /\ token_sort_ratio a b = 100%nat.
Proof.
  intros Hlen H. unfold match_approx in H.
  destruct ((ratio =? 100)%Z && Nat.eqb (token_sort_ratio a b) 100) eqn:E.
  - apply andb_true_iff in E as [E1 E2]. split; [apply Z.eqb_eq, E1|apply Nat.eqb_eq, E2].
  - replace ((min <? Z.of_nat (String.length a))%Z && (min <? Z.of_nat (String.length b))%Z)
      with false in H; [discriminate|].
    symmetry. apply andb_false_iff. destruct Hlen; [left|right]; apply Z.ltb_ge; exact H0.
Qed.

End MatchApproxFacts.

(** ** [deduplicate] *)

Module DeduplicateFacts.

Lemma set_name_not_ok (ft : bool) (attrs attrs' : SetName.attributes) :
  SetName.set_name ft attrs <> Ok attrs'.
Proof.
  unfold SetName.set_name. intros H.
  destruct (SetName.collect_from attrs "fn" SetName.name_of_fn []) as [n1|];
    cbn [bind] in H; [|discriminate].
  destruct (SetName.collect_from attrs "n" SetName.name_of_n n1) as [n2|];
    cbn [bind] in H; [|discriminate].
  destruct (SetName.collect_from attrs "email" SetName.name_of_email n2) as [n3|]; cbn [bind] in H;
    [|discriminate].
  destruct (select_most_relevant_name n3) as [s|] eqn:E; [|discriminate].
  exact (select_most_relevant_name_no_result n3 s E).
Qed.

(** [deduplicate] never returns a vCard: whatever [collect_attributes] and
    [build_vcard] do, the call to [set_name] in between always raises. *)
Theorem deduplicate_always_fails
    (collect_attributes : list vcard -> result SetName.attributes)
    (build_vcard : SetName.attributes -> result vcard) (ft : bool) (vc : vcard) :
  exists e, deduplicate collect_attributes build_vcard ft vc = Err e.
Proof.
  unfold deduplicate. destruct (collect_attributes [vc]) as [attrs|e]; cbn [bind];
    [|exists e; reflexivity].
  destruct (SetName.set_name ft attrs) as [a|e] eqn:E; cbn [bind].
  - exfalso. exact (set_name_not_ok ft attrs a E).
  - exists e. reflexivity.
Qed.

End DeduplicateFacts.

(** ** The outputs of [get_vcards_groups] *)

Module GrouperOutputFacts.
Import Grouper GrouperFacts.

Lemma sizes_ok_insert (gs : gmap string (list string)) (g : string) (ms : list string) :
  sizes_ok gs -> 2 <= length ms -> sizes_ok (<[g := ms]> gs).
Proof.
  intros H Hl g' ms' E. apply lookup_insert_Some in E as [[<- <-]|[_ E]]; [exact Hl|exact (H _ _ E)].
Qed.

Lemma sizes_ok_delete (gs : gmap string (list string)) (g : string) :
  sizes_ok gs -> sizes_ok (delete g gs).
Proof. intros H g' ms' E. apply lookup_delete_Some in E as [_ E]. exact (H _ _ E). Qed.

Lemma group_keys_sizes (select : list string -> result string) (U : bool) (m m' : mappings)
    (key1 key2 : string) (group1 group2 sel : pyv) :
  sizes_ok (groups m) ->
  group_keys select U m key1 key2 group1 group2 = Ok (m', sel) -> sizes_ok (groups m').
Proof.
  intros Hs H. unfold group_keys in H.
  destruct (negb (group_arg_ok group1)); [discriminate|].
  destruct (negb (group_arg_ok group2)); [discriminate|].
  match type of H with bind ?X _ = Ok _ => destruct X as [[m1 s1]|e] eqn:EX end;
    cbn [bind] in H; [|discriminate]. injection H as <- <-. cbn [groups set_vcard_group].
  revert EX.
  repeat match goal with
  | |- (if ?c then _ else _) = Ok _ -> _ => destruct c
  | |- bind (select ?l) _ = Ok _ -> _ => destruct (select l); cbn [bind]; [|discriminate]
  | |- match ?x with _ => _ end = Ok _ -> _ => destruct x eqn:?
  | |- Err _ = Ok _ -> _ => discriminate
  end.
  all: intros [= <- <-]; cbn [groups set_groups]; rewrite ?(proj1 (assign_group_groups _ _ _));
    cbn [groups set_groups]; try exact Hs.
  all: repeat first [apply sizes_ok_delete | apply sizes_ok_insert]; try exact Hs;
    cbn [length]; try lia.
  all: repeat match goal with
         | E : groups _ !! _ = Some ?l |- _ => pose proof (Hs _ _ E); clear E
         end; rewrite ?length_app; cbn [length]; lia.
Qed.

Lemma fold_result_pres {A B} (I : A -> Prop) (f : A -> B -> result A) (l : list B) (a a' : A) :
  (forall x b y, I x -> f x b = Ok y -> I y) ->
  I a -> fold_result f l a = Ok a' -> I a'.
Proof.
  intros Hf. revert a. induction l as [|b l IH]; intros a Ha; cbn [fold_result].
  - intros [= <-]. exact Ha.
  - destruct (f a b) as [y|e] eqn:E; cbn [bind]; [|discriminate].
    exact (IH y (Hf a b y Ha E)).
Qed.

Section Sizes.
Variable select : list string -> result string.
Variable U : bool.
Variable V : Type.
Variable vcard_fn : V -> result string.
Variable collect_values : V -> string -> result (list string).
Variable match_approx : string -> string -> bool.
Variable OPTION_MATCH_ATTRIBUTES : list string.
Variable OPTION_NO_MATCH_APPROX : bool.

Lemma map_value_sizes (K a_key a_value : string) (m m' : mappings) (g g' : pyv) :
  sizes_ok (groups m) ->
  map_value select U K a_key (m, g) a_value = Ok (m', g') -> sizes_ok (groups m').
Proof.
  intros Hs H. unfold map_value in H.
  destruct (alookup a_value (attr_index m a_key)) as [keys|].
  - destruct (Fixer.in_list K keys); [injection H as <- _; exact Hs|].
    destruct keys as [|matched rest]; [discriminate|].
    destruct (String.eqb matched ""); [discriminate|].
    eapply group_keys_sizes; [|exact H]. exact Hs.
  - injection H as <- _. exact Hs.
Qed.

Lemma map_attribute_sizes (K : string) (vc : V) (attr : string) (m m' : mappings) (g g' : pyv) :
  sizes_ok (groups m) ->
  map_attribute select U V collect_values K vc (m, g) attr = Ok (m', g') -> sizes_ok (groups m').
Proof.
  intros Hs H. unfold map_attribute in H.
  destruct (collect_values vc attr) as [vs|e]; cbn [bind] in H; [|discriminate].
  destruct vs as [|v0 vs]; [injection H as <- _; exact Hs|].
  apply (fold_result_pres (fun mg => sizes_ok (groups (fst mg))) _ _ _ (m', g')) in H; [exact H| |].
  - intros [x gx] b [y gy] Hx Hy. exact (map_value_sizes K _ b x y gx gy Hx Hy).
  - cbn [fst]. destruct (alookup (a_key_of attr) (attributes m)); exact Hs.
Qed.

Lemma map_vcard_sizes (m m' : mappings) (kv : string * V) :
  sizes_ok (groups m) ->
  map_vcard select U V vcard_fn collect_values OPTION_MATCH_ATTRIBUTES m kv = Ok m' ->
  sizes_ok (groups m').
Proof.
  destruct kv as [K vc]. intros Hs H. unfold map_vcard in H.
  destruct (vcard_fn vc) as [fn|e]; cbn [bind] in H; [|discriminate].
  destruct (fold_result _ _ _) as [[m1 g1]|e] eqn:Ef; cbn [bind] in H; [|discriminate].
  injection H as <-.
  apply (fold_result_pres (fun mg => sizes_ok (groups (fst mg))) _ _ _ (m1, g1)) in Ef; [exact Ef| |exact Hs].
  intros [x gx] b [y gy] Hx Hy. exact (map_attribute_sizes K vc b x y gx gy Hx Hy).
Qed.

Lemma compare_names_sizes (name1 : string) (keys1 : list string) (nk2 : string * list string)
    (m m' : mappings) :
  sizes_ok (groups m) -> compare_names select U match_approx name1 keys1 m nk2 = Ok m' ->
  sizes_ok (groups m').
Proof.
  destruct nk2 as [name2 keys2]. intros Hs H. unfold compare_names in H.
  destruct (match_approx name1 name2); [|injection H as <-; exact Hs].
  destruct keys1 as [|key1 keys1]; [discriminate|].
  destruct (if Fixer.in_list key1 keys2 then _ else _) as [key2|e]; cbn [bind] in H; [|discriminate].
  destruct (group_keys _ _ _ _ _ _ _) as [[m1 s1]|e] eqn:Eg; cbn [bind] in H; [|discriminate].
  injection H as <-. exact (group_keys_sizes _ _ _ _ _ _ _ _ _ Hs Eg).
Qed.

Lemma compare_all_sizes (names : list (string * list string)) (m m' : mappings) :
  sizes_ok (groups m) -> compare_all select U match_approx names m = Ok m' -> sizes_ok (groups m').
Proof.
  revert m. induction names as [|[name1 keys1] rest IH]; intros m Hs; cbn [compare_all].
  - intros [= <-]. exact Hs.
  - destruct (fold_result _ rest m) as [m1|e] eqn:E; cbn [bind]; [|discriminate].
    apply IH. eapply (fold_result_pres (fun m => sizes_ok (groups m))); [|exact Hs|exact E].
    intros x b y Hx Hy. exact (compare_names_sizes name1 keys1 b x y Hx Hy).
Qed.

Lemma grouper_run_sizes (vcards : list (string * V)) (m : mappings) :
  grouper_run select U V vcard_fn collect_values match_approx OPTION_MATCH_ATTRIBUTES
    OPTION_NO_MATCH_APPROX vcards = Ok m -> sizes_ok (groups m).
Proof.
  intros H. unfold grouper_run in H.
  destruct (phase1 _ _ _ _ _ _ vcards) as [m1|e] eqn:E; cbn [bind] in H; [|discriminate].
  assert (H1 : sizes_ok (groups m1)).
  { unfold phase1 in E. eapply (fold_result_pres (fun m => sizes_ok (groups m))); [| |exact E].
    - intros x b y Hx Hy. exact (map_vcard_sizes x y b Hx Hy).
    - intros g ms Hg. cbn [groups empty_mappings] in Hg. rewrite lookup_empty in Hg. discriminate. }
  unfold phase2 in H.
  destruct (negb OPTION_NO_MATCH_APPROX && Fixer.in_list "names" OPTION_MATCH_ATTRIBUTES);
    [|injection H as <-; exact H1].
  destruct (alookup "names" (attributes m1)) as [names|]; [|discriminate].
  exact (compare_all_sizes names m1 m H1 H).
Qed.

(** Every group returned by [get_vcards_groups] has at least two members,
    whatever the name selection and the options: the [RuntimeError] of
    [main] on a one-record group ([Only one vcard in group]) is never
    raised. *)
Theorem get_vcards_groups_group_size (vcards : list (string * V))
    (gs : gmap string (list string)) (ungrouped : list string) (g : string) (ms : list string) :
  get_vcards_groups select U V vcard_fn collect_values match_approx OPTION_MATCH_ATTRIBUTES
    OPTION_NO_MATCH_APPROX vcards = Ok (gs, ungrouped) ->
  gs !! g = Some ms -> 2 <= length ms.
Proof.
  intros H Hg. unfold get_vcards_groups in H.
  destruct (grouper_run _ _ _ _ _ _ _ _ vcards) as [m|e] eqn:E; cbn [bind] in H; [|discriminate].
  injection H as <- _. exact (grouper_run_sizes vcards m E g ms Hg).
Qed.

End Sizes.

Section LostRecord.
Variable select : list string -> result string.
Variable U : bool.
Variable V : Type.
Variable vcard_fn : V -> result string.
Variable collect_values : V -> string -> result (list string).
Variable match_approx : string -> string -> bool.
Variable attrs : list string.
Variables (k n1 n2 : string) (v : V).
Hypothesis Hnames : collect_values v "names" = Ok [n1; n2].
Hypothesis Hother : forall a, a ∈ attrs -> a <> "names" -> collect_values v a = Ok [].
Hypothesis Hne : n1 <> n2.





End LostRecord.

Section Outputs.
Variable select : list string -> result string.
Variable U : bool.
Hypothesis Hsel : forall l x, select l = Ok x -> x ∈ l /\ x <> "".
Variable V : Type.
Variable vcard_fn : V -> result string.
Variable collect_values : V -> string -> result (list string).
Variable match_approx : string -> string -> bool.
Variable OPTION_MATCH_ATTRIBUTES : list string.
Variable OPTION_NO_MATCH_APPROX : bool.

(** With a name selection that returns one of its candidates, not empty,
    and distinct record keys: every member of a returned group is one of
    the input keys and is not in the list of ungrouped keys, so [main] writes
    each record at most once. *)
Theorem get_vcards_groups_members (vcards : list (string * V))
    (gs : gmap string (list string)) (ungrouped : list string) (g k : string) (ms : list string) :
  NoDup (map fst vcards) ->
  get_vcards_groups select U V vcard_fn collect_values match_approx OPTION_MATCH_ATTRIBUTES
    OPTION_NO_MATCH_APPROX vcards = Ok (gs, ungrouped) ->
  gs !! g = Some ms -> k ∈ ms ->
  k ∈ map fst vcards /\ k ∉ ungrouped.
Proof.
  intros Hnd H Hg Hk. unfold get_vcards_groups in H.
  destruct (grouper_run _ _ _ _ _ _ _ _ vcards) as [m|e] eqn:E; cbn [bind] in H; [|discriminate].
  injection H as <- <-.
  pose proof (grouper_run_inv select U Hsel V vcard_fn collect_values match_approx
                OPTION_MATCH_ATTRIBUTES OPTION_NO_MATCH_APPROX vcards m Hnd E) as Hi.
  assert (Ho : group_of m k = Some g) by (apply (gi_members _ _ Hi); exists ms; auto).
  unfold group_of in Ho. destruct (vcard_group m !! k) as [w|] eqn:Ew; [|discriminate].
  split; [exact (gi_dom _ _ Hi k w Ew)|].
  intros Hu. apply list_elem_of_filter in Hu as [Hu _].
  apply Is_true_true, negb_true_iff, bool_decide_eq_false in Hu. apply Hu, elem_of_dom. eexists. exact Ew.
Qed.

(** With fuzzy matching disabled, two distinct records are members of one
    returned group exactly when a chain of records links them, each sharing
    a value of a matched attribute with the next. *)
Theorem get_vcards_groups_exact_components (vcards : list (string * V))
    (gs : gmap string (list string)) (ungrouped : list string) (x y : string) :
  NoDup (map fst vcards) -> x <> y ->
  get_vcards_groups select U V vcard_fn collect_values match_approx OPTION_MATCH_ATTRIBUTES
    true vcards = Ok (gs, ungrouped) ->
  (exists g ms, gs !! g = Some ms /\ x ∈ ms /\ y ∈ ms) <->
  rtc (share_records collect_values OPTION_MATCH_ATTRIBUTES vcards) x y.
Proof.
  intros Hnd Hxy H. unfold get_vcards_groups in H.
  destruct (grouper_run _ _ _ _ _ _ _ _ vcards) as [m|e] eqn:E; cbn [bind] in H; [|discriminate].
  injection H as <- _.
  pose proof (grouper_run_inv select U Hsel V vcard_fn collect_values match_approx
                OPTION_MATCH_ATTRIBUTES true vcards m Hnd E) as Hi.
  unfold grouper_run, phase2 in E. cbn [negb andb] in E.
  destruct (phase1 _ _ _ _ _ _ vcards) as [p|e] eqn:E1; cbn [bind] in E; [|discriminate].
  injection E as <-.
  rewrite <- (phase1_partition select U Hsel V vcard_fn collect_values match_approx
                OPTION_MATCH_ATTRIBUTES
                vcards p Hnd E1 x y).
  unfold same_group. split.
  - intros (g & ms & Hg & Hx & Hy). right. exists g.
    split; apply (gi_members _ _ Hi); exists ms; auto.
  - intros [Heq|(g & Hx & Hy)]; [contradiction|].
    apply (gi_members _ _ Hi) in Hx as (ms & Hg & Hx).
    apply (gi_members _ _ Hi) in Hy as (ms' & Hg' & Hy).
    rewrite Hg in Hg'. injection Hg' as <-. exists g, ms. auto.
Qed.
End Outputs.

End GrouperOutputFacts.

(** ** Examples of the further properties *)

Module FurtherExamples.
Import Py Grouper Tools ToolsFacts EmailNameFacts CollectNamesFacts CollectValuesFacts MatchApproxFacts
  GrouperOutputFacts.


Lemma sanitise_name_no_forbidden_witness :
  has_char "/" FROM_CHARACTERS = true /\ has_char "/" (sanitise_name "Work/Home") = false.
Proof.
  split; [reflexivity|]. apply (sanitise_name_no_forbidden "Work/Home" "/"). reflexivity.
Defined.

Lemma build_name_from_email_chars_witness :
  let email := "jean-pierre.dupont42@example.com" in
  split_char "@" (strip email) = ["jean-pierre.dupont42"; "example.com"] /\
  build_name_from_email email = Ok "Jean Pierre Dupont" /\
  has_char "@" "Jean Pierre Dupont" = false /\ has_char "." "Jean Pierre Dupont" = false /\
  has_char "_" "Jean Pierre Dupont" = false /\
  (existsb (startswith (lower (map_chars dash_to_space (remove_digits "jean-pierre.dupont42"))))
     EMAIL_USERS_ADD_DOMAIN = false ->
   forall c, has_char c "Jean Pierre Dupont" = true -> is_digit c = false /\ c <> "-"%char).
Proof.
  intros email. split; [vm_compute; reflexivity|]. split; [vm_compute; reflexivity|].
  apply (build_name_from_email_chars email "jean-pierre.dupont42" "example.com" "Jean Pierre Dupont");
    vm_compute; reflexivity.
Defined.

Lemma collect_vcard_names_nodup_witness :
  let vc : vcard :=
    [("fn", [mkProp (VStr "Jean Dupont") []; mkProp (VStr " Jean Dupont ") []]);
     ("email", [mkProp (VStr "Jean Dupont <jean.dupont@example.com>") []])] in
  collect_vcard_names vc = Ok ["Jean Dupont"] /\ NoDup ["Jean Dupont"].
Proof.
  intros vc. split; [vm_compute; reflexivity|].
  apply (collect_vcard_names_nodup vc). vm_compute. reflexivity.
Defined.

Lemma collect_vcard_names_invalid_email_witness :
  let e := mkProp (VStr "foo@nowhere.invalid") [] in
  let vc : vcard := [("email", [e]); ("tel", [mkProp (VStr "0612") []])] in
  get_list vc "fn" = None /\ get_list vc "n" = None /\ get_list vc "email" = Some [e] /\
  exists msg, collect_vcard_names vc = Err (ValueError msg).
Proof.
  intros e vc. split; [reflexivity|]. split; [reflexivity|]. split; [reflexivity|].
  apply (collect_vcard_names_invalid_email vc e []); try reflexivity.
  intros p [<-|[]]. eexists. split; reflexivity.
Defined.

Lemma filter_values_by_param_partition_witness :
  let vc : vcard := [("tel", [mkProp (VStr "0145") [("TYPE", ["WORK"])];
                              mkProp (VStr "0612") [("TYPE", ["CELL"])]])] in
  startswith "work" "!" = false /\
  filter_values_by_param vc "tel" "TYPE" "work" = Ok ["0145"] /\
  filter_values_by_param vc "tel" "TYPE" "!work" = Ok ["0612"] /\
  Permutation (["0145"] ++ ["0612"])
    (flat_map (line_values "tel") (default [] (get_list vc (replace "_" "-" "tel")))).
Proof.
  intros vc. split; [reflexivity|]. split; [vm_compute; reflexivity|].
  split; [vm_compute; reflexivity|].
  pose proof (filter_values_by_param_partition vc "tel" "TYPE" "work" eq_refl) as H.
  exact H.
Defined.

Lemma collect_values_mobiles_witness :
  let vc : vcard := [("tel", [mkProp (VStr "0145") []; mkProp (VStr " 0612 ") []])] in
  collect_values vc ["mobiles"] = Ok ["0612"] /\
  (startswith "0612" "06" || startswith "0612" "07") = true /\
  exists tels tel, get_list vc "tel" = Some tels /\ In tel tels /\ strip (py_str (value tel)) = "0612".
Proof.
  intros vc. split; [vm_compute; reflexivity|].
  apply (collect_values_mobiles vc ["0612"] "0612"); [vm_compute; reflexivity|left; reflexivity].
Defined.

Lemma match_approx_word_order_witness :
  Permutation (split_ws (Fuzzy.full_process "Jean Dupont")) (split_ws (Fuzzy.full_process "DUPONT, jean")) /\
  match_approx false true false 5 (-3) 3 100 "Jean Dupont" "DUPONT, jean" = true.
Proof.
  assert (H : Permutation (split_ws (Fuzzy.full_process "Jean Dupont"))
                          (split_ws (Fuzzy.full_process "DUPONT, jean")))
    by (apply (bool_decide_unpack _); vm_compute; reflexivity).
  split; [exact H|]. exact (match_approx_word_order false true false 5 (-3) 3 "Jean Dupont" "DUPONT, jean" H).
Defined.

Lemma match_approx_short_witness :
  (Z.of_nat (String.length "Al") <= 5 \/ Z.of_nat (String.length "al") <= 5)%Z /\
  match_approx false true false 5 (-3) 3 100 "Al" "al" = true /\
  100%Z = 100%Z /\ Fuzzy.token_sort_ratio "Al" "al" = 100%nat.
Proof.
  split; [left; vm_compute; discriminate|]. split; [vm_compute; reflexivity|].
  apply (match_approx_short false true false 5 (-3) 3 100 "Al" "al");
    [left; vm_compute; discriminate|vm_compute; reflexivity].
Defined.

Lemma get_vcards_groups_group_size_witness :
  match get_vcards_groups GrouperExample.select_first true GrouperExample.record
          GrouperExample.record_fn GrouperExample.record_values GrouperExample.match_exact
          ["email"; "tel"; "mobiles"; "names"] false GrouperExample.sample with
  | Ok (gs, _) => gs !! "al" = Some ["al"; "alice"; "bob"; "alice2"] /\ 2 <= 4
  | Err _ => False
  end.
Proof.
  destruct (get_vcards_groups _ _ _ _ _ _ _ _ GrouperExample.sample) as [[gs u]|e] eqn:E;
    [|vm_compute in E; discriminate].
  assert (Hg : gs !! "al" = Some ["al"; "alice"; "bob"; "alice2"]).
  { vm_compute in E. injection E as <- _. vm_compute. reflexivity. }
  split; [exact Hg|].
  exact (get_vcards_groups_group_size GrouperExample.select_first true GrouperExample.record
           GrouperExample.record_fn GrouperExample.record_values GrouperExample.match_exact
           ["email"; "tel"; "mobiles"; "names"] false GrouperExample.sample gs u "al" _ E Hg).
Defined.


Lemma get_vcards_groups_members_witness :
  match get_vcards_groups GrouperExample.select_first true GrouperExample.record
          GrouperExample.record_fn GrouperExample.record_values GrouperExample.match_exact
          ["email"; "tel"; "mobiles"; "names"] false GrouperExample.sample with
  | Ok (gs, u) => gs !! "al" = Some ["al"; "alice"; "bob"; "alice2"] /\ u = ["carol"] /\
                  "bob" ∈ map fst GrouperExample.sample /\ "bob" ∉ u
  | Err _ => False
  end.
Proof.
  destruct (get_vcards_groups _ _ _ _ _ _ _ _ GrouperExample.sample) as [[gs u]|e] eqn:E;
    [|vm_compute in E; discriminate].
  assert (Hg : gs !! "al" = Some ["al"; "alice"; "bob"; "alice2"] /\ u = ["carol"]).
  { vm_compute in E. injection E as <- <-. split; [vm_compute|]; reflexivity. }
  destruct Hg as [Hg Hu]. split; [exact Hg|]. split; [exact Hu|].
  apply (get_vcards_groups_members GrouperExample.select_first true GrouperFacts.select_first_ok
           GrouperExample.record GrouperExample.record_fn GrouperExample.record_values
           GrouperExample.match_exact ["email"; "tel"; "mobiles"; "names"] false
           GrouperExample.sample gs u "al" "bob" ["al"; "alice"; "bob"; "alice2"]).
  - apply (bool_decide_unpack _). vm_compute. reflexivity.
  - exact E.
  - exact Hg.
  - apply (bool_decide_unpack _). vm_compute. reflexivity.
Defined.

Lemma get_vcards_groups_exact_components_witness :
  match get_vcards_groups GrouperExample.select_first true GrouperExample.record
          GrouperExample.record_fn GrouperExample.record_values GrouperExample.match_exact
          ["email"; "tel"; "mobiles"; "names"] true GrouperExample.sample with
  | Ok (gs, u) =>
      (exists g ms, gs !! g = Some ms /\ "alice" ∈ ms /\ "bob" ∈ ms) <->
      rtc (share_records GrouperExample.record_values ["email"; "tel"; "mobiles"; "names"]
             GrouperExample.sample) "alice" "bob"
  | Err _ => False
  end.
Proof.
  destruct (get_vcards_groups _ _ _ _ _ _ _ _ GrouperExample.sample) as [[gs u]|e] eqn:E;
    [|vm_compute in E; discriminate].
  apply (get_vcards_groups_exact_components GrouperExample.select_first true
           GrouperFacts.select_first_ok GrouperExample.record GrouperExample.record_fn
           GrouperExample.record_values GrouperExample.match_exact
           ["email"; "tel"; "mobiles"; "names"] GrouperExample.sample gs u "alice" "bob").
  - apply (bool_decide_unpack _). vm_compute. reflexivity.
  - discriminate.
  - exact E.
Defined.

End FurtherExamples.

(** ** The line endings written by [fix_and_convert_to_v3] *)

Module FixerFacts.
Import Fixer.

Section Ctrl.
(** [c] is a line feed or a carriage return. *)
Variable c : ascii.
Hypothesis Hc : c = "010"%char \/ c = "013"%char.

Ltac cst := destruct Hc as [E|E]; rewrite E; reflexivity.

Lemma ctrl_not_alpha : is_alpha c = false.
Proof. cst. Qed.

Lemma clean_app (s t : string) :
  has_char c s = false -> has_char c t = false -> has_char c (s ++ t) = false.
Proof. intros H1 H2. rewrite StrFacts2.has_char_app, H1, H2. reflexivity. Qed.

Lemma clean_from (x y : string) :
  (has_char c x = true -> has_char c y = true) -> has_char c y = false -> has_char c x = false.
Proof. intros H Hy. destruct (has_char c x) eqn:E; [|reflexivity]. rewrite (H eq_refl) in Hy. exact Hy. Qed.

Lemma clean_substring (n m : nat) (s : string) :
  has_char c s = false -> has_char c (substring n m s) = false.
Proof.
  revert n. induction s as [|d s IH]; intros n H.
  - destruct n, m; reflexivity.
  - cbn in H. apply orb_false_iff in H as [H1 H2]. destruct n as [|n].
    + apply (clean_from _ (String d s)); [apply EmailNameFacts.has_char_substring_0|].
      cbn. rewrite H1, H2. reflexivity.
    + cbn. apply IH. exact H2.
Qed.

Lemma clean_upper (s : string) : has_char c s = false -> has_char c (upper s) = false.
Proof. intros H. rewrite SanitizeFacts.has_char_upper by exact ctrl_not_alpha. exact H. Qed.

Lemma clean_strip (s : string) : has_char c s = false -> has_char c (strip s) = false.
Proof. apply clean_from, SanitizeFacts.has_char_strip. Qed.

Lemma clean_replace (old new s : string) :
  has_char c new = false -> has_char c s = false -> has_char c (replace old new s) = false.
Proof. intros Hn Hs. apply StrFacts3.replace_go_has_char; assumption. Qed.

Lemma clean_before_colon (s : string) : has_char c s = false -> has_char c (before_colon s) = false.
Proof.
  unfold before_colon. destruct (break_at ":" s) as [[b a]|] eqn:E; [|auto].
  apply clean_from. apply (EmailFacts.has_char_break_at _ _ _ _ _ E).
Qed.

Lemma clean_after_colon (s : string) : has_char c s = false -> has_char c (after_colon s) = false.
Proof.
  unfold after_colon. destruct (break_at ":" s) as [[[|x b] a]|] eqn:E; auto.
  apply clean_from. apply (EmailFacts.has_char_break_at _ _ _ _ _ E).
Qed.

Lemma clean_before_semicolon (s : string) : has_char c s = false -> has_char c (before_semicolon s) = false.
Proof.
  unfold before_semicolon. destruct (break_at ";" s) as [[[|x b] a]|] eqn:E; auto.
  apply clean_from. apply (EmailFacts.has_char_break_at _ _ _ _ _ E).
Qed.

Lemma clean_after_semicolon (s : string) : has_char c s = false -> has_char c (after_semicolon s) = false.
Proof.
  unfold after_semicolon. destruct (break_at ";" s) as [[[|x b] a]|] eqn:E; auto.
  apply clean_from. apply (EmailFacts.has_char_break_at _ _ _ _ _ E).
Qed.

Lemma escape_commas_go_cons2 (b : bool) (x y : ascii) (t : string) :
  escape_commas_go b (String x (String y t))
  = if (y =? ",")%char then
      (if negb (x =? "\")%char
       then String x (String "\" (String "," (escape_commas_go false t)))
       else if b && (x =? ",")%char
       then String "\" (String "," (escape_commas_go false (String y t)))
       else String x (escape_commas_go false (String y t)))
    else if b && (x =? ",")%char
    then String "\" (String "," (escape_commas_go false (String y t)))
    else String x (escape_commas_go false (String y t)).
Proof. destruct y as [[] [] [] [] [] [] [] []]; reflexivity. Qed.

Lemma clean_escape_commas_go (n : nat) (b : bool) (s : string) :
  String.length s <= n -> has_char c s = false -> has_char c (escape_commas_go b s) = false.
Proof.
  assert (Hbs : (c =? "\")%char = false) by cst.
  assert (Hcm : (c =? ",")%char = false) by cst.
  revert b s. induction n as [|n IH]; intros b s Hl Hs.
  - destruct s; [reflexivity|cbn in Hl; lia].
  - destruct s as [|x [|y t]]; [reflexivity| |].
    + cbn in Hs |- *. destruct (b && (x =? ",")%char); cbn; rewrite ?Hbs, ?Hcm; cbn; first [exact Hs | reflexivity].
    + rewrite escape_commas_go_cons2. cbn in Hl.
      pose proof Hs as Hs'. cbn [has_char] in Hs'. apply orb_false_iff in Hs' as [Hx Hs'].
      pose proof Hs' as Hs''. apply orb_false_iff in Hs'' as [Hy Ht].
      assert (IH1 : has_char c (escape_commas_go false (String y t)) = false) by (apply IH; [cbn; lia|exact Hs']).
      assert (IH2 : has_char c (escape_commas_go false t) = false) by (apply IH; [lia|exact Ht]).
      repeat match goal with |- context [if ?e then _ else _] => destruct e end;
        cbn [has_char]; rewrite ?Hbs, ?Hcm, ?Hx; cbn; assumption.
Qed.

Lemma clean_escape_commas (s : string) : has_char c s = false -> has_char c (escape_commas s) = false.
Proof. apply (clean_escape_commas_go (String.length s)). lia. Qed.

Lemma prefix_types_go_cons (f : nat) (x : ascii) (s : string) :
  prefix_types_go (S f) (String x s)
  = if (x =? ";")%char then
      match List.find (startswith s) type_tokens with
      | Some tok => ";TYPE=" ++ tok ++ prefix_types_go f (substring (String.length tok) (String.length s) s)
      | None => String ";" (prefix_types_go f s)
      end
    else String x (prefix_types_go f s).
Proof. destruct x as [[] [] [] [] [] [] [] []]; reflexivity. Qed.

Lemma clean_prefix_types_go (f : nat) (s : string) :
  has_char c s = false -> has_char c (prefix_types_go f s) = false.
Proof.
  revert s. induction f as [|f IH]; intros s Hs; [exact Hs|].
  destruct s as [|x s]; [reflexivity|]. rewrite prefix_types_go_cons.
  cbn [has_char] in Hs. apply orb_false_iff in Hs as [Hx Hs].
  destruct (x =? ";")%char.
  - destruct (List.find (startswith s) type_tokens) as [tok|] eqn:Ef.
    + apply List.find_some in Ef as [Hin _].
      apply clean_app; [cst|]. apply clean_app.
      * revert Hin. cbn. intros Hin.
        repeat destruct Hin as [<-|Hin]; [cst..|contradiction].
      * apply IH, clean_substring, Hs.
    + cbn [has_char]. apply orb_false_iff. split; [cst|]. apply IH, Hs.
  - cbn [has_char]. rewrite Hx. apply IH, Hs.
Qed.

Lemma clean_prefix_types (s : string) : has_char c s = false -> has_char c (prefix_types s) = false.
Proof. apply clean_prefix_types_go. Qed.

Lemma clean_split_char (d : ascii) (s : string) :
  has_char c s = false -> Forall (fun w => has_char c w = false) (split_char d s).
Proof.
  induction s as [|x s IH]; intros Hs; cbn [split_char].
  - constructor; [reflexivity|constructor].
  - cbn [has_char] in Hs. apply orb_false_iff in Hs as [Hx Hs].
    specialize (IH Hs). destruct (d =? x)%char.
    + constructor; [reflexivity|exact IH].
    + destruct (split_char d s) as [|w ws].
      * constructor; [cbn; rewrite Hx; reflexivity|constructor].
      * inversion IH as [|? ? Hw Hws]; subst. constructor; [|exact Hws].
        cbn. rewrite Hx, Hw. reflexivity.
Qed.

Lemma clean_split_fields (fields : list string) :
  Forall (fun w => has_char c w = false) fields ->
  Forall (fun w => has_char c w = false) (fst (split_fields fields)) /\
  Forall (fun w => has_char c w = false) (snd (split_fields fields)).
Proof.
  induction fields as [|field fs IH]; intros Hf; [split; constructor|].
  inversion Hf as [|? ? Hfield Hfs]; subst. destruct (IH Hfs) as [IH1 IH2].
  cbn [split_fields]. destruct (split_fields fs) as [tl rl]. cbn [fst snd] in IH1, IH2.
  destruct (startswith field "TYPE="); cbn [fst snd]; split; try assumption.
  - constructor; [apply clean_substring, Hfield|exact IH1].
  - constructor; [|exact IH2].
    destruct (_ || _); [cst|]. destruct (String.eqb field "QUOTED-PRINTABLE"); [cst|exact Hfield].
Qed.

Lemma clean_join (sep : string) (l : list string) :
  has_char c sep = false -> Forall (fun w => has_char c w = false) l -> has_char c (join sep l) = false.
Proof.
  intros Hsep. induction l as [|x [|y l] IH]; intros Hl; [reflexivity| |].
  - inversion Hl; assumption.
  - inversion Hl as [|? ? Hx Hyl]; subst. change (has_char c (x ++ sep ++ join sep (y :: l)) = false).
    apply clean_app; [exact Hx|]. apply clean_app; [exact Hsep|]. apply IH, Hyl.
Qed.

Lemma clean_fix_key_value (opt : bool) (line : string) :
  has_char c line = false -> has_char c (fst (fix_key_value opt line)) = false.
Proof.
  intros Hl. unfold fix_key_value.
  assert (Hk : has_char c (upper (before_colon line)) = false)
    by (apply clean_upper, clean_before_colon, Hl).
  assert (Hr : has_char c (if opt then after_colon line else escape_commas (after_colon line)) = false)
    by (destruct opt; [|apply clean_escape_commas]; apply clean_after_colon, Hl).
  set (key_part := upper (before_colon line)) in *.
  set (rest_part := if opt then after_colon line else escape_commas (after_colon line)) in *.
  assert (Hcolon : has_char c ":" = false) by cst.
  destruct (has_char ";" key_part); cbn [fst]; [|apply clean_app; [exact Hk|apply clean_app; assumption]].
  assert (Hk' : has_char c (if contains key_part "QUOTED-PRINTABLE;QUOTED-PRINTABLE"
                            then replace "QUOTED-PRINTABLE;QUOTED-PRINTABLE" "QUOTED-PRINTABLE" key_part
                            else key_part) = false)
    by (destruct (contains _ _); [apply clean_replace; [cst|]|]; exact Hk).
  set (kp := if contains key_part "QUOTED-PRINTABLE;QUOTED-PRINTABLE" then _ else _) in *.
  assert (Hn : has_char c (prefix_types kp) = false) by (apply clean_prefix_types, Hk').
  destruct (contains (prefix_types kp) "TYPE=").
  - assert (Hsf := clean_split_fields _ (clean_split_char ";" _ (clean_after_semicolon _ Hn))).
    destruct (split_fields (split_char ";" (after_semicolon (prefix_types kp)))) as [tl rl].
    cbn [fst snd] in Hsf. destruct Hsf as [Htl Hrl].
    assert (Hrl' : Forall (fun w => has_char c w = false)
              (if (in_list "JPEG" tl || in_list "PNG" tl || in_list "GIF" tl)
                  && negb (in_list "ENCODING=b" rl) && negb (in_list "VALUE=URI" rl)
               then (rl ++ ["VALUE=URI"])%list else rl)).
    { destruct (_ && _); [|exact Hrl]. apply Forall_app; split; [exact Hrl|constructor; [cst|constructor]]. }
    revert Hrl'. generalize (if (in_list "JPEG" tl || in_list "PNG" tl || in_list "GIF" tl)
                  && negb (in_list "ENCODING=b" rl) && negb (in_list "VALUE=URI" rl)
               then (rl ++ ["VALUE=URI"])%list else rl) as rl1. intros rl1 Hrl'.
    assert (Hrl'' : Forall (fun w => has_char c w = false)
              (if in_list "ENCODING=QUOTED-PRINTABLE" rl1 && negb (contains (join "," rl1) "CHARSET=")
               then (rl1 ++ ["CHARSET=UTF-8"])%list else rl1)).
    { destruct (_ && _); [|exact Hrl']. apply Forall_app; split; [exact Hrl'|constructor; [cst|constructor]]. }
    revert Hrl''. generalize (if in_list "ENCODING=QUOTED-PRINTABLE" rl1 && negb (contains (join "," rl1) "CHARSET=")
               then (rl1 ++ ["CHARSET=UTF-8"])%list else rl1) as rl2. intros rl2 Hrl''.
    apply clean_app; [apply clean_before_semicolon, Hk'|].
    apply clean_app; [cst|]. apply clean_app; [apply clean_join; [cst|exact Htl]|].
    apply clean_app; [destruct rl2; [reflexivity|apply clean_app; [cst|apply clean_join; [cst|exact Hrl'']]]|].
    apply clean_app; assumption.
  - apply clean_app; [|apply clean_app; assumption].
    destruct (contains (prefix_types kp) "QUOTED-PRINTABLE"); [|exact Hn].
    assert (H1 : has_char c (replace ";QUOTED-PRINTABLE" ";ENCODING=QUOTED-PRINTABLE" (prefix_types kp)) = false)
      by (apply clean_replace; [cst|exact Hn]).
    destruct (negb _); [apply clean_replace; [cst|]|]; exact H1.
Qed.

End Ctrl.

Ltac ctrl := first [left; reflexivity | right; reflexivity].
Ltac triv := try solve [ctrl | reflexivity | assumption].

Lemma fix_line_clean (line0 : string) (d : ascii) :
  d = "010"%char \/ d = "013"%char ->
  has_char d (replace (String "010" EmptyString) ""
                (replace (String "013" EmptyString) (String "010" EmptyString)
                   (replace (String "013" (String "010" EmptyString)) (String "010" EmptyString) line0))) = false.
Proof.
  intros [-> | ->].
  - rewrite StrFacts2.replace_char_empty. apply StrFacts2.has_char_remove_char.
  - apply clean_replace; triv.
    rewrite ToolsFacts.replace_char.
    destruct (has_char _ (map_chars _ _)) eqn:E; [|reflexivity].
    apply ToolsFacts.has_char_map_chars in E as (x & _ & Hx).
    destruct (x =? "013")%char eqn:Ex; [discriminate Hx|]. subst x. discriminate Ex.
Qed.

Lemma fix_step_lines (opt : bool) (st : fix_state) (line0 : string) :
  Forall (fun l => exists y, l = y ++ String "010" EmptyString /\
            has_char "010" y = false /\ has_char "013" y = false) (saved st) ->
  (forall ll, last_line st = Some ll -> exists y, ll = y ++ String "010" EmptyString /\
            has_char "010" y = false /\ has_char "013" y = false) ->
  Forall (fun l => exists y, l = y ++ String "010" EmptyString /\
            has_char "010" y = false /\ has_char "013" y = false) (saved (fix_step opt st line0)) /\
  (exists ll, last_line (fix_step opt st line0) = Some ll /\
     exists y, ll = y ++ String "010" EmptyString /\ has_char "010" y = false /\ has_char "013" y = false) /\
  length (saved (fix_step opt st line0))
    <= length (saved st) + match last_line st with Some _ => 1 | None => 0 end.
Proof.
  intros Hs Hl. unfold fix_step.
  assert (Hlf := fix_line_clean line0 "010" (or_introl eq_refl)).
  assert (Hcr := fix_line_clean line0 "013" (or_intror eq_refl)).
  set (line := replace (String "010" EmptyString) "" _) in *.
  assert (Hnew : forall new_line qp,
             (if is_begin_end line then (upper line, false)
              else if is_key_value line then fix_key_value opt line else (line, false)) = (new_line, qp) ->
             has_char "010" new_line = false /\ has_char "013" new_line = false).
  { intros new_line qp E. destruct (is_begin_end line); [|destruct (is_key_value line)];
      [injection E as <- _| |injection E as <- _].
    - split; apply clean_upper; auto.
    - assert (Hf : fst (fix_key_value opt line) = new_line) by (rewrite E; reflexivity).
      rewrite <- Hf. split; apply clean_fix_key_value; auto.
    - auto. }
  destruct (last_line st) as [ll|] eqn:El.
  - destruct (started_qp st && negb (is_key_value line)) eqn:Eq.
    + cbn [saved last_line]. split; [exact Hs|]. split; [|lia].
      eexists. split; [reflexivity|]. eexists. split; [apply SanitizeFacts.app_assoc_str|].
      destruct (Hl ll eq_refl) as (y & -> & Hy1 & Hy2).
      assert (Hline : forall d, d = "010"%char \/ d = "013"%char ->
                has_char d (strip (if opt then line else escape_commas line)) = false).
      { intros d Hd. apply clean_strip; triv.
        destruct opt; [|apply clean_escape_commas; triv];
          destruct Hd as [-> | ->]; assumption. }
      split.
      * apply clean_app; triv; [|apply Hline; ctrl].
        rewrite StrFacts2.replace_char_empty. apply StrFacts2.has_char_remove_char.
      * apply clean_app; triv; [|apply Hline; ctrl].
        apply clean_replace; triv.
        assert (H1 : has_char "013" (replace (String "010" EmptyString) "" (y ++ String "010" EmptyString)) = false).
        { apply clean_replace; triv.
          apply clean_app; triv. }
        destruct (endswith _ "=").
        -- apply clean_app; triv.
           apply clean_substring; triv.
        -- apply clean_app; triv.
    + destruct (if is_begin_end line then _ else _) as [new_line qp] eqn:Enl.
      destruct (Hnew _ _ eq_refl) as [Hn1 Hn2].
      cbn [saved last_line]. split; [|split].
      * apply Forall_app. split; [exact Hs|]. constructor; [exact (Hl ll eq_refl)|constructor].
      * eexists. split; [reflexivity|]. exists new_line. auto.
      * rewrite length_app. cbn. lia.
  - destruct (if is_begin_end line then _ else _) as [new_line qp] eqn:Enl.
    destruct (Hnew _ _ eq_refl) as [Hn1 Hn2].
    cbn [saved last_line]. split; [exact Hs|]. split; [|lia].
    eexists. split; [reflexivity|]. exists new_line. auto.
Qed.

Lemma fold_fix_step_lines (opt : bool) (lines : list string) (st : fix_state) :
  Forall (fun l => exists y, l = y ++ String "010" EmptyString /\
            has_char "010" y = false /\ has_char "013" y = false) (saved st) ->
  (forall ll, last_line st = Some ll -> exists y, ll = y ++ String "010" EmptyString /\
            has_char "010" y = false /\ has_char "013" y = false) ->
  let st' := fold_left (fix_step opt) lines st in
  Forall (fun l => exists y, l = y ++ String "010" EmptyString /\
            has_char "010" y = false /\ has_char "013" y = false) (saved st') /\
  (forall ll, last_line st' = Some ll -> exists y, ll = y ++ String "010" EmptyString /\
            has_char "010" y = false /\ has_char "013" y = false) /\
  (lines <> [] -> last_line st' <> None) /\
  length (saved st') + match last_line st' with Some _ => 1 | None => 0 end
    <= length (saved st) + match last_line st with Some _ => 1 | None => 0 end + length lines.
Proof.
  revert st. induction lines as [|l ls IH]; intros st Hs Hl; cbn [fold_left length].
  - split; [exact Hs|]. split; [exact Hl|]. split; [congruence|lia].
  - destruct (fix_step_lines opt st l Hs Hl) as (Hs' & (ll & Hll & Hy) & Hlen).
    assert (Hl' : forall ll', last_line (fix_step opt st l) = Some ll' ->
               exists y, ll' = y ++ String "010" EmptyString /\
                 has_char "010" y = false /\ has_char "013" y = false)
      by (intros ll' E; rewrite Hll in E; injection E as <-; exact Hy).
    destruct (IH _ Hs' Hl') as (H1 & H2 & H3 & H4). split; [exact H1|]. split; [exact H2|].
    split.
    + destruct ls as [|l' ls].
      * intros _. cbn. rewrite Hll. discriminate.
      * intros _. apply H3. discriminate.
    + rewrite Hll in H4. lia.
Qed.

Lemma concat_unix_lines (l : list string) :
  Forall (fun l => exists y, l = y ++ String "010" EmptyString /\
            has_char "010" y = false /\ has_char "013" y = false) l ->
  exists ys, l = map (fun y => y ++ String "010" EmptyString) ys /\
    Forall (fun y => has_char "010" y = false /\ has_char "013" y = false) ys.
Proof.
  induction l as [|x l IH]; intros H; [exists []; split; [reflexivity|constructor]|].
  inversion H as [|? ? (y & -> & Hy1 & Hy2) Hl]; subst.
  destruct (IH Hl) as (ys & -> & Hys). exists (y :: ys). split; [reflexivity|constructor; auto].
Qed.

Lemma has_char_concat_unix (d : ascii) (ys : list string) :
  d = "013"%char ->
  Forall (fun y => has_char "010" y = false /\ has_char "013" y = false) ys ->
  has_char d (String.concat "" (map (fun y => y ++ String "010" EmptyString) ys)) = false.
Proof.
  intros ->. induction ys as [|y [|y' ys] IH]; intros H; [reflexivity| |].
  - inversion H as [|? ? [_ Hy] _]; subst. cbn [map String.concat].
    apply clean_app; triv.
  - inversion H as [|? ? [_ Hy] Hys]; subst.
    change (has_char "013" ((y ++ String "010" EmptyString) ++ "" ++
              String.concat "" (map (fun y => y ++ String "010" EmptyString) (y' :: ys))) = false).
    apply clean_app; triv; [apply clean_app; triv|]. apply IH, Hys.
Qed.

(** [fix_and_convert_to_v3] writes Unix lines: its output is a sequence of
    lines, each ended by a line feed and holding no other line feed and no
    carriage return, so the output holds no carriage return at all.  It has
    at most as many lines as the input (a quoted-printable continuation is
    joined to the line before it), and it is empty only when the input has
    no line. *)
Theorem fix_and_convert_to_v3_unix_lines (opt : bool) (content : string) :
  has_char "013" (fix_and_convert_to_v3 opt content) = false /\
  exists ys,
    fix_and_convert_to_v3 opt content
      = String.concat "" (map (fun y => y ++ String "010" EmptyString) ys) /\
    Forall (fun y => has_char "010" y = false /\ has_char "013" y = false) ys /\
    length ys <= length (read_lines content) /\
    (ys = [] <-> read_lines content = []).
Proof.
  unfold fix_and_convert_to_v3.
  destruct (fold_fix_step_lines opt (read_lines content) (mkFixState [] None false))
    as (Hs & Hl & Hne & Hlen); [constructor|discriminate|].
  set (st := fold_left (fix_step opt) (read_lines content) (mkFixState [] None false)) in *.
  assert (Hall : Forall (fun l => exists y, l = y ++ String "010" EmptyString /\
            has_char "010" y = false /\ has_char "013" y = false)
            (match last_line st with Some ll => (saved st ++ [ll])%list | None => saved st end)).
  { destruct (last_line st) as [ll|]; [|exact Hs].
    apply Forall_app. split; [exact Hs|]. constructor; [apply Hl; reflexivity|constructor]. }
  destruct (concat_unix_lines _ Hall) as (ys & Hys & Hc).
  rewrite Hys. split; [apply has_char_concat_unix; [reflexivity|exact Hc]|].
  exists ys. split; [reflexivity|]. split; [exact Hc|].
  assert (Hly : length ys = length (saved st) + match last_line st with Some _ => 1 | None => 0 end).
  { rewrite <- (length_map (fun y => y ++ String "010" EmptyString) ys), <- Hys.
    destruct (last_line st); [rewrite length_app; cbn; lia|cbn; lia]. }
  cbn in Hlen. split; [lia|]. split.
  - intros ->. destruct (read_lines content) as [|l ls]; [reflexivity|].
    exfalso. cbn [length] in Hly. destruct (last_line st); [lia|]. apply Hne; [discriminate|reflexivity].
  - intros E. rewrite E in Hlen. destruct ys; [reflexivity|cbn [length] in Hlen, Hly; lia].
Qed.



End FixerFacts.

(** ** Names split by [build_formatted_name] *)

Module FormattedNameFacts.

Lemma join_cons (sep x : string) (l : list string) :
  join sep (x :: l) = x ++ match l with [] => "" | _ => sep ++ join sep l end.
Proof. destruct l; cbn; [rewrite StrFacts3.app_nil_str|]; reflexivity. Qed.

Lemma join_split_char (d : ascii) (s : string) :
  join (String d EmptyString) (split_char d s) = s.
Proof.
  induction s as [|x s IH]; [reflexivity|]. cbn [split_char].
  pose proof (EmailNameFacts.split_char_length d s) as Hl.
  destruct (d =? x)%char eqn:E.
  - apply Ascii.eqb_eq in E. subst x. rewrite join_cons.
    destruct (split_char d s) as [|w ws]; [discriminate|]. cbn [append]. rewrite IH. reflexivity.
  - destruct (split_char d s) as [|w ws]; [discriminate|].
    rewrite join_cons. rewrite join_cons in IH.
    change (String x w ++ ?r) with (String x (w ++ r)). rewrite IH. reflexivity.
Qed.

Lemma join_removelast_last (sep : string) (l : list string) (dflt : string) :
  2 <= length l -> join sep (removelast l) ++ sep ++ List.last l dflt = join sep l.
Proof.
  induction l as [|x [|y l] IH]; cbn [length]; intros H; [lia|lia|].
  destruct l as [|z l].
  - cbn. reflexivity.
  - change (removelast (x :: y :: z :: l)) with (x :: removelast (y :: z :: l)).
    change (List.last (x :: y :: z :: l) dflt) with (List.last (y :: z :: l) dflt).
    assert (Hr : removelast (y :: z :: l) <> []) by (cbn; destruct l; discriminate).
    change (join sep (x :: y :: z :: l)) with (x ++ sep ++ join sep (y :: z :: l)).
    rewrite <- IH by (cbn; lia).
    destruct (removelast (y :: z :: l)) as [|r rs]; [congruence|].
    change (join sep (x :: r :: rs)) with (x ++ sep ++ join sep (r :: rs)).
    rewrite <- !SanitizeFacts.app_assoc_str. reflexivity.
Qed.

Lemma last_in_list (w : string) (ws : list string) (dflt : string) :
  In (List.last (w :: ws) dflt) (w :: ws).
Proof.
  revert w. induction ws as [|w' ws IH]; intros w; [left; reflexivity|].
  change (List.last (w :: w' :: ws) dflt) with (List.last (w' :: ws) dflt). right. apply IH.
Qed.

Lemma count_char_has_char (d : ascii) (s : string) :
  has_char d s = false <-> count_char d s = 0.
Proof.
  induction s as [|x s IH]; [split; reflexivity|].
  rewrite EmailNameFacts.count_char_cons. cbn [has_char].
  destruct (d =? x)%char; cbn [orb]; [split; [discriminate|lia]|exact IH].
Qed.

(** Without a parenthesised or bracketed group, a [ - ] separator or (with
    the French tweaks) a [ de ] particle, [build_formatted_name] splits the
    name at its last space: the family name is the last word, which holds no
    space; the given name is the text before that space (empty when the name
    has no space), so given name, space and family name give back the name;
    there is no suffix. *)
Theorem build_formatted_name_plain (ft : bool) (name0 : string) :
  paren_search name0 = None ->
  contains name0 " - " = false ->
  (ft && contains (lower name0) " de ") = false ->
  suffix (build_formatted_name ft name0) = "" /\
  has_char " " (family (build_formatted_name ft name0)) = false /\
  (if has_char " " name0
   then given (build_formatted_name ft name0) ++ " " ++ family (build_formatted_name ft name0) = name0
   else given (build_formatted_name ft name0) = "" /\ family (build_formatted_name ft name0) = name0).
Proof.
  intros Hp Hd Hf. unfold build_formatted_name. rewrite Hp, Hd, Hf. cbn [Name family given suffix].
  pose proof (EmailNameFacts.split_char_length " " name0) as Hl.
  pose proof (join_split_char " " name0) as Hj.
  split; [reflexivity|]. split.
  - destruct (split_char " " name0) as [|w ws] eqn:Es; [discriminate|].
    apply (EmailNameFacts.split_char_parts " " name0). rewrite Es. apply last_in_list.
  - destruct (has_char " " name0) eqn:Eh.
    + assert (Hc : count_char " " name0 <> 0)
        by (intros Hc; apply count_char_has_char in Hc; congruence).
      rewrite join_removelast_last by lia. exact Hj.
    + apply count_char_has_char in Eh. rewrite Eh in Hl.
      destruct (split_char " " name0) as [|w [|w' ws]]; cbn in Hl; try discriminate.
      cbn in Hj |- *. split; [reflexivity|exact Hj].
Qed.

Lemma build_formatted_name_plain_witness :
  paren_search "Jean Pierre Dupont" = None /\
  contains "Jean Pierre Dupont" " - " = false /\
  (true && contains (lower "Jean Pierre Dupont") " de ") = false /\
  (suffix (build_formatted_name true "Jean Pierre Dupont") = "" /\
   has_char " " (family (build_formatted_name true "Jean Pierre Dupont")) = false /\
   (if has_char " " "Jean Pierre Dupont"
    then given (build_formatted_name true "Jean Pierre Dupont") ++ " "
           ++ family (build_formatted_name true "Jean Pierre Dupont") = "Jean Pierre Dupont"
    else given (build_formatted_name true "Jean Pierre Dupont") = "" /\
         family (build_formatted_name true "Jean Pierre Dupont") = "Jean Pierre Dupont")).
Proof.
  split; [reflexivity|]. split; [reflexivity|]. split; [reflexivity|].
  apply build_formatted_name_plain; reflexivity.
Defined.

End FormattedNameFacts.
